(** * Distance-vector routing simulation (dvr.py): model and properties

    The development embeds [dvr.py] shallowly: Python dictionaries are finite
    maps over strings, the [defaultdict] routing table is a finite map read
    through its default, exceptions are an error monad, and the threads of
    one iteration are a relation that lets the messages of a queue arrive in
    any order. *)

From stdpp Require Import gmap strings list fin_maps numbers.
From stdpp Require pretty sorting.

Local Open Scope Z_scope.

(** ** Exceptions *)

(** The exceptions the modelled code can raise. *)
Inductive exn :=
  KeyError | TypeError | OverflowError | SyntaxError | IndexError | ValueError.

Inductive result (A : Type) : Type :=
  | Ok (a : A)
  | Raise (e : exn).
Arguments Ok {A} a.
Arguments Raise {A} e.

#[global] Instance result_ret : MRet result := fun _ a => Ok a.
#[global] Instance result_bind : MBind result := fun _ _ f m =>
  match m with
  | Ok a => f a
  | Raise e => Raise e
  end.

(** A [for] loop whose body may raise: the first exception ends the loop. *)
Fixpoint foldM {A B : Type} (f : B → A → result B) (l : list A) (b : B) : result B :=
  match l with
  | [] => Ok b
  | x :: l' => b' ← f b x; foldM f l' b'
  end.

(** ** Numbers

    A cost is a Python [int] (unbounded) or the float [math.inf]; no other
    float arises, since the code only adds costs. *)
Inductive num := Int (z : Z) | Inf.

#[global] Instance num_eq_dec : EqDecision num.
Proof. solve_decision. Defined.

(** [float + int] converts the int to a double first and raises
    [OverflowError] ("int too large to convert to float") when the int, once
    rounded to 53 bits, needs an exponent above 1024: from 2^1024 - 2^970
    on. *)
Definition dbl_limit : Z := 2 ^ 1024 - 2 ^ 970.

Definition fits_double (z : Z) : bool := Z.abs z <? dbl_limit.

(** [a + b] *)
Definition num_add (a b : num) : result num :=
  match a, b with
  | Int x, Int y => Ok (Int (x + y))
  | Inf, Int y => if fits_double y then Ok Inf else Raise OverflowError
  | Int x, Inf => if fits_double x then Ok Inf else Raise OverflowError
  | Inf, Inf => Ok Inf
  end.

(** [a < b]: an int and a float are compared exactly. *)
Definition num_lt (a b : num) : bool :=
  match a, b with
  | Int x, Int y => x <? y
  | Int _, Inf => true
  | Inf, _ => false
  end.

(** [a <= b], used to state properties only. *)
Definition num_le (a b : num) : Prop :=
  match a, b with
  | Int x, Int y => x ≤ y
  | _, Inf => True
  | Inf, Int _ => False
  end.

(** ** Routing tables *)

(** A table value is the tuple [0, 'None'] of line 34 or a list
    [[cost, path]]: a list can be assigned to by index, a tuple cannot, and
    a list never equals a tuple. *)
Inductive seq_kind := PyTuple | PyList.

#[global] Instance seq_kind_eq_dec : EqDecision seq_kind.
Proof. solve_decision. Defined.

Record entry := Entry { kind : seq_kind; cost : num; hop : string }.

#[global] Instance entry_eq_dec : EqDecision entry.
Proof. solve_decision. Defined.

(** [lambda: [math.inf, '[no path]']] *)
Definition default_entry : entry := Entry PyList Inf "[no path]".

(** [(0, 'None')] *)
Definition self_entry : entry := Entry PyTuple (Int 0) "None".

(** The [defaultdict] of line 33.  Reading a missing key stores the default
    under it and returns it; a key stored with the default and a missing key
    read the same (lemma [tget_touch]), and the one loop over stored keys
    (line 140) writes nothing for such a key, so the map below keeps only
    the keys that were assigned. *)
Abbreviation table := (gmap string entry).

(** [table[k]] *)
Definition tget (t : table) (k : string) : entry := default default_entry (t !! k).

(** What reading [table[k]] stores. *)
Definition touch (t : table) (k : string) : table :=
  match t !! k with
  | Some _ => t
  | None => <[k := default_entry]> t
  end.

(** [table[k][0] = v] *)
Definition set_cost (t : table) (k : string) (v : num) : result table :=
  match kind (tget t k) with
  | PyTuple => Raise TypeError
  | PyList => Ok (<[k := Entry PyList v (hop (tget t k))]> t)
  end.

(** [table[k][1] = h] *)
Definition set_hop (t : table) (k : string) (h : string) : result table :=
  match kind (tget t k) with
  | PyTuple => Raise TypeError
  | PyList => Ok (<[k := Entry PyList (cost (tget t k)) h]> t)
  end.

(** [a != b] on two table values. *)
Definition entry_ne (a b : entry) : bool := bool_decide (a ≠ b).

(** ** Routers *)

Record Router := mkRouter {
  name : string;
  queue : list (table * string);
  iterations : nat;
  neighbours : list string;
  appended_at : gmap string nat;
  rtable : table
}.

(** [Router(name)], lines 12-34. *)
Definition new_router (nm : string) : Router :=
  mkRouter nm [] 0 [] ∅ (<[nm := self_entry]> ∅).

Definition set_queue (r : Router) (q : list (table * string)) : Router :=
  mkRouter (name r) q (iterations r) (neighbours r) (appended_at r) (rtable r).

Definition set_iterations (r : Router) (n : nat) : Router :=
  mkRouter (name r) (queue r) n (neighbours r) (appended_at r) (rtable r).

Definition set_rtable (r : Router) (t : table) : Router :=
  mkRouter (name r) (queue r) (iterations r) (neighbours r) (appended_at r) t.

Definition set_appended_at (r : Router) (a : gmap string nat) : Router :=
  mkRouter (name r) (queue r) (iterations r) (neighbours r) a (rtable r).

(** [add_neighbours], lines 64-65. *)
Definition add_neighbours (r : Router) (nm : string) : Router :=
  mkRouter (name r) (queue r) (iterations r) (neighbours r ++ [nm])
           (appended_at r) (rtable r).

(** The global dict [routers]: its keys in insertion order (the order of
    [for eachRouter in routers]) and its contents. *)
Record Routers := mkRouters {
  keys : list string;
  store : gmap string Router
}.

Definition no_routers : Routers := mkRouters [] ∅.

(** [routers[k] = r] *)
Definition dict_set (rs : Routers) (k : string) (r : Router) : Routers :=
  mkRouters (if decide (k ∈ keys rs) then keys rs else keys rs ++ [k])
            (<[k := r]> (store rs)).

(** [routers[k]] *)
Definition dict_get (rs : Routers) (k : string) : result Router :=
  match store rs !! k with
  | Some r => Ok r
  | None => Raise KeyError
  end.

(** A router object changed in place: the key keeps its position. *)
Definition update (rs : Routers) (k : string) (r : Router) : Routers :=
  mkRouters (keys rs) (<[k := r]> (store rs)).

(** ** Text

    The text of the input file as Python holds it once decoded: a [string]
    is a [str], one [ascii] per character, for the characters up to
    U+00FF. *)

Definition chr_in (lo hi : N) (c : Ascii.ascii) : bool :=
  ((lo <=? Ascii.N_of_ascii c) && (Ascii.N_of_ascii c <=? hi))%N.

(** [c.isspace()]: what [split()] separates fields at. *)
Definition isspace (c : Ascii.ascii) : bool :=
  chr_in 9 13 c || chr_in 28 32 c || chr_in 133 133 c || chr_in 160 160 c.

(** [s.split()], [word] being the field read so far. *)
Fixpoint split_from (word s : string) : list string :=
  match s with
  | EmptyString => if decide (word = EmptyString) then [] else [word]
  | String c s' =>
      if isspace c
      then (if decide (word = EmptyString) then [] else [word]) ++ split_from EmptyString s'
      else split_from (word +:+ String c EmptyString) s'
  end.

Definition split (s : string) : list string := split_from EmptyString s.

(** [sub in s] *)
Fixpoint contains (sub s : string) : bool :=
  String.prefix sub s ||
  match s with
  | EmptyString => false
  | String _ s' => contains sub s'
  end.

(** The white space [int()] accepts around a number: the characters 28 to
    31 separate fields but are refused here. *)
Definition int_space (c : Ascii.ascii) : bool :=
  chr_in 9 13 c || chr_in 32 32 c || chr_in 133 133 c || chr_in 160 160 c.

Fixpoint lstrip (s : string) : string :=
  match s with
  | EmptyString => EmptyString
  | String c s' => if int_space c then lstrip s' else s
  end.

Fixpoint rstrip (s : string) : string :=
  match s with
  | EmptyString => EmptyString
  | String c s' =>
      let t := rstrip s' in
      if decide (t = EmptyString) then
        if int_space c then EmptyString else String c EmptyString
      else String c t
  end.

Definition digit_of (c : Ascii.ascii) : option Z :=
  if chr_in 48 57 c then Some (Z.of_N (Ascii.N_of_ascii c) - 48) else None.

(** The digits of a decimal literal, single underscores (character 95)
    allowed between two digits; [sep] says that a digit must come next.  Gives the value and
    the number of digits. *)
Fixpoint int_digits (sep : bool) (acc : Z) (count : nat) (s : string) : option (Z * nat) :=
  match s with
  | EmptyString => if sep then None else Some (acc, count)
  | String c s' =>
      match digit_of c with
      | Some d => int_digits false (10 * acc + d) (S count) s'
      | None =>
          if chr_in 95 95 c && negb sep
          then int_digits true acc count s'
          else None
      end
  end.

(** The limit of CPython 3.11 on the digits of an int read from or written
    to a string ([sys.int_info.default_max_str_digits]). *)
Definition max_str_digits : nat := 4300.

(** A leading [-] (character 45) or [+] (character 43). *)
Definition signed (s : string) : bool * string :=
  match s with
  | String c b =>
      if chr_in 45 45 c then (true, b)
      else if chr_in 43 43 c then (false, b)
      else (false, s)
  | EmptyString => (false, s)
  end.

(** [int(s)] for a [str]: white space around, a sign, digits; leading
    zeros count as digits. *)
Definition py_int (s : string) : result Z :=
  let '(neg, body) := signed (rstrip (lstrip s)) in
  match int_digits true 0 0 body with
  | Some (z, n) =>
      if (n <=? max_str_digits)%nat then Ok (if neg then - z else z)
      else Raise ValueError
  | None => Raise ValueError
  end.

(** ** input_parser (lines 69-105)

    [edge] is an edge line once split, its third field through [int()]. *)
Definition edge : Type := string * string * Z.

(** Lines 93-96 (and 99-102 with the two ends swapped). *)
Definition link (rs : Routers) (src dest : string) (c : Z) : result Routers :=
  r ← dict_get rs src;
  let r := add_neighbours r dest in
  t ← set_cost (rtable r) dest (Int c);
  t ← set_hop t dest dest;
  Ok (update rs src (set_rtable r t)).

(** The body of the loop of line 86. *)
Definition parse_edge (rs : Routers) (e : edge) : result Routers :=
  let '(src, dest, c) := e in
  rs ← link rs src dest c;
  link rs dest src c.

(** Lines 78-79. *)
Definition make_routers (routerNames : list string) : Routers :=
  fold_left (fun rs nm => dict_set rs nm (new_router nm)) routerNames no_routers.

(** The two loops of [input_parser] (lines 78-79 and 86-102) on fields
    already read: the names of the second line and one triple per edge line.
    The bare [except] of line 103 turns every exception into [SyntaxError].
    The whole function, from the lines of the file, is [input_parser_file]
    below. *)
Definition input_parser (routerNames : list string) (edges : list edge) : result Routers :=
  match foldM parse_edge edges (make_routers routerNames) with
  | Ok rs => Ok rs
  | Raise _ => Raise SyntaxError
  end.

(** [lines[i]] *)
Definition line_at (lines : list string) (i : nat) : result string :=
  match lines !! i with
  | Some l => Ok l
  | None => Raise IndexError
  end.

(** [lines[-1]] *)
Definition last_line (lines : list string) : result string :=
  match list.last lines with
  | Some l => Ok l
  | None => Raise IndexError
  end.

(** Lines 88-90: the fields of an edge line are unpacked into three names,
    the third through [int()].  Fewer or more than three fields and a third
    field that [int()] refuses all raise ValueError. *)
Definition read_edge (line : string) : result edge :=
  match split line with
  | [src; dest; cost] => c ← py_int cost; Ok (src, dest, c)
  | _ => Raise ValueError
  end.

(** Lines 86-102 for one line. *)
Definition parse_line (rs : Routers) (line : string) : result Routers :=
  e ← read_edge line;
  parse_edge rs e.

(** Lines 74-102, [lines] being what [f.readlines()] returned and [routers]
    being empty, as it is when the script calls the function. *)
Definition parse_lines (lines : list string) : result Routers :=
  l0 ← line_at lines 0;
  no_of_routers ← py_int l0;
  l1 ← line_at lines 1;
  let routerNames := split l1 in
  let rs := make_routers routerNames in
  let lines := drop 2 lines in
  l ← last_line lines;
  let lines := if contains "EOF" l then removelast lines else lines in
  foldM parse_line lines rs.

(** [input_parser] from the lines of the file: whatever is raised inside
    is caught by the bare [except] of line 103 and raised again as
    [SyntaxError], which nothing in the script catches. *)
Definition input_parser_file (lines : list string) : result Routers :=
  match parse_lines lines with
  | Ok rs => Ok rs
  | Raise _ => Raise SyntaxError
  end.

(** ** threaded (lines 109-149) *)

(** Lines 133-137, for one message [(tbl, nm)] and one [eachRouter]. *)
Definition relax_entry (own tbl : table) (nm : string)
    (table_copy : table) (eachRouter : string) : result table :=
  val ← num_add (cost (tget tbl eachRouter)) (cost (tget own nm));
  if num_lt val (cost (tget table_copy eachRouter)) then
    table_copy ← set_cost table_copy eachRouter val;
    set_hop table_copy eachRouter (hop (tget table_copy nm))
  else Ok table_copy.

(** Lines 131-137: the loop over the routers, for one message. *)
Definition relax_msg (own : table) (universe : list string)
    (table_copy : table) (msg : table * string) : result table :=
  foldM (relax_entry own msg.1 msg.2) universe table_copy.

(** Lines 129-137: the loop over the queue. *)
Definition relax_queue (own : table) (universe : list string)
    (q : list (table * string)) (table_copy : table) : result table :=
  foldM (relax_msg own universe) q table_copy.

(** Lines 141-143, for one item of [table_copy]. *)
Definition commit_item (its : nat) (st : table * gmap string nat)
    (kv : string * entry) : table * gmap string nat :=
  if entry_ne (tget st.1 kv.1) kv.2
  then (<[kv.1 := kv.2]> st.1, <[kv.1 := its]> st.2)
  else st.

(** Lines 140-143. *)
Definition commit (its : nat) (own : table) (app : gmap string nat)
    (table_copy : table) : table * gmap string nat :=
  fold_left (commit_item its) (map_to_list table_copy) (own, app).

(** How a thread ends: normally, or by an exception nobody catches, which
    leaves the router as it was when the exception was raised. *)
Inductive outcome :=
  | Done (r : Router)
  | Died (e : exn) (r : Router).

Definition final (o : outcome) : Router :=
  match o with
  | Done r => r
  | Died _ r => r
  end.

(** Lines 123-146, run once the queue holds a message per neighbour;
    [universe] is the key list of [routers]. *)
Definition threaded (universe : list string) (router : Router) : outcome :=
  let router := set_iterations router (S (iterations router)) in
  let table_copy := rtable router in
  match relax_queue (rtable router) universe (queue router) table_copy with
  | Raise e => Died e router
  | Ok table_copy =>
      let '(t, a) := commit (iterations router) (rtable router)
                            (appended_at router) table_copy in
      Done (set_queue (set_appended_at (set_rtable router t) a) [])
  end.

(** ** add_to_queue (lines 152-160) and one iteration of main *)

Definition push (r : Router) (m : table * string) : Router :=
  set_queue r (queue r ++ [m]).

(** Line 160, for one neighbour. *)
Definition send (router_name : string) (rs : Routers) (nhbr : string) : result Routers :=
  r ← dict_get rs router_name;
  n ← dict_get rs nhbr;
  Ok (update rs nhbr (push n (rtable r, router_name))).

Definition add_to_queue (rs : Routers) (router_name : string) : result Routers :=
  r ← dict_get rs router_name;
  foldM (send router_name) (neighbours r) rs.

(** Every thread's [add_to_queue], one thread after the other: one of the
    schedules of the threads.  The others are those of [sending] below; they
    fill every queue with the same messages in another order. *)
Definition send_all (rs : Routers) : result Routers :=
  foldM add_to_queue (keys rs) rs.

(** One iteration of the loop of line 182, from a state in which every
    queue is empty: the state [input_parser] leaves, and the state every
    thread that ended normally leaves.  Each thread sends its table to its
    neighbours, spins until its queue is as long as its neighbour list, and
    runs lines 123-146.  The appends of different threads interleave, so a
    queue is any permutation of what [send_all] builds; a thread whose queue
    never reaches the expected length spins for ever, and the iteration has
    no end.  A thread that died leaves its queue filled; what the next
    iteration then does depends on how the threads race, and it is not
    followed here. *)
Definition round_step (rs rs' : Routers) : Prop :=
  (∀ n r, store rs !! n = Some r → queue r = []) ∧
  keys rs' = keys rs ∧
  ∃ rs1, send_all rs = Ok rs1 ∧
    ∀ n, match store rs1 !! n with
         | Some r => ∃ q, q ≡ₚ queue r ∧
                          length q = length (neighbours r) ∧
                          store rs' !! n = Some (final (threaded (keys rs) (set_queue r q)))
         | None => store rs' !! n = None
         end.

(** The same iteration with the messages taken in the order [send_all]
    delivers them.  ([send_all] raises only when a neighbour is not a key of
    [routers], which [input_parser] excludes; such a state is left as it
    is.) *)
Definition run_router (universe : list string) (r : Router) : Router :=
  final (threaded universe r).

Definition run_round (rs : Routers) : Routers :=
  match send_all rs with
  | Ok rs1 => mkRouters (keys rs) (run_router (keys rs) <$> store rs1)
  | Raise _ => rs
  end.

(** The states the simulation goes through after [input_parser]. *)
Inductive reachable (rs0 : Routers) : Routers → Prop :=
  | reach_init : reachable rs0 rs0
  | reach_step rs rs' : reachable rs0 rs → round_step rs rs' → reachable rs0 rs'.

(** * Definitions for the statements and the proofs *)

(** ** Costs and the steps of the relaxation *)

Definition is_int (n : num) : Prop := ∃ z, n = Int z.

(** The smaller of two costs, the first on a tie. *)
Definition nmin (a b : num) : num := if num_lt b a then b else a.

(** The candidate cost of line 133: it depends on the message and on the
    router's table before the iteration, not on [table_copy]. *)
Definition cand (own : table) (m : table * string) (d : string) : result num :=
  num_add (cost (tget m.1 d)) (cost (tget own m.2)).

(** The cost a candidate leaves under a key. *)
Definition cmin (c : num) (r : result num) : num :=
  match r with
  | Ok v => nmin c v
  | Raise _ => c
  end.

(** The step for message [m] and destination [d] raises. *)
Definition blocked (own tc : table) (m : table * string) (d : string) : bool :=
  match cand own m d with
  | Raise _ => true
  | Ok v => num_lt v (cost (tget tc d)) && bool_decide (kind (tget tc d) = PyTuple)
  end.

(** Two tables with the same kind of value under every key and the same
    tuples. *)
Definition same_frame (t t' : table) : Prop :=
  ∀ k, kind (tget t' k) = kind (tget t k) ∧
       (kind (tget t k) = PyTuple → tget t' k = tget t k).

(** Some step of the sweep for one message raises. *)
Definition blocked_msg (own : table) (universe : list string) (tc : table)
    (m : table * string) : bool :=
  existsb (blocked own tc m) universe.

Definition blocked_queue (own : table) (universe : list string) (tc : table)
    (q : list (table * string)) : bool :=
  existsb (blocked_msg own universe tc) q.

(** The cost under [k] once every message of [q] had its candidate. *)
Definition best (own : table) (q : list (table * string)) (k : string) (c : num) : num :=
  fold_left (λ c m, cmin c (cand own m k)) q c.

(** ** Example networks *)

(** The dict [routers] after [input_parser], empty when it raised. *)
Definition parsed (routerNames : list string) (edges : list edge) : Routers :=
  match input_parser routerNames edges with
  | Ok rs => rs
  | Raise _ => no_routers
  end.

Definition router_of (rs : Routers) (n : string) : Router :=
  default (new_router n) (store rs !! n).

(** The message [add_to_queue] sends for router [n]. *)
Definition msg_of (rs : Routers) (n : string) : table * string :=
  (rtable (router_of rs n), n).

(** What a table holds under a destination: cost and next hop. *)
Definition view (t : table) (d : string) : num * string :=
  (cost (tget t d), hop (tget t d)).

Definition entry_of (rs : Routers) (n d : string) : num * string :=
  view (rtable (router_of rs n)) d.

(** A - B - C in a line, both edges of cost 1. *)
Definition line_net : Routers :=
  parsed ["A"; "B"; "C"] [("A", "B", 1); ("B", "C", 1)].

(** N reaches Z through X or through Y at the same cost. *)
Definition diamond_net : Routers :=
  parsed ["N"; "X"; "Y"; "Z"]
         [("N", "X", 1); ("N", "Y", 1); ("X", "Z", 1); ("Y", "Z", 1)].

(** A network whose one edge costs more than a double can hold. *)
Definition huge_net : Routers :=
  parsed ["A"; "B"; "C"] [("A", "B", 2 ^ 1024)].

(** ** The relaxation engine as the specification words it

    Section 4.2 of the specification, over tables that are total maps from
    destinations to (cost, next hop) and with its saturating addition. *)
Module Spec.

Definition Table : Type := string → num * string.

(** "infinity + finite = infinity" *)
Definition add (a b : num) : num :=
  match a, b with
  | Int x, Int y => Int (x + y)
  | _, _ => Inf
  end.

Definition set (t : Table) (d : string) (v : num * string) : Table :=
  λ k, if decide (k = d) then v else t k.

(** "candidate = vector[d].cost + costToSender.  If candidate <
    newTable[d].cost: set newTable[d] = (candidate,
    newTable[senderID].nextHop)." *)
Definition relax_dest (costToSender : num) (vector : Table) (senderID : string)
    (newTable : Table) (d : string) : Table :=
  let candidate := add (vector d).1 costToSender in
  if num_lt candidate (newTable d).1
  then set newTable d (candidate, (newTable senderID).2)
  else newTable.

(** "For each received (vector, senderID): let costToSender =
    ownTable[senderID].cost; for every destination d (iterate the full
    node-ID universe) ..." *)
Definition relax_vector (ownTable : Table) (universe : list string)
    (newTable : Table) (received : Table * string) : Table :=
  let costToSender := (ownTable received.2).1 in
  fold_left (relax_dest costToSender received.1 received.2) universe newTable.

(** "Start newTable as a copy of ownTable ... Return newTable." *)
Definition relax (ownTable : Table) (universe : list string)
    (receivedVectors : list (Table * string)) : Table :=
  fold_left (relax_vector ownTable universe) receivedVectors ownTable.

End Spec.

(** ** Views, safe tables, invariants *)

(** A message as the specification sees it. *)
Definition view_msg (m : table * string) : Spec.Table * string := (view m.1, m.2).

(** Tables on which no step of the relaxation can raise: every cost is the
    sentinel or a non-negative int that fits a double, and a tuple holds
    cost 0. *)
Definition num_safe (n : num) : bool :=
  match n with
  | Int z => (0 <=? z) && fits_double z
  | Inf => true
  end.

Definition entry_safe (e : entry) : bool :=
  num_safe (cost e) &&
  match kind e with
  | PyTuple => bool_decide (cost e = Int 0)
  | PyList => true
  end.

Definition table_safe (t : table) : bool :=
  forallb (λ kv, entry_safe kv.2) (map_to_list t).

Definition queue_safe (q : list (table * string)) : bool :=
  forallb (λ m, table_safe m.1) q.

(** The router at one end of a parsed edge: a neighbour more and the edge's
    cost in the table. *)
Definition linked (r : Router) (dest : string) (c : Z) : Router :=
  mkRouter (name r) (queue r) (iterations r) (neighbours r ++ [dest])
           (appended_at r) (<[dest := Entry PyList (Int c) dest]> (rtable r)).

(** What a router's table and neighbour list satisfy at every moment of the
    simulation: the router's own entry is the tuple of line 34 and the only
    tuple, every neighbour is another router and has a finite cost, and a
    finite cost comes with a neighbour as next hop. *)
Definition table_ok (n : string) (nb : list string) (t : table) : Prop :=
  tget t n = self_entry ∧
  (∀ k, k ≠ n → kind (tget t k) = PyList) ∧
  (∀ m, m ∈ nb → m ≠ n ∧ is_int (cost (tget t m))) ∧
  (∀ k, k ≠ n → is_int (cost (tget t k)) → hop (tget t k) ∈ nb).

(** The same for a whole network: the routers are those of the second input
    line, and neighbourhood is symmetric. *)
Definition net_ok (routerNames : list string) (rs : Routers) : Prop :=
  (∀ n, n ∈ routerNames ↔ is_Some (store rs !! n)) ∧
  (∀ n r, store rs !! n = Some r → table_ok n (neighbours r) (rtable r)) ∧
  (∀ n r m, store rs !! n = Some r → m ∈ neighbours r →
            ∃ r', store rs !! m = Some r' ∧ n ∈ neighbours r').

(** The ends of an edge [input_parser] accepts. *)
Definition edge_ok (routerNames : list string) (e : edge) : Prop :=
  e.1.1 ≠ e.1.2 ∧ e.1.1 ∈ routerNames ∧ e.1.2 ∈ routerNames.

#[global] Instance edge_ok_dec routerNames e : Decision (edge_ok routerNames e).
Proof. unfold edge_ok. apply _. Defined.

(** ** Messages and iterations *)

(** A message router [n] can find in its queue: the table of a router that
    lists [n] as a neighbour, with that router's name. *)
Definition msg_from (rs : Routers) (n : string) (m : table * string) : Prop :=
  ∃ rS, store rs !! m.2 = Some rS ∧ m.1 = rtable rS ∧ n ∈ neighbours rS.

(** [rs'] is [rs] with such messages appended to the queues. *)
Definition sent_ok (rs rs' : Routers) : Prop :=
  keys rs' = keys rs ∧
  ∀ n, match store rs !! n with
       | None => store rs' !! n = None
       | Some r => ∃ ext, store rs' !! n = Some (set_queue r (queue r ++ ext)) ∧
                          Forall (msg_from rs n) ext
       end.

#[global] Instance Router_eq_dec : EqDecision Router.
Proof. solve_decision. Defined.

(** The queues are empty, every thread can send, and every queue then has
    the length its thread waits for. *)
Definition round_ready (rs : Routers) : bool :=
  forallb (λ kv, bool_decide (queue kv.2 = [])) (map_to_list (store rs)) &&
  match send_all rs with
  | Ok rs1 =>
      forallb (λ kv, bool_decide (length (queue kv.2) = length (neighbours kv.2)))
              (map_to_list (store rs1))
  | Raise _ => false
  end.

(** Whatever the order of the messages in each queue, every thread ends in
    the same state. *)
Definition order_blind (rs : Routers) : bool :=
  match send_all rs with
  | Ok rs1 =>
      forallb (λ kv,
                 forallb (λ q, bool_decide
                                 (final (threaded (keys rs) (set_queue kv.2 q)) =
                                  final (threaded (keys rs) kv.2)))
                         (permutations (queue kv.2)))
              (map_to_list (store rs1))
  | Raise _ => false
  end.

(** * Definitions for the further properties *)

(** ** What the edge lines say *)

(** The routers edge [e] makes neighbours of [a], in the order lines 93 and
    99 append them. *)
Definition other_end (a : string) (e : edge) : list string :=
  (if decide (e.1.1 = a) then [e.1.2] else []) ++
  (if decide (e.1.2 = a) then [e.1.1] else []).

(** Edge [e] joins [a] and [b], in either direction. *)
Definition joins (a b : string) (e : edge) : Prop :=
  (e.1.1 = a ∧ e.1.2 = b) ∨ (e.1.1 = b ∧ e.1.2 = a).

#[global] Instance joins_dec a b e : Decision (joins a b e).
Proof. unfold joins. apply _. Defined.

(** The cost of the last edge line that joins [a] and [b]. *)
Definition last_cost (a b : string) (edges : list edge) : option Z :=
  fold_left (λ acc e, if decide (joins a b e) then Some e.2 else acc) edges None.

(** The table value lines 95-96 and 101-102 leave in [a]'s table under
    [b]. *)
Definition parsed_entry (a b : string) (edges : list edge) : entry :=
  if decide (b = a) then self_entry
  else match last_cost a b edges with
       | Some c => Entry PyList (Int c) b
       | None => default_entry
       end.

(** The router [input_parser] builds for name [a]. *)
Definition parsed_router (a : string) (edges : list edge) (r : Router) : Prop :=
  name r = a ∧ queue r = [] ∧ iterations r = 0%nat ∧ appended_at r = ∅ ∧
  neighbours r = flat_map (other_end a) edges ∧
  ∀ b, tget (rtable r) b = parsed_entry a b edges.

(** How often [x] occurs in [l]. *)
Definition occurrences (x : string) (l : list string) : nat :=
  length (filter (λ y, y = x) l).

(** ** What add_to_queue delivers *)

(** The messages the thread of [s] appends to the queue of [n]: one copy of
    its table for every occurrence of [n] in its neighbour list. *)
Definition sent_by (rs : Routers) (n s : string) : list (table * string) :=
  match store rs !! s with
  | Some r => (λ _, (rtable r, s)) <$> filter (λ y, y = n) (neighbours r)
  | None => []
  end.

(** The messages of all threads for [n], the threads taken in the order of
    the keys of [routers]. *)
Definition inbox (rs : Routers) (n : string) : list (table * string) :=
  flat_map (sent_by rs n) (keys rs).

(** [rs'] is [rs] with the messages [E n] appended to the queue of every
    router [n]. *)
Definition queues_grown (rs : Routers) (E : string → list (table * string))
    (rs' : Routers) : Prop :=
  keys rs' = keys rs ∧
  ∀ n, store rs' !! n = (λ r, set_queue r (queue r ++ E n)) <$> store rs !! n.

(** The thread of [s] can send: [s] has a router and all its neighbours are
    keys of [routers]. *)
Definition can_send (rs : Routers) (s : string) : Prop :=
  match store rs !! s with
  | Some r => Forall (λ m, is_Some (store rs !! m)) (neighbours r)
  | None => False
  end.

#[global] Instance can_send_dec rs s : Decision (can_send rs s).
Proof. unfold can_send. destruct (store rs !! s); apply _. Defined.

(** Every thread can send. *)
Definition closed (rs : Routers) : Prop := Forall (can_send rs) (keys rs).

(** ** Invariants of the iterations *)

(** The wiring [input_parser] leaves and no iteration changes: the keys of
    [routers] are distinct and are the routers, every neighbour is a router,
    and two routers list each other equally often. *)
Definition wired (rs : Routers) : Prop :=
  NoDup (keys rs) ∧
  (∀ n, n ∈ keys rs ↔ is_Some (store rs !! n)) ∧
  (∀ a ra m, store rs !! a = Some ra → m ∈ neighbours ra → is_Some (store rs !! m)) ∧
  (∀ a b ra rb, store rs !! a = Some ra → store rs !! b = Some rb →
                occurrences b (neighbours ra) = occurrences a (neighbours rb)).

(** The states after exactly [k] iterations. *)
Inductive reachable_in (rs0 : Routers) : nat → Routers → Prop :=
  | reach_in_0 : reachable_in rs0 0 rs0
  | reach_in_S k rs rs' :
      reachable_in rs0 k rs → round_step rs rs' → reachable_in rs0 (S k) rs'.

(** The condition of the '*' of line 55: [appended_at[router_name] ==
    iterations], where a missing key reads as None and equals no count. *)
Definition changed_mark (r : Router) (router_name : string) : bool :=
  bool_decide (appended_at r !! router_name = Some (iterations r)).

(** No change mark is ahead of the iteration count. *)
Definition marks_ok (r : Router) : Prop :=
  ∀ d i, appended_at r !! d = Some i → (i ≤ iterations r)%nat.

(** ** Costs and walks *)

Definition num_nonneg (n : num) : Prop :=
  match n with
  | Int z => 0 ≤ z
  | Inf => True
  end.

(** A walk of [j] links from [a] to [d] and its total cost, each link
    between two different routers and costed by the last edge line that
    joins them (the cost [input_parser] keeps). *)
Inductive lwalk (edges : list edge) : nat → string → string → Z → Prop :=
  | lwalk_here a : lwalk edges 0 a a 0
  | lwalk_link j a b d c z :
      a ≠ b → last_cost a b edges = Some c → lwalk edges j b d z →
      lwalk edges (S j) a d (c + z).

(** Every finite cost of the table of router [n] is the cost of a walk from
    [n], and an infinite cost comes with the default value. *)
Definition routes_ok (edges : list edge) (n : string) (t : table) : Prop :=
  ∀ d, (∀ z, cost (tget t d) = Int z → ∃ j, lwalk edges j n d z) ∧
       (cost (tget t d) = Inf → tget t d = default_entry).

(** Every cost of the table is non-negative. *)
Definition costs_nonneg (t : table) : Prop := ∀ d, num_nonneg (cost (tget t d)).

#[global] Instance closed_dec rs : Decision (closed rs).
Proof. unfold closed. apply _. Defined.

(** A dict whose one router lists a neighbour that is no key. *)
Definition dangling_net : Routers :=
  mkRouters ["A"] {["A" := linked (new_router "A") "B" 1]}.

(** Two routers joined by one edge of negative cost. *)
Definition negative_net : Routers := parsed ["A"; "B"] [("A", "B", -2)].

(** ** __str__: the lines of the routing table (lines 46-57) *)

(** [cost] in the format of line 57, for an int or for [math.inf]: CPython
    3.11 raises ValueError when it has to write an int of more than 4300
    digits. *)
Definition str_num (n : num) : result string :=
  match n with
  | Int z =>
      if Z.abs z <? 10 ^ Z.of_nat max_str_digits then Ok (pretty.pretty z)
      else Raise ValueError
  | Inf => Ok "inf"
  end.

Fixpoint spaces (n : nat) : string :=
  match n with
  | O => ""
  | S n' => " " +:+ spaces n'
  end.

(** The format [:<10]: left-aligned, filled with spaces to the width, never
    cut. *)
Definition ljust (width : nat) (s : string) : string :=
  s +:+ spaces (width - String.length s).

(** Lines 52-57 for one key. *)
Definition str_row (r : Router) (router_name : string) : result string :=
  c ← str_num (cost (tget (rtable r) router_name));
  Ok ("   " +:+ (if changed_mark r router_name then "*" else " ") +:+
      router_name +:+ ": " +:+ ljust 10 c +:+
      " via: " +:+ hop (tget (rtable r) router_name)).

(** A [for] loop that appends what its body returns. *)
Fixpoint forM {A B : Type} (f : A → result B) (l : list A) : result (list B) :=
  match l with
  | [] => Ok []
  | x :: l' => y ← f x; ys ← forM f l'; Ok (y :: ys)
  end.

(** Lines 46-57: reading the table under every router stores the default
    where a key is missing; the stored keys are then listed in ascending
    order. *)
Definition str_rows (universe : list string) (r : Router) : result (list string) :=
  let t := fold_left touch universe (rtable r) in
  forM (str_row r) (sorting.merge_sort String.le (map_to_list t).*1).

(** A table stores keys of [routers] only. *)
Definition stores_routers (rs : Routers) : Prop :=
  ∀ n r k, store rs !! n = Some r → is_Some (rtable r !! k) → is_Some (store rs !! k).

(** The cost can be written by line 57. *)
Definition printable (n : num) : Prop :=
  match n with
  | Int z => Z.abs z < 10 ^ Z.of_nat max_str_digits
  | Inf => True
  end.

#[global] Instance printable_dec n : Decision (printable n).
Proof. destruct n; simpl; apply _. Defined.

(** ** What the file says *)

(** The names of the second line. *)
Definition file_names (lines : list string) : list string :=
  split (default EmptyString (lines !! 1%nat)).

(** The lines the loop of line 86 iterates: those after the second, without
    the last one when it contains "EOF" (line 83). *)
Definition edge_lines (lines : list string) : list string :=
  let lines := drop 2 lines in
  if contains "EOF" (default EmptyString (list.last lines)) then removelast lines else lines.

(** The edge of a line that lines 88-90 can read. *)
Definition edge_of (line : string) : option edge :=
  match read_edge line with
  | Ok e => Some e
  | Raise _ => None
  end.

(** The edges of these lines, a line that cannot be read giving none. *)
Definition file_edges (lines : list string) : list edge :=
  omap edge_of (edge_lines lines).

(** An edge line [input_parser] gets through: three fields, the third an
    integer, the first two different routers of the second line. *)
Definition line_ok (routerNames : list string) (line : string) : Prop :=
  match read_edge line with
  | Ok e => edge_ok routerNames e
  | Raise _ => False
  end.

#[global] Instance line_ok_dec routerNames line : Decision (line_ok routerNames line).
Proof. unfold line_ok. destruct (read_edge line); apply _. Defined.

(** [int()] accepts the text. *)
Definition reads_int (s : string) : Prop :=
  match py_int s with
  | Ok _ => True
  | Raise _ => False
  end.

#[global] Instance reads_int_dec s : Decision (reads_int s).
Proof. unfold reads_int. destruct (py_int s); apply _. Defined.

(** A file [input_parser] gets through: an integer on the first line, the
    names on the second, at least one line more, and edge lines as above. *)
Definition file_ok (lines : list string) : Prop :=
  match lines with
  | l0 :: _ :: _ :: _ =>
      reads_int l0 ∧ Forall (line_ok (file_names lines)) (edge_lines lines)
  | _ => False
  end.

#[global] Instance file_ok_dec lines : Decision (file_ok lines).
Proof. unfold file_ok. destruct lines as [|? [|? [|? ?]]]; apply _. Defined.

(** ** The threads inside add_to_queue *)

(** A thread inside [add_to_queue]: the name of its router and the
    neighbours it has still to send to. *)
Definition sender : Type := string * list string.

(** The threads of one iteration when they enter [add_to_queue]. *)
Definition senders (rs : Routers) : list sender :=
  (λ s, (s, neighbours (router_of rs s))) <$> keys rs.

(** The sends of the threads in any interleaving.  The lock of line 156
    makes each append one step; a thread whose step raises ends there, its
    name and the exception being recorded.  [sending rs pool rs' died]: from
    [rs] with the threads [pool], the threads can run [add_to_queue] to its
    end (or to their death), leaving [rs']. *)
Inductive sending : Routers → list sender → Routers → list (string * exn) → Prop :=
  | sending_done rs pool :
      Forall (λ t : sender, t.2 = []) pool → sending rs pool rs []
  | sending_append rs p1 s nhbr rest p2 rs1 rs' died :
      send s rs nhbr = Ok rs1 →
      sending rs1 (p1 ++ (s, rest) :: p2) rs' died →
      sending rs (p1 ++ (s, nhbr :: rest) :: p2) rs' died
  | sending_raise rs p1 s nhbr rest p2 e rs' died :
      send s rs nhbr = Raise e →
      sending rs (p1 ++ (s, []) :: p2) rs' died →
      sending rs (p1 ++ (s, nhbr :: rest) :: p2) rs' ((s, e) :: died).

(** The messages the threads of [pool] have still to append to the queue of
    [n], the tables being those of [rs]. *)
Definition pending (rs : Routers) (n : string) (pool : list sender) : list (table * string) :=
  flat_map (λ t : sender, (λ _, msg_of rs t.1) <$> filter (λ y, y = n) t.2) pool.

(** Every thread of the pool has a router in [rs], and so has every
    neighbour it has still to send to. *)
Definition runnable (rs : Routers) (pool : list sender) : Prop :=
  Forall (λ t : sender, is_Some (store rs !! t.1) ∧
                        Forall (λ m, is_Some (store rs !! m)) t.2) pool.

(** ** The script (lines 173-193) *)



(** ** Example files *)

Definition nl : string := String (Ascii.ascii_of_nat 10) EmptyString.

(** The file of [line_net]. *)
Definition line_file : list string :=
  ["3" +:+ nl; "A B C" +:+ nl; "A B 1" +:+ nl; "B C 1" +:+ nl; "EOF" +:+ nl].

(** 2^1024 as a file holds it. *)
Definition huge_cost : string := Eval vm_compute in pretty.pretty (2 ^ 1024).

(** The file of [huge_net]. *)
Definition huge_file : list string :=
  ["3" +:+ nl; "A B C" +:+ nl; "A B " +:+ huge_cost +:+ nl; "EOF" +:+ nl].

(** X reaches W through Z; its link to Y costs more than a double can
    hold. *)
Definition overflow_file : list string :=
  ["4" +:+ nl; "X Y Z W" +:+ nl; "X Y " +:+ huge_cost +:+ nl; "X Z 1" +:+ nl;
   "Z W 1" +:+ nl; "EOF" +:+ nl].

Definition overflow_net : Routers :=
  parsed ["X"; "Y"; "Z"; "W"] [("X", "Y", 2 ^ 1024); ("X", "Z", 1); ("Z", "W", 1)].

(** * Properties *)

(** ** Loops *)

(** An invariant of the loop body is an invariant of the loop. *)
Lemma foldM_inv {A B : Type} (P : B → Prop) (f : B → A → result B) (l : list A) :
  (∀ b x b', x ∈ l → P b → f b x = Ok b' → P b') →
  ∀ b b', P b → foldM f l b = Ok b' → P b'.
Proof.
  induction l as [|x l IH]; intros Hstep b b' Hb Hrun; simpl in Hrun.
  - by inversion Hrun; subst.
  - destruct (f b x) as [b1|e] eqn:Hf; simpl in Hrun; [|done].
    apply (IH (λ b0 y b0' Hy, Hstep b0 y b0' (list_elem_of_further _ _ _ Hy)) b1);
      [|done].
    eapply Hstep; [apply list_elem_of_here|done..].
Qed.

(** ** Numbers *)

Lemma num_le_refl a : num_le a a.
Proof. destruct a; simpl; [lia|done]. Qed.

Lemma num_le_trans a b c : num_le a b → num_le b c → num_le a c.
Proof. destruct a, b, c; simpl; try done; lia. Qed.

Lemma num_lt_le a b : num_lt a b = true → num_le a b.
Proof. destruct a, b; simpl; try done; lia. Qed.

Lemma num_lt_irrefl a : num_lt a a = false.
Proof. destruct a; simpl; [lia|done]. Qed.

Lemma nmin_le a b : num_le (nmin a b) a.
Proof.
  unfold nmin. destruct (num_lt b a) eqn:H; [by apply num_lt_le|apply num_le_refl].
Qed.

Lemma nmin_swap c a b : nmin (nmin c a) b = nmin (nmin c b) a.
Proof.
  unfold nmin.
  destruct c as [c|], a as [a|], b as [b|]; simpl; try done;
    repeat (match goal with
            | |- context [?x <? ?y] => destruct (Z.ltb_spec x y); simpl
            end); try done; try lia; f_equal; lia.
Qed.

Lemma nmin_idem c a : nmin (nmin c a) a = nmin c a.
Proof.
  unfold nmin. destruct (num_lt a c) eqn:H; [by rewrite num_lt_irrefl|by rewrite H].
Qed.

(** ** Tables *)

Lemma tget_insert_eq (t : table) k e : tget (<[k := e]> t) k = e.
Proof. unfold tget. by rewrite lookup_insert_eq. Qed.

Lemma tget_insert_ne (t : table) k k' e : k ≠ k' → tget (<[k := e]> t) k' = tget t k'.
Proof. intros. unfold tget. by rewrite lookup_insert_ne. Qed.

Lemma tget_insert (t : table) k k' e :
  tget (<[k := e]> t) k' = if decide (k' = k) then e else tget t k'.
Proof.
  case_decide; subst; [apply tget_insert_eq|by apply tget_insert_ne].
Qed.

(** Reading a missing key stores the default, which reads as the missing
    key did. *)
Lemma tget_touch (t : table) k k' : tget (touch t k) k' = tget t k'.
Proof.
  unfold touch. destruct (t !! k) eqn:Hk; [done|].
  rewrite tget_insert. case_decide; subst; [|done].
  unfold tget. by rewrite Hk.
Qed.

(** ** The relaxation loops *)

(** Lines 133-137 in one piece. *)
Lemma relax_entry_unfold own tbl nm (tc : table) d :
  relax_entry own tbl nm tc d =
  match cand own (tbl, nm) d with
  | Raise e => Raise e
  | Ok val =>
      if num_lt val (cost (tget tc d)) then
        match kind (tget tc d) with
        | PyTuple => Raise TypeError
        | PyList => Ok (<[d := Entry PyList val (hop (tget tc nm))]> tc)
        end
      else Ok tc
  end.
Proof.
  unfold relax_entry, cand; simpl.
  destruct (num_add _ _) as [val|e]; simpl; [|done].
  destruct (num_lt _ _); [|done].
  unfold set_cost. destruct (kind (tget tc d)) eqn:Hk; simpl; [done|].
  unfold set_hop. rewrite tget_insert_eq; simpl.
  rewrite insert_insert_eq. do 3 f_equal.
  rewrite tget_insert. by case_decide; subst.
Qed.

Lemma same_frame_refl t : same_frame t t.
Proof. by intros k. Qed.

Lemma same_frame_trans t1 t2 t3 :
  same_frame t1 t2 → same_frame t2 t3 → same_frame t1 t3.
Proof.
  intros H12 H23 k. destruct (H12 k) as [Hk Ht], (H23 k) as [Hk' Ht'].
  split; [congruence|]. intros Htup.
  rewrite Ht' by congruence. by apply Ht.
Qed.

Lemma blocked_frame own t t' m d :
  same_frame t t' → blocked own t' m d = blocked own t m d.
Proof.
  intros Hf. unfold blocked. destruct (cand own m d) as [v|e]; [|done].
  destruct (Hf d) as [Hk Ht]. rewrite Hk.
  destruct (kind (tget t d)) eqn:Hkd; simpl.
  - by rewrite Ht.
  - by rewrite !andb_false_r.
Qed.

Lemma cmin_swap c r1 r2 : cmin (cmin c r1) r2 = cmin (cmin c r2) r1.
Proof. destruct r1, r2; simpl; try done. apply nmin_swap. Qed.

Lemma cmin_idem c r : cmin (cmin c r) r = cmin c r.
Proof. destruct r; simpl; [apply nmin_idem|done]. Qed.

Lemma cmin_le c r : num_le (cmin c r) c.
Proof. destruct r; simpl; [apply nmin_le|apply num_le_refl]. Qed.

Lemma relax_entry_blocked own tbl nm tc d :
  blocked own tc (tbl, nm) d = true → ∃ e, relax_entry own tbl nm tc d = Raise e.
Proof.
  rewrite relax_entry_unfold. unfold blocked.
  destruct (cand own (tbl, nm) d) as [v|e]; [|by eexists].
  intros [Hlt Hk%bool_decide_eq_true]%andb_true_iff.
  rewrite Hlt, Hk. by eexists.
Qed.

Lemma relax_entry_raise own tbl nm tc d e :
  relax_entry own tbl nm tc d = Raise e → blocked own tc (tbl, nm) d = true.
Proof.
  rewrite relax_entry_unfold. unfold blocked.
  destruct (cand own (tbl, nm) d) as [v|e']; [|done].
  destruct (num_lt _ _); [|done].
  destruct (kind (tget tc d)); by try done.
Qed.

(** What a step that does not raise leaves. *)
Lemma relax_entry_ok own tbl nm tc d tc' :
  relax_entry own tbl nm tc d = Ok tc' →
  blocked own tc (tbl, nm) d = false ∧
  same_frame tc tc' ∧
  (∀ k, tc' !! k = None → tc !! k = None) ∧
  (∀ k, k ≠ d → tget tc' k = tget tc k) ∧
  cost (tget tc' d) = cmin (cost (tget tc d)) (cand own (tbl, nm) d) ∧
  (tget tc' d = tget tc d ∨
   ∃ val, cand own (tbl, nm) d = Ok val ∧
          num_lt val (cost (tget tc d)) = true ∧
          tget tc' d = Entry PyList val (hop (tget tc nm))).
Proof.
  rewrite relax_entry_unfold. unfold blocked.
  destruct (cand own (tbl, nm) d) as [v|e]; [|done]. simpl. unfold nmin.
  destruct (num_lt v (cost (tget tc d))) eqn:Hlt.
  - destruct (kind (tget tc d)) eqn:Hk; [done|].
    intros [= <-]. split; [done|]. split; [|split; [|split; [|split]]].
    + intros k. rewrite tget_insert. case_decide; subst; [|done].
      simpl. by rewrite Hk.
    + intros k Hn. destruct (decide (k = d)) as [->|Hne].
      * by rewrite lookup_insert_eq in Hn.
      * by rewrite lookup_insert_ne in Hn.
    + intros k Hne. by rewrite tget_insert_ne.
    + by rewrite tget_insert_eq.
    + right. exists v. by rewrite tget_insert_eq.
  - intros [= <-]. split; [done|]. split; [apply same_frame_refl|].
    repeat split; try done. by left.
Qed.

Lemma blocked_msg_frame own universe t t' m :
  same_frame t t' → blocked_msg own universe t' m = blocked_msg own universe t m.
Proof.
  intros Hf. unfold blocked_msg.
  induction universe as [|d l IH]; simpl; [done|].
  by rewrite IH, (blocked_frame own t t').
Qed.

Lemma blocked_queue_frame own universe t t' q :
  same_frame t t' → blocked_queue own universe t' q = blocked_queue own universe t q.
Proof.
  intros Hf. unfold blocked_queue.
  induction q as [|m l IH]; simpl; [done|].
  by rewrite IH, (blocked_msg_frame own universe t t').
Qed.

(** One message: the sweep raises exactly when one of its steps would on
    the table it starts from, and otherwise leaves under each router of the
    universe the smaller of the old cost and the candidate. *)
Lemma relax_msg_spec own universe tc m :
  if blocked_msg own universe tc m
  then ∃ e, relax_msg own universe tc m = Raise e
  else ∃ tc', relax_msg own universe tc m = Ok tc' ∧
         same_frame tc tc' ∧
         (∀ k, tc' !! k = None → tc !! k = None) ∧
         ∀ k, cost (tget tc' k) =
              if decide (k ∈ universe)
              then cmin (cost (tget tc k)) (cand own m k)
              else cost (tget tc k).
Proof.
  destruct m as [tbl nm]. unfold relax_msg, blocked_msg; simpl.
  revert tc. induction universe as [|d l IH]; intros tc; simpl.
  - exists tc. split; [done|]. split; [apply same_frame_refl|].
    split; [done|]. intros k. destruct (decide (k ∈ [])) as [Hin|]; [|done].
    by apply elem_of_nil in Hin.
  - destruct (relax_entry own tbl nm tc d) as [tc1|e] eqn:Hstep; simpl.
    + apply relax_entry_ok in Hstep as (Hb & Hf & Hdom & Hoth & Hcost & _).
      rewrite Hb; simpl. specialize (IH tc1).
      change (existsb (blocked own tc (tbl, nm)) l)
        with (blocked_msg own l tc (tbl, nm)).
      rewrite <-(blocked_msg_frame own l tc tc1) by done.
      unfold blocked_msg.
      destruct (existsb (blocked own tc1 (tbl, nm)) l); [done|].
      destruct IH as (tc' & Hrun & Hf' & Hdom' & Hc').
      exists tc'. split; [done|]. split; [by eapply same_frame_trans|].
      split; [by auto|]. intros k. rewrite Hc'.
      destruct (decide (k = d)) as [->|Hne].
      * rewrite Hcost. rewrite (decide_True _ _ (list_elem_of_here d l)).
        case_decide; [apply cmin_idem|done].
      * rewrite (Hoth k Hne).
        destruct (decide (k ∈ l)) as [Hin|Hnin].
        -- by rewrite decide_True by by apply list_elem_of_further.
        -- rewrite decide_False; [done|].
           by intros [?|?]%elem_of_cons.
    + apply relax_entry_raise in Hstep. rewrite Hstep; simpl. by eexists.
Qed.

Lemma best_le own q k c : num_le (best own q k c) c.
Proof.
  unfold best. revert c. induction q as [|m q IH]; intros c; simpl.
  - apply num_le_refl.
  - eapply num_le_trans; [apply IH|apply cmin_le].
Qed.

(** The whole queue. *)
Lemma relax_queue_spec own universe q tc :
  if blocked_queue own universe tc q
  then ∃ e, relax_queue own universe q tc = Raise e
  else ∃ tc', relax_queue own universe q tc = Ok tc' ∧
         same_frame tc tc' ∧
         (∀ k, tc' !! k = None → tc !! k = None) ∧
         ∀ k, cost (tget tc' k) =
              if decide (k ∈ universe)
              then best own q k (cost (tget tc k))
              else cost (tget tc k).
Proof.
  unfold relax_queue, blocked_queue. revert tc.
  induction q as [|m q IH]; intros tc; simpl.
  - exists tc. split; [done|]. split; [apply same_frame_refl|].
    split; [done|]. intros k. by case_decide.
  - pose proof (relax_msg_spec own universe tc m) as Hm.
    destruct (blocked_msg own universe tc m); simpl.
    + destruct Hm as [e ->]. by exists e.
    + destruct Hm as (tc1 & -> & Hf & Hdom & Hc); simpl.
      specialize (IH tc1).
      change (existsb (blocked_msg own universe tc) q)
        with (blocked_queue own universe tc q).
      rewrite <-(blocked_queue_frame own universe tc tc1) by done.
      unfold blocked_queue.
      destruct (existsb (blocked_msg own universe tc1) q); [done|].
      destruct IH as (tc' & Hrun & Hf' & Hdom' & Hc').
      exists tc'. split; [done|]. split; [by eapply same_frame_trans|].
      split; [by auto|]. intros k. rewrite Hc', Hc.
      by case_decide.
Qed.

(** ** Writing the table back (lines 140-143) *)

Lemma commit_item_spec its (t : table) (a : gmap string nat) k v :
  let st := commit_item its (t, a) (k, v) in
  tget st.1 k = v ∧
  st.2 !! k = (if decide (tget t k = v) then a !! k else Some its) ∧
  (∀ k', k' ≠ k → tget st.1 k' = tget t k' ∧ st.2 !! k' = a !! k') ∧
  (∀ k', st.1 !! k' = None → t !! k' = None).
Proof.
  unfold commit_item, entry_ne; simpl.
  destruct (decide (tget t k = v)) as [Heq|Hne].
  - rewrite bool_decide_eq_false_2 by by intros ?. by simpl.
  - rewrite bool_decide_eq_true_2 by done. simpl.
    rewrite tget_insert_eq, lookup_insert_eq.
    repeat split; try done.
    + by apply tget_insert_ne.
    + by rewrite lookup_insert_ne.
    + intros k' Hk'. destruct (decide (k = k')) as [->|Hd].
      * by rewrite lookup_insert_eq in Hk'.
      * by rewrite lookup_insert_ne in Hk'.
Qed.

Lemma commit_list_spec its (l : list (string * entry)) :
  NoDup l.*1 →
  ∀ (t : table) (a : gmap string nat),
    let st := fold_left (commit_item its) l (t, a) in
    ∀ k, (∀ v, (k, v) ∈ l →
            tget st.1 k = v ∧
            st.2 !! k = if decide (tget t k = v) then a !! k else Some its) ∧
         (k ∉ l.*1 → tget st.1 k = tget t k ∧ st.2 !! k = a !! k).
Proof.
  induction l as [|[k0 v0] l IH]; intros Hnd t a; simpl.
  - intros k. split; [|done]. intros v Hin. by apply elem_of_nil in Hin.
  - rewrite fmap_cons in Hnd. simpl in Hnd.
    pose proof (NoDup_cons_1_1 _ _ Hnd) as Hk0.
    apply NoDup_cons_1_2 in Hnd.
    destruct (commit_item its (t, a) (k0, v0)) as [t1 a1] eqn:Hitem.
    pose proof (commit_item_spec its t a k0 v0) as (H1 & H2 & H3 & _).
    rewrite Hitem in H1, H2, H3; simpl in H1, H2, H3.
    intros k. destruct (IH Hnd t1 a1 k) as [IHin IHout]. split.
    + intros v [Heq|Hin]%elem_of_cons.
      * inversion Heq; subst. destruct (IHout Hk0) as [-> ->]. done.
      * assert (k ≠ k0) as Hne.
        { intros ->. apply Hk0. apply list_elem_of_fmap. by exists (k0, v). }
        destruct (IHin v Hin) as [-> ->]. destruct (H3 k Hne) as [-> ->]. done.
    + intros Hout. apply not_elem_of_cons in Hout as [Hne Hout].
      destruct (IHout Hout) as [-> ->]. by apply H3.
Qed.

(** After the loop of line 140 the router's table reads as [table_copy],
    and [appended_at] is written under the keys whose value differs. *)
Lemma commit_spec its (own : table) (app : gmap string nat) (tc : table) :
  (∀ k, tc !! k = None → own !! k = None) →
  ∀ k, tget (commit its own app tc).1 k = tget tc k ∧
       (commit its own app tc).2 !! k =
         if decide (tget own k = tget tc k) then app !! k else Some its.
Proof.
  intros Hdom k. unfold commit.
  pose proof (commit_list_spec its (map_to_list tc)
                (NoDup_fst_map_to_list tc) own app k) as [Hin Hout].
  destruct (tc !! k) as [v|] eqn:Hk.
  - assert (tget tc k = v) as -> by (unfold tget; by rewrite Hk).
    apply Hin. by apply elem_of_map_to_list.
  - assert (k ∉ (map_to_list tc).*1) as Hnot.
    { intros ([k' v'] & -> & Hin')%list_elem_of_fmap.
      apply elem_of_map_to_list in Hin'. simpl in Hk. congruence. }
    destruct (Hout Hnot) as [-> ->].
    assert (tget own k = tget tc k) as Heq.
    { unfold tget. by rewrite Hk, (Hdom k Hk). }
    by rewrite decide_True.
Qed.

(** When no value differs, the loop writes nothing. *)
Lemma commit_nothing its (own : table) (app : gmap string nat) (tc : table) :
  (∀ k, tget own k = tget tc k) → commit its own app tc = (own, app).
Proof.
  intros Heq. unfold commit.
  assert (∀ kv, kv ∈ map_to_list tc → tget own kv.1 = kv.2) as Hall.
  { intros [k v] Hin%elem_of_map_to_list. simpl. rewrite Heq.
    unfold tget. by rewrite Hin. }
  induction (map_to_list tc) as [|kv l IH]; simpl; [done|].
  unfold commit_item at 2, entry_ne; simpl.
  rewrite bool_decide_eq_false_2.
  - apply IH. intros kv' Hin. apply Hall. by apply list_elem_of_further.
  - intros Hne. apply Hne, Hall, list_elem_of_here.
Qed.

(** ** One run of a thread *)

Lemma threaded_died universe r e :
  relax_queue (rtable r) universe (queue r) (rtable r) = Raise e →
  threaded universe r = Died e (set_iterations r (S (iterations r))).
Proof. intros Hrun. unfold threaded; simpl. by rewrite Hrun. Qed.

Lemma threaded_done universe r tc :
  relax_queue (rtable r) universe (queue r) (rtable r) = Ok tc →
  ∃ r', threaded universe r = Done r' ∧
        name r' = name r ∧ neighbours r' = neighbours r ∧
        queue r' = [] ∧ iterations r' = S (iterations r) ∧
        rtable r' = (commit (S (iterations r)) (rtable r) (appended_at r) tc).1 ∧
        appended_at r' = (commit (S (iterations r)) (rtable r) (appended_at r) tc).2.
Proof.
  intros Hrun. unfold threaded; simpl. rewrite Hrun.
  destruct (commit _ _ _ _) as [t a]. eexists. by split.
Qed.

(** A thread dies exactly when a step of its relaxation raises; otherwise
    it ends with [table_copy] written back. *)
Lemma threaded_cases universe r :
  if blocked_queue (rtable r) universe (rtable r) (queue r)
  then ∃ e, threaded universe r = Died e (set_iterations r (S (iterations r)))
  else ∃ tc r',
        relax_queue (rtable r) universe (queue r) (rtable r) = Ok tc ∧
        threaded universe r = Done r' ∧
        same_frame (rtable r) tc ∧
        (∀ k, cost (tget tc k) =
              if decide (k ∈ universe)
              then best (rtable r) (queue r) k (cost (tget (rtable r) k))
              else cost (tget (rtable r) k)) ∧
        name r' = name r ∧ neighbours r' = neighbours r ∧
        queue r' = [] ∧ iterations r' = S (iterations r) ∧
        ∀ k, tget (rtable r') k = tget tc k ∧
             appended_at r' !! k =
               if decide (tget (rtable r) k = tget tc k)
               then appended_at r !! k else Some (S (iterations r)).
Proof.
  pose proof (relax_queue_spec (rtable r) universe (queue r) (rtable r)) as Hs.
  destruct (blocked_queue _ _ _ _).
  - destruct Hs as [e He]. exists e. by apply threaded_died.
  - destruct Hs as (tc & Hrun & Hf & Hdom & Hc).
    destruct (threaded_done universe r tc Hrun)
      as (r' & Hth & Hn & Hnb & Hq & Hit & Ht & Ha).
    exists tc, r'. repeat (split; [done|]).
    intros k. rewrite Ht, Ha. by apply commit_spec.
Qed.

(** The table after a thread, whichever way it ended, costs no more under
    any key than the table before. *)
Lemma threaded_cost_le universe r k :
  num_le (cost (tget (rtable (final (threaded universe r))) k))
         (cost (tget (rtable r) k)).
Proof.
  pose proof (threaded_cases universe r) as Hc.
  destruct (blocked_queue _ _ _ _).
  - destruct Hc as [e ->]. simpl. apply num_le_refl.
  - destruct Hc as (tc & r' & _ & -> & _ & Hcost & _ & _ & _ & _ & Ht).
    simpl. destruct (Ht k) as [-> _]. rewrite Hcost.
    case_decide; [apply best_le|apply num_le_refl].
Qed.

(** ** The order of the queue *)

Lemma best_perm own q1 q2 k :
  q1 ≡ₚ q2 → ∀ c, best own q1 k c = best own q2 k c.
Proof.
  unfold best. induction 1 as [|m q1 q2 _ IH|m1 m2 q|q1 q2 q3 _ IH1 _ IH2];
    intros c; simpl.
  - done.
  - apply IH.
  - by rewrite cmin_swap.
  - by rewrite IH1.
Qed.

Lemma blocked_queue_perm own universe tc q1 q2 :
  q1 ≡ₚ q2 → blocked_queue own universe tc q1 = blocked_queue own universe tc q2.
Proof.
  unfold blocked_queue.
  induction 1 as [|m q1 q2 _ IH|m1 m2 q|q1 q2 q3 _ IH1 _ IH2]; simpl.
  - done.
  - by rewrite IH.
  - by rewrite !orb_assoc, (orb_comm (blocked_msg own universe tc m1)).
  - by rewrite IH1.
Qed.

(** ** The claims about one thread *)

(** C6, as amended: the costs of the table a thread leaves, and whether
    the thread ends normally, do not depend on the order of the messages in
    its queue, and a candidate equal to the current cost changes nothing.
    The next hops do depend on the order. *)
Theorem queue_order_keeps_costs universe r q1 q2 :
  q1 ≡ₚ q2 →
  (∀ k, cost (tget (rtable (final (threaded universe (set_queue r q1)))) k) =
        cost (tget (rtable (final (threaded universe (set_queue r q2)))) k)) ∧
  ((∃ r1, threaded universe (set_queue r q1) = Done r1) ↔
   (∃ r2, threaded universe (set_queue r q2) = Done r2)) ∧
  (∀ tbl nm tc d,
      cand (rtable r) (tbl, nm) d = Ok (cost (tget tc d)) →
      relax_entry (rtable r) tbl nm tc d = Ok tc).
Proof.
  intros Hperm. split; [|split].
  - intros k.
    pose proof (threaded_cases universe (set_queue r q1)) as H1.
    pose proof (threaded_cases universe (set_queue r q2)) as H2.
    simpl in H1, H2.
    rewrite (blocked_queue_perm _ _ _ _ _ Hperm) in H1.
    destruct (blocked_queue (rtable r) universe (rtable r) q2).
    + destruct H1 as [e1 ->], H2 as [e2 ->]. done.
    + destruct H1 as (tc1 & r1 & _ & -> & _ & Hc1 & _ & _ & _ & _ & Ht1).
      destruct H2 as (tc2 & r2 & _ & -> & _ & Hc2 & _ & _ & _ & _ & Ht2).
      simpl. destruct (Ht1 k) as [-> _], (Ht2 k) as [-> _].
      rewrite Hc1, Hc2. case_decide; [|done].
      by apply best_perm.
  - pose proof (threaded_cases universe (set_queue r q1)) as H1.
    pose proof (threaded_cases universe (set_queue r q2)) as H2.
    simpl in H1, H2.
    rewrite (blocked_queue_perm _ _ _ _ _ Hperm) in H1.
    destruct (blocked_queue (rtable r) universe (rtable r) q2).
    + destruct H1 as [e1 ->], H2 as [e2 ->]. split; by intros [? ?].
    + destruct H1 as (tc1 & r1 & _ & -> & _), H2 as (tc2 & r2 & _ & -> & _).
      split; intros _; by eexists.
  - intros tbl nm tc d Hcand. rewrite relax_entry_unfold, Hcand.
    by rewrite num_lt_irrefl.
Qed.

Lemma queue_order_keeps_costs_witness :
  cost (tget (rtable (final (threaded (keys diamond_net)
      (set_queue (router_of diamond_net "N")
                 [msg_of diamond_net "X"; msg_of diamond_net "Y"])))) "Z") =
  cost (tget (rtable (final (threaded (keys diamond_net)
      (set_queue (router_of diamond_net "N")
                 [msg_of diamond_net "Y"; msg_of diamond_net "X"])))) "Z").
Proof.
  apply (proj1 (queue_order_keeps_costs (keys diamond_net)
                  (router_of diamond_net "N")
                  [msg_of diamond_net "X"; msg_of diamond_net "Y"]
                  [msg_of diamond_net "Y"; msg_of diamond_net "X"]
                  (perm_swap _ _ _)) "Z").
Defined.

(** C6 as stated fails: with the two messages of N's queue swapped, N's
    next hop to Z is X in one order and Y in the other. *)
Lemma queue_order_changes_next_hop :
  ¬ (∀ universe r q1 q2, q1 ≡ₚ q2 →
       ∀ k, tget (rtable (final (threaded universe (set_queue r q1)))) k =
            tget (rtable (final (threaded universe (set_queue r q2)))) k).
Proof.
  intros H.
  specialize (H (keys diamond_net) (router_of diamond_net "N")
                [msg_of diamond_net "X"; msg_of diamond_net "Y"]
                [msg_of diamond_net "Y"; msg_of diamond_net "X"]
                (perm_swap _ _ _) "Z").
  vm_compute in H. discriminate H.
Qed.

(** C7: once the relaxation has computed [table_copy], the thread ends with
    the router's table reading as [table_copy], [appended_at] set to the
    incremented iteration count under exactly the destinations whose cost or
    next hop changed, the iteration count one higher and the queue empty. *)
Theorem threaded_applies_round universe r tc :
  relax_queue (rtable r) universe (queue r) (rtable r) = Ok tc →
  ∃ r', threaded universe r = Done r' ∧
        (∀ d, tget (rtable r') d = tget tc d) ∧
        (∀ d, appended_at r' !! d =
              if decide (view (rtable r) d = view tc d)
              then appended_at r !! d
              else Some (S (iterations r))) ∧
        iterations r' = S (iterations r) ∧
        queue r' = [].
Proof.
  intros Hrun.
  pose proof (threaded_cases universe r) as Hc.
  pose proof (relax_queue_spec (rtable r) universe (queue r) (rtable r)) as Hs.
  destruct (blocked_queue _ _ _ _).
  { destruct Hs as [e He]. congruence. }
  destruct Hc as (tc' & r' & Hrun' & Hth & Hf & _ & _ & _ & Hq & Hit & Ht).
  assert (tc' = tc) as -> by congruence.
  exists r'. split; [done|]. split; [intros d; apply Ht|].
  split; [|done]. intros d. destruct (Ht d) as [_ ->].
  destruct (Hf d) as [Hk _]. unfold view.
  destruct (tget (rtable r) d) as [k1 c1 h1], (tget tc d) as [k2 c2 h2].
  simpl in *. subst k2.
  destruct (decide (Entry k1 c1 h1 = Entry k1 c2 h2)) as [Heq|Hne].
  - inversion Heq; subst. by rewrite decide_True.
  - rewrite decide_False; [done|]. intros [= -> ->]. done.
Qed.

Lemma threaded_applies_round_witness :
  ∃ r', threaded (keys line_net) (set_queue (router_of line_net "A")
                                            [msg_of line_net "B"]) = Done r' ∧
        view (rtable r') "C" = (Int 2, "B") ∧
        appended_at r' !! "C" = Some 1%nat ∧
        appended_at r' !! "B" = None ∧
        iterations r' = 1%nat ∧ queue r' = [].
Proof.
  destruct (threaded_applies_round (keys line_net)
              (set_queue (router_of line_net "A") [msg_of line_net "B"])
              (<["C" := Entry PyList (Int 2) "B"]> (rtable (router_of line_net "A"))))
    as (r' & Hth & Ht & Ha & Hit & Hq).
  { vm_compute. reflexivity. }
  exists r'. split; [done|]. unfold view. rewrite (Ht "C"), (Ha "C"), (Ha "B").
  repeat split; done.
Defined.

Lemma set_queue_set_iterations r n :
  set_queue (set_iterations r n) (queue r) = set_iterations r n.
Proof. by destruct r. Qed.

(** C9: when a thread leaves the router's table as it found it, running it
    again on the same queue leaves the same table and writes nothing in
    [appended_at]. *)
Theorem relaxation_idempotent_at_fixed_point universe r :
  rtable (final (threaded universe r)) = rtable r →
  rtable (final (threaded universe
            (set_queue (final (threaded universe r)) (queue r)))) =
    rtable (final (threaded universe r)) ∧
  appended_at (final (threaded universe
            (set_queue (final (threaded universe r)) (queue r)))) =
    appended_at (final (threaded universe r)).
Proof.
  pose proof (threaded_cases universe r) as Hc.
  destruct (blocked_queue (rtable r) universe (rtable r) (queue r)) eqn:Hb.
  - destruct Hc as [e ->]. simpl. intros _.
    rewrite set_queue_set_iterations.
    pose proof (threaded_cases universe (set_iterations r (S (iterations r)))) as Hc.
    simpl in Hc. rewrite Hb in Hc. destruct Hc as [e' ->]. done.
  - destruct Hc as (tc & r' & Hrun & -> & _ & _ & _ & _ & _ & _ & Ht).
    simpl. intros Hsame.
    assert (∀ k, tget (rtable r') k = tget tc k) as Htc by (intros k; apply Ht).
    destruct (threaded_done universe (set_queue r' (queue r)) tc)
      as (r2 & -> & _ & _ & _ & _ & Ht2 & Ha2).
    { simpl. by rewrite Hsame. }
    simpl in *. rewrite Ht2, Ha2.
    by rewrite commit_nothing.
Qed.

Lemma relaxation_idempotent_at_fixed_point_witness :
  rtable (final (threaded (keys line_net)
      (set_queue (final (threaded (keys line_net)
                    (set_queue (router_of line_net "B")
                               [msg_of line_net "A"; msg_of line_net "C"])))
                 [msg_of line_net "A"; msg_of line_net "C"]))) =
    rtable (router_of line_net "B").
Proof.
  pose proof (relaxation_idempotent_at_fixed_point (keys line_net)
                (set_queue (router_of line_net "B")
                           [msg_of line_net "A"; msg_of line_net "C"])) as H.
  simpl queue in H. destruct H as [H _].
  { vm_compute. reflexivity. }
  rewrite H. vm_compute. reflexivity.
Defined.

(** ** Tables on which the relaxation cannot raise; refinement *)

Lemma table_safe_tget t k : table_safe t = true → entry_safe (tget t k) = true.
Proof.
  unfold table_safe. rewrite forallb_forall. intros H. unfold tget.
  destruct (t !! k) as [e|] eqn:Hk; simpl; [|done].
  apply (H (k, e)). apply list_elem_of_In. by apply elem_of_map_to_list.
Qed.

Lemma num_add_spec a b v : num_add a b = Ok v → v = Spec.add a b.
Proof.
  destruct a as [x|], b as [y|]; simpl.
  - by intros [= <-].
  - destruct (fits_double x); [by intros [= <-]|done].
  - destruct (fits_double y); [by intros [= <-]|done].
  - by intros [= <-].
Qed.

Lemma num_add_safe a b :
  num_safe a = true → num_safe b = true →
  num_add a b = Ok (Spec.add a b) ∧ num_lt (Spec.add a b) (Int 0) = false.
Proof.
  destruct a as [x|], b as [y|]; simpl; intros Ha Hb;
    repeat match goal with
           | H : _ && _ = true |- _ => apply andb_true_iff in H as [? ?]
           end.
  - split; [done|]. apply Z.ltb_ge. lia.
  - by rewrite H0.
  - by rewrite H0.
  - done.
Qed.

Lemma safe_not_blocked own tc m d :
  table_safe own = true → table_safe m.1 = true → table_safe tc = true →
  blocked own tc m d = false.
Proof.
  intros Ho Hm Ht. unfold blocked, cand.
  pose proof (table_safe_tget m.1 d Hm) as [Hmd _]%andb_true_iff.
  pose proof (table_safe_tget own m.2 Ho) as [Hon _]%andb_true_iff.
  destruct (num_add_safe _ _ Hmd Hon) as [-> Hnn].
  pose proof (table_safe_tget tc d Ht) as [_ Hk]%andb_true_iff.
  destruct (kind (tget tc d)); simpl; [|apply andb_false_r].
  apply bool_decide_eq_true in Hk. by rewrite Hk, Hnn.
Qed.

Lemma safe_not_blocked_msg own universe tc m :
  table_safe own = true → table_safe m.1 = true → table_safe tc = true →
  blocked_msg own universe tc m = false.
Proof.
  intros Ho Hm Ht. unfold blocked_msg.
  induction universe as [|d l IHl]; simpl; [done|].
  rewrite IHl, orb_false_r. by apply safe_not_blocked.
Qed.

Lemma safe_not_blocked_queue own universe q :
  table_safe own = true → queue_safe q = true →
  blocked_queue own universe own q = false.
Proof.
  intros Ho Hq. unfold blocked_queue.
  induction q as [|m q IH]; simpl; [done|].
  simpl in Hq. apply andb_true_iff in Hq as [Hm Hq].
  rewrite (IH Hq), orb_false_r. by apply safe_not_blocked_msg.
Qed.

(** The code's step and the specification's step agree while the code does
    not raise. *)
Lemma relax_entry_refines own tbl nm tc d tc' (T : Spec.Table) :
  (∀ k, view tc k = T k) →
  relax_entry own tbl nm tc d = Ok tc' →
  ∀ k, view tc' k = Spec.relax_dest (cost (tget own nm)) (view tbl) nm T d k.
Proof.
  intros HT. rewrite relax_entry_unfold. unfold cand, Spec.relax_dest; simpl.
  destruct (num_add _ _) as [val|e] eqn:Hadd; [|done].
  apply num_add_spec in Hadd as <-.
  rewrite <-(HT d); simpl.
  destruct (num_lt val (cost (tget tc d))); [|by intros [= <-]].
  destruct (kind (tget tc d)); [done|]. intros [= <-] k.
  unfold Spec.set, view. rewrite tget_insert.
  case_decide; [by rewrite <-(HT nm)|apply HT].
Qed.

Lemma relax_msg_refines own universe tc m tc' (T : Spec.Table) :
  (∀ k, view tc k = T k) →
  relax_msg own universe tc m = Ok tc' →
  ∀ k, view tc' k = Spec.relax_vector (view own) universe T (view_msg m) k.
Proof.
  unfold relax_msg, Spec.relax_vector; simpl.
  revert tc T. induction universe as [|d l IH]; intros tc T HT Hrun; simpl in *.
  - by inversion Hrun; subst.
  - destruct (relax_entry own m.1 m.2 tc d) as [tc1|e] eqn:Hstep; [|done].
    simpl in Hrun. eapply IH; [|done].
    by eapply relax_entry_refines.
Qed.

Lemma relax_queue_refines own universe q tc tc' (T : Spec.Table) :
  (∀ k, view tc k = T k) →
  relax_queue own universe q tc = Ok tc' →
  ∀ k, view tc' k =
       fold_left (Spec.relax_vector (view own) universe) (view_msg <$> q) T k.
Proof.
  unfold relax_queue.
  revert tc T. induction q as [|m q IH]; intros tc T HT Hrun; simpl in *.
  - by inversion Hrun; subst.
  - destruct (relax_msg own universe tc m) as [tc1|e] eqn:Hstep; [|done].
    simpl in Hrun. eapply IH; [|done].
    by eapply relax_msg_refines.
Qed.

(** ** input_parser *)

(** Lines 93-96 in one piece. *)
Lemma link_unfold rs src dest c :
  link rs src dest c =
  match store rs !! src with
  | None => Raise KeyError
  | Some r =>
      match kind (tget (rtable r) dest) with
      | PyTuple => Raise TypeError
      | PyList => Ok (update rs src (linked r dest c))
      end
  end.
Proof.
  unfold link, dict_get. destruct (store rs !! src) as [r|]; simpl; [|done].
  unfold set_cost. destruct (kind (tget (rtable r) dest)); simpl; [done|].
  unfold set_hop. rewrite tget_insert_eq; simpl.
  by rewrite insert_insert_eq.
Qed.

Lemma make_routers_lookup routerNames n :
  store (make_routers routerNames) !! n =
  if decide (n ∈ routerNames) then Some (new_router n) else None.
Proof.
  unfold make_routers.
  assert (∀ rs, store (fold_left (λ rs nm, dict_set rs nm (new_router nm))
                                 routerNames rs) !! n =
                if decide (n ∈ routerNames) then Some (new_router n)
                else store rs !! n) as Hgen.
  { induction routerNames as [|x l IH]; intros rs; cbn [fold_left].
    - rewrite decide_False; [done|]. apply not_elem_of_nil.
    - rewrite IH. destruct (decide (n ∈ l)) as [Hin|Hnin].
      + rewrite decide_True; [done|]. by apply list_elem_of_further.
      + destruct (decide (n = x)) as [->|Hne].
        * rewrite decide_True by apply list_elem_of_here.
          unfold dict_set; cbn [store]. by rewrite lookup_insert_eq.
        * rewrite decide_False by (by intros [?|?]%elem_of_cons).
          unfold dict_set; cbn [store]. by rewrite lookup_insert_ne. }
  rewrite Hgen. case_decide; [done|]. apply lookup_empty.
Qed.

Lemma table_ok_new n : table_ok n [] (rtable (new_router n)).
Proof.
  simpl. split; [apply tget_insert_eq|]. split; [|split].
  - intros k Hne. by rewrite tget_insert_ne.
  - intros m Hin. by apply elem_of_nil in Hin.
  - intros k Hne [z Hz]. by rewrite tget_insert_ne in Hz.
Qed.

Lemma net_ok_make_routers routerNames : net_ok routerNames (make_routers routerNames).
Proof.
  split; [|split].
  - intros n. rewrite make_routers_lookup.
    case_decide; split; try done; by intros [? ?].
  - intros n r. rewrite make_routers_lookup. case_decide; [|done].
    intros [= <-]. apply table_ok_new.
  - intros n r m. rewrite make_routers_lookup. case_decide; [|done].
    intros [= <-] Hin. by apply elem_of_nil in Hin.
Qed.

Lemma table_ok_linked n r dest c :
  dest ≠ n → table_ok n (neighbours r) (rtable r) →
  table_ok n (neighbours (linked r dest c)) (rtable (linked r dest c)).
Proof.
  intros Hd (Hself & Hkind & Hnb & Hhop). simpl.
  split; [by rewrite tget_insert_ne|]. split; [|split].
  - intros k Hk. rewrite tget_insert. case_decide; [done|by apply Hkind].
  - intros m Hm. rewrite tget_insert. case_decide as Hmd.
    + subst m. split; [done|by eexists].
    + apply elem_of_app in Hm as [Hm|Hm%list_elem_of_singleton]; [|done].
      by apply Hnb.
  - intros k Hk. rewrite tget_insert. case_decide as Hkd.
    + intros _. simpl. apply elem_of_app. right. apply list_elem_of_here.
    + intros Hint. apply elem_of_app. left. by apply Hhop.
Qed.

(** An edge is accepted exactly when its ends are two different declared
    routers. *)
Lemma parse_edge_ok routerNames rs src dest c rs' :
  net_ok routerNames rs →
  parse_edge rs (src, dest, c) = Ok rs' →
  ∃ r1 r2, src ≠ dest ∧ store rs !! src = Some r1 ∧ store rs !! dest = Some r2 ∧
           rs' = mkRouters (keys rs)
                   (<[dest := linked r2 src c]>
                      (<[src := linked r1 dest c]> (store rs))).
Proof.
  intros (_ & Htab & _). unfold parse_edge. rewrite link_unfold.
  destruct (store rs !! src) as [r1|] eqn:H1; [|done].
  destruct (kind (tget (rtable r1) dest)) eqn:Hk1; [done|]. simpl.
  assert (src ≠ dest) as Hne.
  { intros ->. destruct (Htab dest r1 H1) as (Hself & _).
    by rewrite Hself in Hk1. }
  rewrite link_unfold. simpl. rewrite lookup_insert_ne by done.
  destruct (store rs !! dest) as [r2|] eqn:H2; [|done].
  destruct (kind (tget (rtable r2) src)); [done|].
  intros [= <-]. by exists r1, r2.
Qed.

Lemma parse_edge_accepts routerNames rs src dest c :
  net_ok routerNames rs →
  src ≠ dest → src ∈ routerNames → dest ∈ routerNames →
  ∃ rs', parse_edge rs (src, dest, c) = Ok rs'.
Proof.
  intros (Hdom & Htab & _) Hne Hs Hd. unfold parse_edge.
  apply Hdom in Hs as [r1 H1]. apply Hdom in Hd as [r2 H2].
  rewrite link_unfold, H1.
  destruct (Htab src r1 H1) as (_ & Hk1 & _).
  rewrite (Hk1 dest) by done. simpl.
  rewrite link_unfold. simpl. rewrite lookup_insert_ne, H2 by done.
  destruct (Htab dest r2 H2) as (_ & Hk2 & _).
  rewrite (Hk2 src) by done. by eexists.
Qed.

Lemma parse_edge_rejects routerNames rs src dest c :
  net_ok routerNames rs →
  src = dest ∨ src ∉ routerNames ∨ dest ∉ routerNames →
  ∃ e, parse_edge rs (src, dest, c) = Raise e.
Proof.
  intros Hok Hbad.
  destruct (parse_edge rs (src, dest, c)) as [rs'|e] eqn:Hrun; [|by eexists].
  destruct (parse_edge_ok _ _ _ _ _ _ Hok Hrun) as (r1 & r2 & Hne & H1 & H2 & _).
  destruct Hok as (Hdom & _).
  destruct Hbad as [?|[Hs|Hd]]; [done| |].
  - exfalso. apply Hs, Hdom. by eexists.
  - exfalso. apply Hd, Hdom. by eexists.
Qed.

Lemma net_ok_parse_edge routerNames rs e rs' :
  net_ok routerNames rs → parse_edge rs e = Ok rs' → net_ok routerNames rs'.
Proof.
  destruct e as [[src dest] c]. intros Hok Hrun.
  destruct (parse_edge_ok _ _ _ _ _ _ Hok Hrun)
    as (r1 & r2 & Hne & H1 & H2 & ->).
  destruct Hok as (Hdom & Htab & Hsym).
  assert (∀ m r0, store rs !! m = Some r0 →
            ∃ r', (<[dest := linked r2 src c]>
                     (<[src := linked r1 dest c]> (store rs))) !! m = Some r' ∧
                  (∀ x, x ∈ neighbours r0 → x ∈ neighbours r') ∧
                  (m = src → dest ∈ neighbours r') ∧
                  (m = dest → src ∈ neighbours r')) as Hgrow.
  { intros m r0 Hm. destruct (decide (m = dest)) as [->|Hmd].
    - rewrite lookup_insert_eq. eexists. split; [done|].
      assert (r0 = r2) as -> by congruence. simpl.
      split; [|split]; intros; try done; apply elem_of_app; auto.
      right. apply list_elem_of_here.
    - rewrite lookup_insert_ne by done.
      destruct (decide (m = src)) as [->|Hms].
      + rewrite lookup_insert_eq. eexists. split; [done|].
        assert (r0 = r1) as -> by congruence. simpl.
        split; [|split]; intros; try done; apply elem_of_app; auto.
        right. apply list_elem_of_here.
      + rewrite lookup_insert_ne by done. exists r0. by repeat split. }
  split; [|split]; simpl.
  - intros n. rewrite Hdom. split.
    + intros [r0 Hr0]. destruct (Hgrow n r0 Hr0) as (r' & -> & _). by eexists.
    + intros [r' Hr']. destruct (decide (n = dest)) as [->|Hnd]; [by eexists|].
      rewrite lookup_insert_ne in Hr' by done.
      destruct (decide (n = src)) as [->|Hns]; [by eexists|].
      rewrite lookup_insert_ne in Hr' by done. by eexists.
  - intros n r Hr. destruct (decide (n = dest)) as [->|Hnd].
    { rewrite lookup_insert_eq in Hr. injection Hr as <-.
      apply table_ok_linked; [done|by apply Htab]. }
    rewrite lookup_insert_ne in Hr by done.
    destruct (decide (n = src)) as [->|Hns].
    { rewrite lookup_insert_eq in Hr. injection Hr as <-.
      apply table_ok_linked; [done|by apply Htab]. }
    rewrite lookup_insert_ne in Hr by done. by apply Htab.
  - intros n r m Hr Hm.
    assert (∃ r0, store rs !! n = Some r0 ∧
                  (m ∈ neighbours r0 ∨ (n = dest ∧ m = src) ∨ (n = src ∧ m = dest)))
      as (r0 & Hr0 & Hcase).
    { destruct (decide (n = dest)) as [->|Hnd].
      { rewrite lookup_insert_eq in Hr. injection Hr as <-. exists r2.
        split; [done|]. simpl in Hm.
        apply elem_of_app in Hm as [Hm|Hm%list_elem_of_singleton]; auto. }
      rewrite lookup_insert_ne in Hr by done.
      destruct (decide (n = src)) as [->|Hns].
      { rewrite lookup_insert_eq in Hr. injection Hr as <-. exists r1.
        split; [done|]. simpl in Hm.
        apply elem_of_app in Hm as [Hm|Hm%list_elem_of_singleton]; auto. }
      rewrite lookup_insert_ne in Hr by done. exists r. auto. }
    destruct Hcase as [Hold|[[-> ->]|[-> ->]]].
    + destruct (Hsym n r0 m Hr0 Hold) as (rm & Hrm & Hin).
      destruct (Hgrow m rm Hrm) as (r' & Hr' & Hsub & _).
      exists r'. split; [done|]. by apply Hsub.
    + destruct (Hgrow src r1 H1) as (r' & Hr' & _ & Hd & _).
      exists r'. split; [done|]. by apply Hd.
    + destruct (Hgrow dest r2 H2) as (r' & Hr' & _ & _ & Hs).
      exists r'. split; [done|]. by apply Hs.
Qed.

Lemma net_ok_parse_edges routerNames edges rs rs' :
  net_ok routerNames rs → foldM parse_edge edges rs = Ok rs' →
  net_ok routerNames rs'.
Proof.
  intros Hok. apply (foldM_inv (net_ok routerNames)); [|done].
  intros b x b' _. apply net_ok_parse_edge.
Qed.

(** What [input_parser] returns satisfies [net_ok]. *)
Lemma net_ok_input_parser routerNames edges rs :
  input_parser routerNames edges = Ok rs → net_ok routerNames rs.
Proof.
  unfold input_parser.
  destruct (foldM parse_edge edges (make_routers routerNames)) as [rs'|e] eqn:Hrun;
    [|done].
  intros [= <-]. eapply net_ok_parse_edges; [|done].
  apply net_ok_make_routers.
Qed.

Lemma parse_edges_accept routerNames edges rs :
  net_ok routerNames rs → Forall (edge_ok routerNames) edges →
  ∃ rs', foldM parse_edge edges rs = Ok rs'.
Proof.
  intros Hok Hall. revert rs Hok.
  induction Hall as [|[[src dest] c] l (Hne & Hs & Hd) _ IH]; intros rs Hok;
    cbn [foldM].
  - by eexists.
  - destruct (parse_edge_accepts routerNames rs src dest c Hok Hne Hs Hd)
      as [rs1 Hrs1].
    rewrite Hrs1. apply IH. by eapply net_ok_parse_edge.
Qed.

Lemma parse_edges_reject routerNames edges rs :
  net_ok routerNames rs → Exists (λ e, ¬ edge_ok routerNames e) edges →
  ∃ e, foldM parse_edge edges rs = Raise e.
Proof.
  intros Hok Hex. revert rs Hok.
  induction Hex as [[[src dest] c] l Hbad|[[src dest] c] l _ IH]; intros rs Hok;
    cbn [foldM].
  - destruct (parse_edge_rejects routerNames rs src dest c Hok) as [e ->].
    + unfold edge_ok in Hbad. simpl in Hbad.
      destruct (decide (src = dest)); [by left|right].
      destruct (decide (src ∈ routerNames)); [right|by left].
      intros Hd. by apply Hbad.
    + by exists e.
  - destruct (parse_edge rs (src, dest, c)) as [rs1|e] eqn:Hrun; [|by eexists].
    apply IH. by eapply net_ok_parse_edge.
Qed.

(** ** Sending *)

Lemma set_queue_same r : set_queue r (queue r) = r.
Proof. by destruct r. Qed.

Lemma sent_ok_refl rs : sent_ok rs rs.
Proof.
  split; [done|]. intros n. destruct (store rs !! n) as [r|] eqn:Hn; [|done].
  exists []. by rewrite app_nil_r, set_queue_same.
Qed.

Lemma send_ok rs rs' s rS nhbr rs'' :
  sent_ok rs rs' → store rs !! s = Some rS → nhbr ∈ neighbours rS →
  send s rs' nhbr = Ok rs'' → sent_ok rs rs''.
Proof.
  intros [Hkeys Hq] Hs Hnb. unfold send, dict_get.
  pose proof (Hq s) as Hqs. rewrite Hs in Hqs. destruct Hqs as (exts & -> & _).
  simpl. pose proof (Hq nhbr) as Hqn.
  destruct (store rs' !! nhbr) as [n'|] eqn:Hn'; [|done]. simpl.
  intros [= <-]. split; [done|]. intros k. simpl.
  destruct (decide (k = nhbr)) as [->|Hne].
  - rewrite lookup_insert_eq.
    destruct (store rs !! nhbr) as [rN|]; [|done].
    destruct Hqn as (ext & [= ->] & Hall).
    exists (ext ++ [(rtable rS, s)]). split.
    + unfold push; simpl. by rewrite app_assoc.
    + apply Forall_app. split; [done|]. apply Forall_singleton.
      by exists rS.
  - rewrite lookup_insert_ne by done. apply Hq.
Qed.

Lemma add_to_queue_ok rs rs' s rs'' :
  sent_ok rs rs' → add_to_queue rs' s = Ok rs'' → sent_ok rs rs''.
Proof.
  intros Hsent. unfold add_to_queue, dict_get.
  destruct Hsent as [Hkeys Hq]. pose proof (Hq s) as Hqs.
  destruct (store rs' !! s) as [r'|] eqn:Hr'; [|done]. simpl.
  destruct (store rs !! s) as [rS|] eqn:HrS; [|done].
  destruct Hqs as (ext & [= ->] & _). simpl.
  apply (foldM_inv (sent_ok rs)); [|by split].
  intros b x b' Hx Hb. by apply (send_ok rs b s rS x b').
Qed.

Lemma send_all_ok rs rs1 : send_all rs = Ok rs1 → sent_ok rs rs1.
Proof.
  unfold send_all. apply (foldM_inv (sent_ok rs)); [|apply sent_ok_refl].
  intros b x b' _. apply add_to_queue_ok.
Qed.

(** ** One iteration, router by router *)

Lemma round_step_router rs rs' n :
  round_step rs rs' →
  match store rs !! n with
  | None => store rs' !! n = None
  | Some r => ∃ q, Forall (msg_from rs n) q ∧
                   store rs' !! n =
                     Some (final (threaded (keys rs) (set_queue r q)))
  end.
Proof.
  intros (Hempty & _ & rs1 & Hsend & Hrun).
  apply send_all_ok in Hsend as [_ Hsent].
  specialize (Hsent n). specialize (Hrun n).
  destruct (store rs !! n) as [r|] eqn:Hn.
  - destruct Hsent as (ext & Hr1 & Hall). rewrite Hr1 in Hrun.
    destruct Hrun as (q & Hperm & _ & Hr'). simpl in Hperm.
    rewrite (Hempty n r Hn) in Hperm. simpl in Hperm.
    exists q. split; [by rewrite Hperm|done].
  - by rewrite Hsent in Hrun.
Qed.

Lemma table_ok_ext n nb (t t' : table) :
  (∀ k, tget t' k = tget t k) → table_ok n nb t → table_ok n nb t'.
Proof.
  intros Heq (Hself & Hkind & Hnb & Hhop).
  split; [by rewrite Heq|]. split; [|split].
  - intros k Hk. rewrite Heq. by apply Hkind.
  - intros m Hm. rewrite Heq. by apply Hnb.
  - intros k Hk. rewrite Heq. by apply Hhop.
Qed.

Lemma num_lt_int a b : num_lt a b = true → is_int a.
Proof. destruct a; [by eexists|done]. Qed.

(** A step of the relaxation keeps [table_ok] when the message comes from a
    neighbour: an improved entry gets a finite cost and the next hop of the
    sender's entry, which is a neighbour; the router's own entry is a tuple
    and cannot be improved. *)
Lemma relax_entry_table_ok n nb own tbl nm tc d tc' :
  table_ok n nb tc → nm ∈ nb →
  relax_entry own tbl nm tc d = Ok tc' → table_ok n nb tc'.
Proof.
  intros (Hself & Hkind & Hnb & Hhop) Hnm Hrun.
  apply relax_entry_ok in Hrun as (_ & Hf & _ & Hoth & _ & Hd).
  destruct Hd as [Hsame|(val & _ & Hlt & Hnew)].
  - apply (table_ok_ext n nb tc); [|done].
    intros k. destruct (decide (k = d)) as [->|Hne]; [done|by apply Hoth].
  - assert (d ≠ n) as Hdn.
    { intros ->. destruct (Hf n) as [Hk _].
      rewrite Hnew, Hself in Hk. done. }
    split; [by rewrite Hoth|]. split; [|split].
    + intros k Hk. destruct (Hf k) as [-> _]. by apply Hkind.
    + intros m Hm. destruct (Hnb m Hm) as [Hmn Hint]. split; [done|].
      destruct (decide (m = d)) as [->|Hne].
      * rewrite Hnew. simpl. by eapply num_lt_int.
      * by rewrite Hoth.
    + intros k Hk. destruct (decide (k = d)) as [->|Hne].
      * intros _. rewrite Hnew. simpl.
        destruct (Hnb nm Hnm) as [Hnmn Hint]. by apply Hhop.
      * rewrite Hoth by done. by apply Hhop.
Qed.

Lemma relax_queue_table_ok n nb own universe q tc tc' :
  table_ok n nb tc → Forall (λ m, m.2 ∈ nb) q →
  relax_queue own universe q tc = Ok tc' → table_ok n nb tc'.
Proof.
  intros Hok Hall. unfold relax_queue.
  apply (foldM_inv (table_ok n nb)); [|done].
  intros b m b' Hm Hb. unfold relax_msg.
  apply (foldM_inv (table_ok n nb)); [|done].
  intros b0 d b0' _ Hb0. apply relax_entry_table_ok; [done|].
  by apply (proj1 (list.Forall_forall _ _) Hall).
Qed.

Lemma threaded_table_ok n universe r q :
  table_ok n (neighbours r) (rtable r) → Forall (λ m, m.2 ∈ neighbours r) q →
  neighbours (final (threaded universe (set_queue r q))) = neighbours r ∧
  table_ok n (neighbours r) (rtable (final (threaded universe (set_queue r q)))).
Proof.
  intros Hok Hall.
  pose proof (threaded_cases universe (set_queue r q)) as Hc. simpl in Hc.
  destruct (blocked_queue _ _ _ _).
  - destruct Hc as [e ->]. by simpl.
  - destruct Hc as (tc & r' & Hrun & -> & _ & _ & _ & Hnb & _ & _ & Ht).
    simpl. split; [done|].
    apply (table_ok_ext n _ tc); [intros k; apply Ht|].
    by apply (relax_queue_table_ok n _ (rtable r) universe q (rtable r)).
Qed.

(** [net_ok] holds after an iteration if it held before. *)
Lemma net_ok_round_step routerNames rs rs' :
  net_ok routerNames rs → round_step rs rs' → net_ok routerNames rs'.
Proof.
  intros (Hdom & Htab & Hsym) Hstep.
  assert (∀ n, match store rs !! n with
               | None => store rs' !! n = None
               | Some r => ∃ r', store rs' !! n = Some r' ∧
                                 neighbours r' = neighbours r ∧
                                 table_ok n (neighbours r') (rtable r')
               end) as Hall.
  { intros n. pose proof (round_step_router rs rs' n Hstep) as Hn.
    destruct (store rs !! n) as [r|] eqn:Hr; [|done].
    destruct Hn as (q & Hq & ->). eexists. split; [done|].
    destruct (threaded_table_ok n (keys rs) r q) as [Hnb Hok].
    - by apply Htab.
    - eapply Forall_impl; [|exact Hq]. intros m (rS & HrS & _ & Hin).
      destruct (Hsym _ _ _ HrS Hin) as (r0 & Hr0 & Hm). congruence.
    - by rewrite Hnb. }
  split; [|split].
  - intros n. rewrite Hdom. specialize (Hall n).
    destruct (store rs !! n) as [r|].
    + destruct Hall as (r' & -> & _). split; by eexists.
    + rewrite Hall. done.
  - intros n r' Hr'. specialize (Hall n).
    destruct (store rs !! n) as [r|]; [|congruence].
    destruct Hall as (r0 & Hr0 & _ & Hok). congruence.
  - intros n r' m Hr' Hm. pose proof (Hall n) as Hn.
    destruct (store rs !! n) as [r|] eqn:Hr; [|congruence].
    destruct Hn as (r0 & Hr0 & Hnb & _).
    assert (r0 = r') as -> by congruence. rewrite Hnb in Hm.
    destruct (Hsym n r m Hr Hm) as (rm & Hrm & Hin).
    pose proof (Hall m) as Hmm. rewrite Hrm in Hmm.
    destruct Hmm as (rm' & Hrm' & Hnb' & _).
    exists rm'. split; [done|]. by rewrite Hnb'.
Qed.

Lemma net_ok_reachable routerNames rs0 rs :
  net_ok routerNames rs0 → reachable rs0 rs → net_ok routerNames rs.
Proof.
  intros Hok. induction 1 as [|rs rs' _ IH Hstep]; [done|].
  by eapply net_ok_round_step.
Qed.

(** ** Iterations that can be run *)

Lemma run_round_step rs : round_ready rs = true → round_step rs (run_round rs).
Proof.
  unfold round_ready, run_round. intros [Hempty Hlen]%andb_true_iff.
  destruct (send_all rs) as [rs1|e] eqn:Hsend; [|done].
  rewrite forallb_forall in Hempty. rewrite forallb_forall in Hlen.
  split; [|split; [done|]].
  - intros n r Hn. apply (bool_decide_eq_true_1 (queue r = [])).
    apply (Hempty (n, r)). apply list_elem_of_In. by apply elem_of_map_to_list.
  - exists rs1. split; [done|]. intros n. simpl.
    destruct (store rs1 !! n) as [r|] eqn:Hn.
    + exists (queue r). split; [done|]. split.
      * apply (bool_decide_eq_true_1 (length (queue r) = length (neighbours r))).
        apply (Hlen (n, r)). apply list_elem_of_In. by apply elem_of_map_to_list.
      * by rewrite lookup_fmap, Hn, set_queue_same.
    + by rewrite lookup_fmap, Hn.
Qed.

Lemma round_step_unique rs rs' :
  order_blind rs = true → round_step rs rs' → rs' = run_round rs.
Proof.
  unfold order_blind, run_round. intros Hblind (_ & Hkeys & rs1 & Hsend & Hrun).
  rewrite Hsend in Hblind |- *. rewrite forallb_forall in Hblind.
  destruct rs' as [k' s']. simpl in *. subst k'. f_equal.
  apply map_eq. intros n. specialize (Hrun n). rewrite lookup_fmap.
  destruct (store rs1 !! n) as [r|] eqn:Hn; simpl; [|done].
  destruct Hrun as (q & Hperm & _ & ->). f_equal.
  assert ((n, r) ∈ map_to_list (store rs1)) as Hin by by apply elem_of_map_to_list.
  apply list_elem_of_In, Hblind in Hin. simpl in Hin.
  rewrite forallb_forall in Hin.
  apply (bool_decide_eq_true_1
           (final (threaded (keys rs) (set_queue r q)) =
            final (threaded (keys rs) r))).
  apply Hin. apply list_elem_of_In. by apply permutations_Permutation.
Qed.

(** ** The claims about the whole simulation *)

(** C2: after [input_parser] and after any number of iterations, every
    router's entry for itself is cost 0 with next hop 'None', and an
    iteration leaves it so.  Positive costs are not needed: the entry is a
    tuple, so a candidate below 0 ends the thread with a TypeError before
    anything is written. *)
Theorem self_entry_invariant routerNames edges rs0 rs n r :
  input_parser routerNames edges = Ok rs0 →
  reachable rs0 rs →
  store rs !! n = Some r →
  view (rtable r) n = (Int 0, "None") ∧
  ∀ rs', round_step rs rs' →
         ∃ r', store rs' !! n = Some r' ∧ view (rtable r') n = (Int 0, "None").
Proof.
  intros Hparse Hreach Hn.
  pose proof (net_ok_reachable routerNames rs0 rs
                (net_ok_input_parser _ _ _ Hparse) Hreach) as Hok.
  split.
  - destruct Hok as (_ & Htab & _). destruct (Htab n r Hn) as [Hself _].
    unfold view. by rewrite Hself.
  - intros rs' Hstep.
    pose proof (net_ok_round_step routerNames rs rs' Hok Hstep) as (Hdom' & Htab' & _).
    destruct Hok as (Hdom & _).
    assert (is_Some (store rs' !! n)) as [r' Hr'].
    { apply Hdom', Hdom. by eexists. }
    exists r'. split; [done|]. destruct (Htab' n r' Hr') as [Hself _].
    unfold view. by rewrite Hself.
Qed.

Lemma self_entry_invariant_witness :
  view (rtable (router_of (run_round line_net) "A")) "A" = (Int 0, "None").
Proof.
  apply (self_entry_invariant ["A"; "B"; "C"] [("A", "B", 1); ("B", "C", 1)]
           line_net (run_round line_net) "A").
  - vm_compute. reflexivity.
  - apply (reach_step _ line_net); [apply reach_init|].
    apply run_round_step. vm_compute. reflexivity.
  - vm_compute. reflexivity.
Defined.

(** C3: an iteration never increases a cost: for every router and
    destination, the cost after the iteration is at most the cost before
    it. *)
Theorem costs_never_increase rs rs' n r :
  round_step rs rs' →
  store rs !! n = Some r →
  ∃ r', store rs' !! n = Some r' ∧
        ∀ d, num_le (cost (tget (rtable r') d)) (cost (tget (rtable r) d)).
Proof.
  intros Hstep Hn. pose proof (round_step_router rs rs' n Hstep) as Hr.
  rewrite Hn in Hr. destruct Hr as (q & _ & Hr').
  eexists. split; [done|]. intros d.
  apply (threaded_cost_le (keys rs) (set_queue r q) d).
Qed.

Lemma costs_never_increase_witness :
  ∃ r', store (run_round line_net) !! "A" = Some r' ∧
        num_le (cost (tget (rtable r') "C"))
               (cost (tget (rtable (router_of line_net "A")) "C")).
Proof.
  destruct (costs_never_increase line_net (run_round line_net) "A"
              (router_of line_net "A")) as (r' & Hr' & Hle).
  - apply run_round_step. vm_compute. reflexivity.
  - vm_compute. reflexivity.
  - exists r'. split; [done|]. apply Hle.
Defined.

(** C10: after [input_parser] and after any number of iterations, an entry
    of finite cost for another router has as next hop one of the router's
    neighbours, which is a declared router other than the router itself;
    so it is neither sentinel unless a router bears the sentinel's name. *)
Theorem next_hop_is_neighbour routerNames edges rs0 rs n r d :
  input_parser routerNames edges = Ok rs0 →
  reachable rs0 rs →
  store rs !! n = Some r →
  d ≠ n →
  cost (tget (rtable r) d) ≠ Inf →
  hop (tget (rtable r) d) ∈ neighbours r ∧
  hop (tget (rtable r) d) ∈ routerNames ∧
  hop (tget (rtable r) d) ≠ n ∧
  ("None" ∉ routerNames → hop (tget (rtable r) d) ≠ "None") ∧
  ("[no path]" ∉ routerNames → hop (tget (rtable r) d) ≠ "[no path]").
Proof.
  intros Hparse Hreach Hn Hd Hfin.
  pose proof (net_ok_reachable routerNames rs0 rs
                (net_ok_input_parser _ _ _ Hparse) Hreach) as (Hdom & Htab & Hsym).
  destruct (Htab n r Hn) as (_ & _ & Hnb & Hhop).
  assert (hop (tget (rtable r) d) ∈ neighbours r) as Hin.
  { apply Hhop; [done|]. destruct (cost (tget (rtable r) d)); [by eexists|done]. }
  assert (hop (tget (rtable r) d) ∈ routerNames) as Hname.
  { destruct (Hsym n r _ Hn Hin) as (r' & Hr' & _). apply Hdom. by eexists. }
  split; [done|]. split; [done|]. split; [by apply Hnb|].
  split; intros Hno Heq; apply Hno; by rewrite <-Heq.
Qed.

Lemma next_hop_is_neighbour_witness :
  hop (tget (rtable (router_of (run_round line_net) "A")) "C") ∈
    neighbours (router_of (run_round line_net) "A").
Proof.
  apply (next_hop_is_neighbour ["A"; "B"; "C"] [("A", "B", 1); ("B", "C", 1)]
           line_net (run_round line_net) "A"
           (router_of (run_round line_net) "A") "C").
  - vm_compute. reflexivity.
  - apply (reach_step _ line_net); [apply reach_init|].
    apply run_round_step. vm_compute. reflexivity.
  - vm_compute. reflexivity.
  - discriminate.
  - vm_compute. discriminate.
Defined.

(** C4, as amended: in the line A - B - C with both costs 1, whatever the
    order in which the messages arrive, A's entry for C is (2, B) already
    after the first iteration, since B's first message carries its link to
    C; after the second iteration A's entry for C and C's entry for A are
    (2, B). *)
Theorem line_topology_rounds rs1 rs2 :
  round_step line_net rs1 →
  round_step rs1 rs2 →
  input_parser ["A"; "B"; "C"] [("A", "B", 1); ("B", "C", 1)] = Ok line_net ∧
  entry_of rs1 "A" "C" = (Int 2, "B") ∧
  entry_of rs2 "A" "C" = (Int 2, "B") ∧
  entry_of rs2 "C" "A" = (Int 2, "B").
Proof.
  intros H1 H2.
  apply round_step_unique in H1; [|by vm_compute]. subst rs1.
  apply round_step_unique in H2; [|by vm_compute]. subst rs2.
  repeat split; by vm_compute.
Qed.

Lemma line_topology_rounds_witness :
  entry_of (run_round line_net) "A" "C" = (Int 2, "B") ∧
  entry_of (run_round (run_round line_net)) "A" "C" = (Int 2, "B") ∧
  entry_of (run_round (run_round line_net)) "C" "A" = (Int 2, "B").
Proof.
  apply (line_topology_rounds (run_round line_net) (run_round (run_round line_net))).
  - apply run_round_step. vm_compute. reflexivity.
  - apply run_round_step. vm_compute. reflexivity.
Defined.

(** C4 as stated fails: after the first iteration A's entry for C is not
    (inf, '[no path]'). *)
Lemma line_topology_round_one :
  ¬ (∀ rs1, round_step line_net rs1 → entry_of rs1 "A" "C" = (Inf, "[no path]")).
Proof.
  intros H. specialize (H (run_round line_net)).
  assert (round_step line_net (run_round line_net)) as Hstep.
  { apply run_round_step. vm_compute. reflexivity. }
  apply H in Hstep. vm_compute in Hstep. discriminate Hstep.
Qed.

(** * Further properties of the code *)

(** ** Loops, with the part of the list already done *)

Lemma foldM_inv_prefix {A B : Type} (P : list A → B → Prop)
    (f : B → A → result B) (l : list A) :
  (∀ pre x b b', x ∈ l → P pre b → f b x = Ok b' → P (pre ++ [x]) b') →
  ∀ pre b b', P pre b → foldM f l b = Ok b' → P (pre ++ l) b'.
Proof.
  induction l as [|x l IH]; intros Hstep pre b b' Hb Hrun; simpl in Hrun.
  - inversion Hrun; subst. by rewrite app_nil_r.
  - destruct (f b x) as [b1|e] eqn:Hf; simpl in Hrun; [|done].
    rewrite (cons_middle x pre l), app_assoc.
    apply (IH (λ pre0 y b0 b0' Hy, Hstep pre0 y b0 b0' (list_elem_of_further _ _ _ Hy))
              (pre ++ [x]) b1); [|done].
    eapply Hstep; [apply list_elem_of_here|done..].
Qed.

Lemma foldM_total_prefix {A B : Type} (P : list A → B → Prop)
    (f : B → A → result B) (l : list A) :
  (∀ pre x b, x ∈ l → P pre b → ∃ b', f b x = Ok b' ∧ P (pre ++ [x]) b') →
  ∀ pre b, P pre b → ∃ b', foldM f l b = Ok b' ∧ P (pre ++ l) b'.
Proof.
  induction l as [|x l IH]; intros Hstep pre b Hb; simpl.
  - exists b. by rewrite app_nil_r.
  - destruct (Hstep pre x b (list_elem_of_here _ _) Hb) as (b1 & -> & Hb1). simpl.
    rewrite (cons_middle x pre l), app_assoc.
    apply (IH (λ pre0 y b0 Hy, Hstep pre0 y b0 (list_elem_of_further _ _ _ Hy))).
    done.
Qed.

(** ** What input_parser builds *)

Lemma last_cost_snoc a b edges e :
  last_cost a b (edges ++ [e]) =
  if decide (joins a b e) then Some e.2 else last_cost a b edges.
Proof. unfold last_cost. by rewrite fold_left_app. Qed.

Lemma last_cost_sym a b edges : last_cost a b edges = last_cost b a edges.
Proof.
  unfold last_cost. generalize (@None Z).
  induction edges as [|e l IH]; intros acc; simpl; [done|].
  rewrite IH. f_equal. unfold joins.
  repeat case_decide; try done; naive_solver.
Qed.

Lemma last_cost_elem a b edges c :
  last_cost a b edges = Some c → ∃ e, e ∈ edges ∧ joins a b e ∧ e.2 = c.
Proof.
  induction edges as [|e l IH] using rev_ind; [done|].
  rewrite last_cost_snoc. case_decide as Hj.
  - intros [= <-]. exists e. split; [|done]. apply elem_of_app. right.
    apply list_elem_of_here.
  - intros (e' & Hin & Hj' & Hc)%IH. exists e'. split; [|done].
    apply elem_of_app. by left.
Qed.

Lemma parsed_router_new a : parsed_router a [] (new_router a).
Proof.
  repeat split. intros b. unfold parsed_entry. simpl.
  rewrite tget_insert. by case_decide.
Qed.

Lemma parsed_router_linked a r edges dest c :
  dest ≠ a → parsed_router a edges r →
  parsed_router a (edges ++ [(a, dest, c)]) (linked r dest c) ∧
  parsed_router a (edges ++ [(dest, a, c)]) (linked r dest c).
Proof.
  intros Hne (Hn & Hq & Hi & Ha & Hnb & Ht).
  split; (split; [done|]; split; [done|]; split; [done|]; split; [done|]; split).
  - simpl. rewrite Hnb, flat_map_app. simpl. unfold other_end; simpl.
    rewrite decide_True, decide_False by done. by rewrite !app_nil_r.
  - intros b. simpl. rewrite tget_insert, Ht. unfold parsed_entry.
    rewrite last_cost_snoc. unfold joins; simpl.
    destruct (decide (b = dest)) as [->|Hb].
    + rewrite decide_False by done. rewrite decide_True by (by left). done.
    + case_decide; [done|]. rewrite decide_False; [done|]. naive_solver.
  - simpl. rewrite Hnb, flat_map_app. simpl. unfold other_end; simpl.
    rewrite decide_False, decide_True by done. by rewrite !app_nil_r.
  - intros b. simpl. rewrite tget_insert, Ht. unfold parsed_entry.
    rewrite last_cost_snoc. unfold joins; simpl.
    destruct (decide (b = dest)) as [->|Hb].
    + rewrite decide_False by done. rewrite decide_True by (by right). done.
    + case_decide; [done|]. rewrite decide_False; [done|]. naive_solver.
Qed.

Lemma parsed_router_other a r edges src dest c :
  src ≠ a → dest ≠ a → parsed_router a edges r →
  parsed_router a (edges ++ [(src, dest, c)]) r.
Proof.
  intros Hs Hd (Hn & Hq & Hi & Ha & Hnb & Ht).
  repeat (split; [done|]). split.
  - rewrite Hnb, flat_map_app. simpl. unfold other_end; simpl.
    rewrite !decide_False by done. by rewrite !app_nil_r.
  - intros b. rewrite Ht. unfold parsed_entry. rewrite last_cost_snoc.
    unfold joins; simpl. case_decide; [done|].
    rewrite decide_False; [done|]. naive_solver.
Qed.

Lemma keys_make_routers routerNames :
  NoDup (keys (make_routers routerNames)) ∧
  (∀ n, n ∈ keys (make_routers routerNames) ↔ n ∈ routerNames) ∧
  (NoDup routerNames → keys (make_routers routerNames) = routerNames).
Proof.
  unfold make_routers.
  assert (∀ l rs, NoDup (keys rs) →
            let rs' := fold_left (λ rs nm, dict_set rs nm (new_router nm)) l rs in
            NoDup (keys rs') ∧
            (∀ n, n ∈ keys rs' ↔ n ∈ keys rs ∨ n ∈ l) ∧
            (NoDup (keys rs ++ l) → keys rs' = keys rs ++ l)) as Hgen.
  { induction l as [|x l IH]; intros rs Hnd; simpl.
    - split; [done|]. split; [|by rewrite app_nil_r].
      intros n. split; [by left|]. intros [?|Hn]; [done|].
      by apply elem_of_nil in Hn.
    - assert (NoDup (keys (dict_set rs x (new_router x)))) as Hnd'.
      { unfold dict_set; simpl. case_decide; [done|].
        apply list.NoDup_app. split; [done|]. split; [|apply NoDup_singleton].
        intros y Hy ->%list_elem_of_singleton. done. }
      destruct (IH _ Hnd') as (H1 & H2 & H3). split; [done|]. split.
      + intros n. rewrite H2. unfold dict_set; simpl.
        rewrite elem_of_cons. case_decide as Hx.
        * split; [intros [?|?]; auto|]. intros [?|[->|?]]; auto.
        * rewrite elem_of_app, list_elem_of_singleton. naive_solver.
      + intros Hall. rewrite H3.
        * unfold dict_set; simpl. rewrite decide_False.
          -- by rewrite <-app_assoc.
          -- apply list.NoDup_app in Hall as (_ & Hdis & _). intros Hx.
             apply (Hdis x Hx). apply list_elem_of_here.
        * unfold dict_set; simpl. rewrite decide_False.
          -- by rewrite <-app_assoc.
          -- apply list.NoDup_app in Hall as (_ & Hdis & _). intros Hx.
             apply (Hdis x Hx). apply list_elem_of_here. }
  destruct (Hgen routerNames no_routers) as (H1 & H2 & H3); [apply NoDup_nil_2|].
  split; [done|]. split.
  - intros n. rewrite H2. simpl. split; [intros [Hn|?]; [by apply elem_of_nil in Hn|done]|by right].
  - intros Hnd. by apply H3.
Qed.

Lemma parse_edges_build routerNames edges rs :
  foldM parse_edge edges (make_routers routerNames) = Ok rs →
  net_ok routerNames rs ∧
  keys rs = keys (make_routers routerNames) ∧
  ∀ a r, store rs !! a = Some r → parsed_router a edges r.
Proof.
  intros Hrun.
  apply (foldM_inv_prefix
           (λ pre rs, net_ok routerNames rs ∧
                      keys rs = keys (make_routers routerNames) ∧
                      ∀ a r, store rs !! a = Some r → parsed_router a pre r)
           parse_edge edges) with (pre := []) (b := make_routers routerNames);
    [| |done].
  - intros pre [[src dest] c] b b' _ (Hok & Hkeys & Hall) Hstep.
    split; [by eapply net_ok_parse_edge|].
    destruct (parse_edge_ok _ _ _ _ _ _ Hok Hstep)
      as (r1 & r2 & Hne & H1 & H2 & ->).
    split; [done|]. simpl. intros a r Hr.
    destruct (decide (a = dest)) as [->|Hd].
    { rewrite lookup_insert_eq in Hr. injection Hr as <-.
      apply (parsed_router_linked dest r2 pre src c); [done|by apply Hall]. }
    rewrite lookup_insert_ne in Hr by done.
    destruct (decide (a = src)) as [->|Hs].
    { rewrite lookup_insert_eq in Hr. injection Hr as <-.
      apply (parsed_router_linked src r1 pre dest c); [done|by apply Hall]. }
    rewrite lookup_insert_ne in Hr by done.
    apply parsed_router_other; [done..|]. by apply Hall.
  - split; [apply net_ok_make_routers|]. split; [done|].
    intros a r. rewrite make_routers_lookup. case_decide; [|done].
    intros [= <-]. apply parsed_router_new.
Qed.

Lemma parsed_keys_spec routerNames edges rs :
  input_parser routerNames edges = Ok rs →
  NoDup (keys rs) ∧
  (∀ n, n ∈ keys rs ↔ n ∈ routerNames) ∧
  (∀ n, n ∈ keys rs ↔ is_Some (store rs !! n)) ∧
  (NoDup routerNames → keys rs = routerNames).
Proof.
  unfold input_parser.
  destruct (foldM parse_edge edges (make_routers routerNames)) as [rs'|e] eqn:Hrun;
    [|done].
  intros [= <-].
  destruct (parse_edges_build _ _ _ Hrun) as ((Hdom & _) & -> & _).
  destruct (keys_make_routers routerNames) as (H1 & H2 & H3).
  split; [done|]. split; [done|]. split; [|done].
  intros n. by rewrite H2, Hdom.
Qed.

(** X1: the dict [routers] after [input_parser] has exactly the names of
    the second input line as keys, each once even when the line repeats a
    name, and a router under every key; when the names are distinct the
    keys are in the order of the line, which is the order every sweep of the
    relaxation follows. *)
Theorem input_parser_keys routerNames edges rs :
  input_parser routerNames edges = Ok rs →
  NoDup (keys rs) ∧
  (∀ n, n ∈ keys rs ↔ n ∈ routerNames) ∧
  (∀ n, n ∈ keys rs ↔ is_Some (store rs !! n)) ∧
  (NoDup routerNames → keys rs = routerNames).
Proof.
  intros Hp. destruct (parsed_keys_spec _ _ _ Hp) as (Hnd & Hnames & Hdom & Hsame).
  repeat split; try done; by apply Hnames || by apply Hdom.
Qed.

Lemma input_parser_keys_witness :
  keys (parsed ["A"; "B"; "A"; "C"] [("A", "B", 1); ("B", "C", 1)]) = ["A"; "B"; "C"] ∧
  NoDup (keys (parsed ["A"; "B"; "A"; "C"] [("A", "B", 1); ("B", "C", 1)])).
Proof.
  split; [vm_compute; reflexivity|].
  apply (input_parser_keys ["A"; "B"; "A"; "C"] [("A", "B", 1); ("B", "C", 1)]).
  vm_compute. reflexivity.
Defined.

Lemma parsed_router_spec routerNames edges rs a r :
  input_parser routerNames edges = Ok rs →
  store rs !! a = Some r →
  name r = a ∧ queue r = [] ∧ iterations r = 0%nat ∧ appended_at r = ∅ ∧
  neighbours r = flat_map (other_end a) edges ∧
  ∀ b, tget (rtable r) b = parsed_entry a b edges.
Proof.
  unfold input_parser.
  destruct (foldM parse_edge edges (make_routers routerNames)) as [rs'|e] eqn:Hrun;
    [|done].
  intros [= <-] Hr.
  destruct (parse_edges_build _ _ _ Hrun) as (_ & _ & Hall).
  by apply Hall.
Qed.

Lemma occurrences_other_end a b edges :
  a ≠ b →
  occurrences b (flat_map (other_end a) edges) = length (filter (joins a b) edges).
Proof.
  intros Hne. unfold occurrences.
  induction edges as [|[[s d] c] l IH]; [done|].
  cbn [flat_map]. rewrite list.filter_app, length_app, IH, list.filter_cons.
  unfold other_end, joins; simpl.
  destruct (decide (s = a)) as [->|Hs], (decide (d = a)) as [->|Hd]; simpl.
  - rewrite !list.filter_cons, !decide_False by done. simpl.
    rewrite decide_False; [done|]. naive_solver.
  - rewrite list.filter_cons. destruct (decide (d = b)) as [->|Hdb]; simpl.
    + rewrite decide_True by (by left). done.
    + rewrite decide_False; [done|]. naive_solver.
  - rewrite list.filter_cons. destruct (decide (s = b)) as [->|Hsb]; simpl.
    + rewrite decide_True by (by right). done.
    + rewrite decide_False; [done|]. naive_solver.
  - rewrite decide_False; [done|]. naive_solver.
Qed.

Lemma joins_count_sym a b (edges : list edge) :
  length (filter (joins a b) edges) = length (filter (joins b a) edges).
Proof.
  induction edges as [|e l IH]; [done|]. rewrite !list.filter_cons.
  unfold joins in *.
  destruct (decide _) as [H1|H1], (decide _) as [H2|H2]; simpl; try done;
    try (by f_equal); exfalso; naive_solver.
Qed.

Lemma parsed_symmetric routerNames edges rs a b ra rb :
  input_parser routerNames edges = Ok rs →
  store rs !! a = Some ra → store rs !! b = Some rb → a ≠ b →
  occurrences b (neighbours ra) = length (filter (joins a b) edges) ∧
  occurrences a (neighbours rb) = occurrences b (neighbours ra) ∧
  cost (tget (rtable ra) b) = cost (tget (rtable rb) a) ∧
  (cost (tget (rtable ra) b) ≠ Inf →
   hop (tget (rtable ra) b) = b ∧ b ∈ neighbours ra).
Proof.
  intros Hp Ha Hb Hne.
  destruct (parsed_router_spec _ _ _ _ _ Hp Ha) as (_ & _ & _ & _ & Hna & Hta).
  destruct (parsed_router_spec _ _ _ _ _ Hp Hb) as (_ & _ & _ & _ & Hnb & Htb).
  rewrite Hna, Hnb, Hta, Htb.
  rewrite !occurrences_other_end by done.
  split; [done|]. split; [apply joins_count_sym|].
  unfold parsed_entry. rewrite !decide_False by done.
  rewrite (last_cost_sym b a). split.
  - by destruct (last_cost a b edges).
  - destruct (last_cost a b edges) as [c|] eqn:Hc; [|done]. intros _.
    split; [done|].
    assert (0 < occurrences b (flat_map (other_end a) edges))%nat as Hpos.
    { rewrite occurrences_other_end by done.
      apply last_cost_elem in Hc as (e & Hin & Hj & _).
      assert (e ∈ filter (joins a b) edges) as Hf by by apply list_elem_of_filter.
      destruct (filter (joins a b) edges); [by apply elem_of_nil in Hf|simpl; lia]. }
    unfold occurrences in Hpos.
    destruct (filter (λ y, y = b) (flat_map (other_end a) edges)) as [|y l] eqn:Hf;
      [simpl in Hpos; lia|].
    assert (y ∈ filter (λ y, y = b) (flat_map (other_end a) edges)) as Hy.
    { rewrite Hf. apply list_elem_of_here. }
    apply list_elem_of_filter in Hy as [-> Hy]. done.
Qed.

(** X3: initialisation is symmetric.  For two different routers of the
    parsed network, each lists the other as neighbour as often as edge lines
    join them, both tables hold the same cost for the other, and a finite
    cost comes with the other router itself as next hop. *)
Theorem input_parser_symmetric routerNames edges rs a b ra rb :
  input_parser routerNames edges = Ok rs →
  store rs !! a = Some ra → store rs !! b = Some rb → a ≠ b →
  occurrences b (neighbours ra) = length (filter (joins a b) edges) ∧
  occurrences a (neighbours rb) = occurrences b (neighbours ra) ∧
  cost (tget (rtable ra) b) = cost (tget (rtable rb) a) ∧
  (cost (tget (rtable ra) b) ≠ Inf →
   hop (tget (rtable ra) b) = b ∧ b ∈ neighbours ra).
Proof.
  intros Hp Ha Hb Hne.
  destruct (parsed_symmetric _ _ _ _ _ _ _ Hp Ha Hb Hne) as (Hocc & Hsym & Hcost & Hhop).
  repeat split; try done; by apply Hhop.
Qed.

Lemma input_parser_symmetric_witness :
  cost (tget (rtable (router_of line_net "A")) "B") =
  cost (tget (rtable (router_of line_net "B")) "A").
Proof.
  apply (input_parser_symmetric ["A"; "B"; "C"] [("A", "B", 1); ("B", "C", 1)]
           line_net "A" "B" (router_of line_net "A") (router_of line_net "B")).
  - vm_compute. reflexivity.
  - vm_compute. reflexivity.
  - vm_compute. reflexivity.
  - discriminate.
Defined.

(** ** Sending, exactly *)

Lemma foldM_first_bad {A B : Type} (P : B → Prop) (good : A → Prop)
    `{!∀ x, Decision (good x)} (f : B → A → result B) (e : exn) (l : list A) :
  (∀ b x, P b → good x → ∃ b', f b x = Ok b' ∧ P b') →
  (∀ b x, P b → ¬ good x → f b x = Raise e) →
  ∀ b, P b → Exists (λ x, ¬ good x) l → foldM f l b = Raise e.
Proof.
  intros Hgood Hbad. induction l as [|x l IH]; intros b Hb Hex; simpl.
  - by apply Exists_nil in Hex.
  - destruct (decide (good x)) as [Hx|Hx].
    + destruct (Hgood b x Hb Hx) as (b' & -> & Hb'). simpl.
      apply IH; [done|]. apply Exists_cons in Hex as [?|?]; done.
    + by rewrite (Hbad b x Hb Hx).
Qed.

Lemma queues_grown_refl rs : queues_grown rs (λ _, []) rs.
Proof.
  split; [done|]. intros n. destruct (store rs !! n) as [r|]; simpl; [|done].
  by rewrite app_nil_r, set_queue_same.
Qed.

Lemma queues_grown_ext rs E E' rs' :
  (∀ n, E n = E' n) → queues_grown rs E rs' → queues_grown rs E' rs'.
Proof. intros Heq [Hk Hq]. split; [done|]. intros n. by rewrite Hq, Heq. Qed.

Lemma queues_grown_lookup rs E rs' n :
  queues_grown rs E rs' → is_Some (store rs' !! n) ↔ is_Some (store rs !! n).
Proof. intros [_ Hq]. rewrite Hq. by rewrite fmap_is_Some. Qed.

Lemma send_grows rs E rs' s rS nhbr :
  queues_grown rs E rs' → store rs !! s = Some rS →
  match store rs !! nhbr with
  | Some _ =>
      ∃ rs'', send s rs' nhbr = Ok rs'' ∧
              queues_grown rs (λ n, E n ++ if decide (nhbr = n)
                                           then [(rtable rS, s)] else []) rs''
  | None => send s rs' nhbr = Raise KeyError
  end.
Proof.
  intros [Hk Hq] Hs. unfold send, dict_get.
  rewrite (Hq s), Hs; simpl. rewrite (Hq nhbr).
  destruct (store rs !! nhbr) as [rN|] eqn:HN; simpl; [|done].
  eexists. split; [done|]. split; [done|]. intros n. simpl.
  destruct (decide (nhbr = n)) as [<-|Hne].
  - rewrite lookup_insert_eq, HN. simpl. unfold push; simpl.
    by rewrite app_assoc.
  - rewrite lookup_insert_ne by done. rewrite Hq. by rewrite app_nil_r.
Qed.

Lemma sent_by_snoc (t : table) (s n : string) (pre : list string) (x : string) :
  (λ _, (t, s)) <$> filter (λ y, y = n) (pre ++ [x]) =
  ((λ _ : string, (t, s)) <$> filter (λ y, y = n) pre) ++
  (if decide (x = n) then [(t, s)] else []).
Proof.
  rewrite list.filter_app, fmap_app. f_equal.
  rewrite list.filter_cons. by case_decide.
Qed.

Lemma add_to_queue_grows rs E rs' s :
  queues_grown rs E rs' →
  if decide (can_send rs s)
  then ∃ rs'', add_to_queue rs' s = Ok rs'' ∧
               queues_grown rs (λ n, E n ++ sent_by rs n s) rs''
  else add_to_queue rs' s = Raise KeyError.
Proof.
  intros Hg. destruct (decide (can_send rs s)) as [Hall|Hall];
    unfold can_send in Hall; unfold add_to_queue, dict_get, sent_by;
    pose proof Hg as [Hk Hq]; rewrite (Hq s);
    destruct (store rs !! s) as [rS|] eqn:Hs; simpl; try done.
  - destruct (foldM_total_prefix
                (λ pre b, queues_grown rs
                            (λ n, E n ++ ((λ _, (rtable rS, s)) <$>
                                            filter (λ y, y = n) pre)) b)
                (send s) (neighbours rS)) with (pre := @nil string) (b := rs')
      as (rs'' & Hrun & Hfin).
    + intros pre x b Hx Hb.
      pose proof (send_grows rs _ b s rS x Hb Hs) as Hsend.
      rewrite list.Forall_forall in Hall. destruct (Hall x Hx) as [rN HN].
      rewrite HN in Hsend. destruct Hsend as (b' & Hb' & Hg').
      exists b'. split; [done|].
      eapply queues_grown_ext; [|exact Hg']. intros n. simpl.
      by rewrite sent_by_snoc, app_assoc.
    + eapply queues_grown_ext; [|exact Hg]. intros n. simpl.
      by rewrite app_nil_r.
    + exists rs''. by split.
  - apply (foldM_first_bad (λ b, ∃ E', queues_grown rs E' b)
             (λ m, is_Some (store rs !! m))).
    + intros b x [E' Hb] [rN HN].
      pose proof (send_grows rs _ b s rS x Hb Hs) as Hsend.
      rewrite HN in Hsend. destruct Hsend as (b' & Hb' & Hg').
      exists b'. split; [done|]. by eexists.
    + intros b x [E' Hb] Hnone.
      pose proof (send_grows rs _ b s rS x Hb Hs) as Hsend.
      destruct (store rs !! x); [|done]. exfalso. apply Hnone. by eexists.
    + by exists E.
    + apply (not_Forall_Exists (λ m, is_Some (store rs !! m))) in Hall.
      eapply Exists_impl; [|exact Hall]. by simpl.
Qed.

Lemma send_all_exact rs :
  (closed rs →
   ∃ rs1, send_all rs = Ok rs1 ∧ keys rs1 = keys rs ∧
          ∀ n, store rs1 !! n =
               (λ r, set_queue r (queue r ++ inbox rs n)) <$> store rs !! n) ∧
  (¬ closed rs → send_all rs = Raise KeyError).
Proof.
  unfold send_all, closed, inbox. split.
  - intros Hall.
    destruct (foldM_total_prefix
                (λ pre b, queues_grown rs (λ n, flat_map (sent_by rs n) pre) b)
                add_to_queue (keys rs)) with (pre := @nil string) (b := rs)
      as (rs1 & Hrun & Hk & Hq).
    + intros pre x b Hx Hb.
      pose proof (add_to_queue_grows rs _ b x Hb) as Hadd.
      rewrite list.Forall_forall in Hall.
      rewrite decide_True in Hadd by by apply Hall.
      destruct Hadd as (b' & Hb' & Hg'). exists b'. split; [done|].
      eapply queues_grown_ext; [|exact Hg']. intros n. simpl.
      rewrite flat_map_app. simpl. by rewrite app_nil_r.
    + apply queues_grown_refl.
    + exists rs1. by repeat split.
  - intros Hnot.
    apply (foldM_first_bad (λ b, ∃ E', queues_grown rs E' b) (can_send rs)).
    + intros b x [E' Hb] Hx.
      pose proof (add_to_queue_grows rs _ b x Hb) as Hadd.
      rewrite decide_True in Hadd by done.
      destruct Hadd as (b' & Hb' & Hg'). exists b'. split; [done|]. by eexists.
    + intros b x [E' Hb] Hx.
      pose proof (add_to_queue_grows rs _ b x Hb) as Hadd.
      by rewrite decide_False in Hadd.
    + eexists. apply queues_grown_refl.
    + apply (not_Forall_Exists (can_send rs)) in Hnot.
      eapply Exists_impl; [|exact Hnot]. by simpl.
Qed.

(** ** The barrier *)

Lemma length_flat_map {A B : Type} (f : A → list B) (l : list A) :
  length (flat_map f l) = sum_list_with (λ x, length (f x)) l.
Proof.
  induction l as [|x l IH]; simpl; [done|]. by rewrite length_app, IH.
Qed.

Lemma occurrences_cons x y l :
  occurrences x (y :: l) = ((if decide (y = x) then 1 else 0) + occurrences x l)%nat.
Proof. unfold occurrences. rewrite list.filter_cons. by case_decide. Qed.

Lemma sum_indicator (y : string) (ks : list string) :
  NoDup ks → y ∈ ks →
  sum_list_with (λ s, if decide (y = s) then 1%nat else 0%nat) ks = 1%nat.
Proof.
  induction ks as [|k ks IH]; intros Hnd Hin; [by apply elem_of_nil in Hin|].
  pose proof (NoDup_cons_1_1 _ _ Hnd) as Hk. apply NoDup_cons_1_2 in Hnd.
  simpl. apply elem_of_cons in Hin as [->|Hin].
  - rewrite decide_True by done.
    assert (sum_list_with (λ s, if decide (k = s) then 1%nat else 0%nat) ks = 0%nat)
      as ->; [|done].
    clear IH Hnd. induction ks as [|k' ks IH]; [done|]. simpl.
    rewrite decide_False by (intros ->; apply Hk, list_elem_of_here).
    apply IH. intros Hin. apply Hk. by apply list_elem_of_further.
  - rewrite decide_False by (by intros ->). by rewrite IH.
Qed.

(** Summed over distinct keys that cover the list, the occurrences are the
    length. *)
Lemma sum_occurrences (ks l : list string) :
  NoDup ks → (∀ x, x ∈ l → x ∈ ks) →
  sum_list_with (λ s, occurrences s l) ks = length l.
Proof.
  intros Hnd. induction l as [|y l IH]; intros Hsub; simpl.
  - clear. induction ks as [|k ks IHk]; [done|]. simpl. apply IHk.
  - assert (sum_list_with (λ s, occurrences s (y :: l)) ks =
            (sum_list_with (λ s, if decide (y = s) then 1%nat else 0%nat) ks +
             sum_list_with (λ s, occurrences s l) ks)%nat) as ->.
    { clear. induction ks as [|k ks IHk]; [done|]. simpl.
      rewrite occurrences_cons, IHk. lia. }
    rewrite (sum_indicator y ks Hnd) by apply Hsub, list_elem_of_here.
    rewrite IH; [done|]. intros x Hx. by apply Hsub, list_elem_of_further.
Qed.

Lemma length_sent_by rs n s r :
  store rs !! s = Some r → length (sent_by rs n s) = occurrences n (neighbours r).
Proof. intros Hs. unfold sent_by, occurrences. by rewrite Hs, length_fmap. Qed.

Lemma wired_closed rs : wired rs → closed rs.
Proof.
  intros (_ & Hdom & Hnb & _). unfold closed. apply list.Forall_forall.
  intros s [r Hr]%Hdom. unfold can_send. rewrite Hr.
  apply list.Forall_forall. intros m Hm. by eapply Hnb.
Qed.

(** In a wired network every router is sent as many messages as it has
    neighbours. *)
Lemma wired_inbox_length rs n r :
  wired rs → store rs !! n = Some r →
  length (inbox rs n) = length (neighbours r).
Proof.
  intros (Hnd & Hdom & Hnb & Hsym) Hn. unfold inbox.
  rewrite length_flat_map.
  rewrite <-(sum_occurrences (keys rs) (neighbours r) Hnd).
  - assert (∀ ks, (∀ s, s ∈ ks → is_Some (store rs !! s)) →
              sum_list_with (λ x, length (sent_by rs n x)) ks =
              sum_list_with (λ s, occurrences s (neighbours r)) ks) as Hgen.
    { induction ks as [|k ks IH]; intros Hall; [done|]. simpl.
      destruct (Hall k (list_elem_of_here _ _)) as [rk Hrk].
      rewrite (length_sent_by rs n k rk Hrk), (Hsym k n rk r Hrk Hn).
      rewrite IH; [done|]. intros s Hs. by apply Hall, list_elem_of_further. }
    apply Hgen. intros s Hs. by apply Hdom.
  - intros x Hx. apply Hdom. by eapply Hnb.
Qed.

Lemma threaded_keeps universe r :
  name (final (threaded universe r)) = name r ∧
  neighbours (final (threaded universe r)) = neighbours r ∧
  iterations (final (threaded universe r)) = S (iterations r).
Proof.
  pose proof (threaded_cases universe r) as Hc.
  destruct (blocked_queue _ _ _ _).
  - destruct Hc as [e ->]. done.
  - destruct Hc as (tc & r' & _ & -> & _ & _ & Hn & Hnb & _ & Hit & _). done.
Qed.

Lemma round_step_keeps rs rs' n :
  round_step rs rs' →
  match store rs !! n with
  | None => store rs' !! n = None
  | Some r => ∃ r', store rs' !! n = Some r' ∧ name r' = name r ∧
                    neighbours r' = neighbours r ∧
                    iterations r' = S (iterations r)
  end.
Proof.
  intros Hstep. pose proof (round_step_router rs rs' n Hstep) as Hn.
  destruct (store rs !! n) as [r|]; [|done].
  destruct Hn as (q & _ & ->). eexists. split; [done|].
  apply (threaded_keeps (keys rs) (set_queue r q)).
Qed.

Lemma wired_round_step rs rs' : wired rs → round_step rs rs' → wired rs'.
Proof.
  intros (Hnd & Hdom & Hnb & Hsym) Hstep.
  pose proof Hstep as (_ & Hkeys & _).
  assert (∀ n r', store rs' !! n = Some r' →
            ∃ r, store rs !! n = Some r ∧ neighbours r' = neighbours r) as Hback.
  { intros n r' Hr'. pose proof (round_step_keeps rs rs' n Hstep) as Hn.
    destruct (store rs !! n) as [r|]; [|congruence].
    destruct Hn as (r0 & Hr0 & _ & Hnb0 & _). exists r. split; [done|]. congruence. }
  assert (∀ n, is_Some (store rs !! n) → is_Some (store rs' !! n)) as Hfwd.
  { intros n [r Hr]. pose proof (round_step_keeps rs rs' n Hstep) as Hn.
    rewrite Hr in Hn. destruct Hn as (r0 & -> & _). by eexists. }
  split; [by rewrite Hkeys|]. split; [|split].
  - intros n. rewrite Hkeys, Hdom. split; [apply Hfwd|].
    intros [r' Hr']. destruct (Hback n r' Hr') as (r & -> & _). by eexists.
  - intros a ra m Ha Hm. destruct (Hback a ra Ha) as (r & Hr & Heq).
    rewrite Heq in Hm. by apply Hfwd, (Hnb a r m).
  - intros a b ra rb Ha Hb.
    destruct (Hback a ra Ha) as (ra0 & Hra0 & ->).
    destruct (Hback b rb Hb) as (rb0 & Hrb0 & ->).
    by apply Hsym.
Qed.

Lemma wired_input_parser routerNames edges rs :
  input_parser routerNames edges = Ok rs → wired rs.
Proof.
  intros Hp. destruct (parsed_keys_spec _ _ _ Hp) as (Hnd & _ & Hdom & _).
  pose proof (net_ok_input_parser _ _ _ Hp) as (_ & _ & Hsym).
  split; [done|]. split; [done|]. split.
  - intros a ra m Ha Hm. destruct (Hsym a ra m Ha Hm) as (r' & -> & _). by eexists.
  - intros a b ra rb Ha Hb. destruct (decide (a = b)) as [->|Hne].
    + congruence.
    + by destruct (parsed_symmetric _ _ _ a b ra rb Hp Ha Hb Hne)
        as (_ & -> & _).
Qed.

Lemma wired_reachable routerNames edges rs0 rs :
  input_parser routerNames edges = Ok rs0 → reachable rs0 rs → wired rs.
Proof.
  intros Hp. induction 1 as [|rs rs' _ IH Hstep].
  - by eapply wired_input_parser.
  - by eapply wired_round_step.
Qed.

(** X5: the barrier of lines 116-118 never blocks.  After [input_parser]
    and after any number of iterations whose threads all ended normally
    (every queue is empty), no thread raises while sending, and every queue
    then holds exactly as many messages as its router has neighbours: the
    next iteration runs to its end. *)
Theorem next_iteration_runs routerNames edges rs0 rs :
  input_parser routerNames edges = Ok rs0 →
  reachable rs0 rs →
  (∀ n r, store rs !! n = Some r → queue r = []) →
  (∃ rs1, send_all rs = Ok rs1 ∧
          ∀ n r, store rs1 !! n = Some r →
                 length (queue r) = length (neighbours r)) ∧
  round_step rs (run_round rs).
Proof.
  intros Hp Hreach Hempty.
  pose proof (wired_reachable _ _ _ _ Hp Hreach) as Hw.
  destruct (proj1 (send_all_exact rs) (wired_closed rs Hw))
    as (rs1 & Hsend & Hkeys & Hq).
  assert (∀ n r, store rs1 !! n = Some r →
                 length (queue r) = length (neighbours r)) as Hlen.
  { intros n r. rewrite Hq. destruct (store rs !! n) as [r0|] eqn:Hr0; [|done].
    simpl. intros [= <-]. simpl.
    rewrite (Hempty n r0 Hr0). simpl. by apply wired_inbox_length. }
  split; [by exists rs1|].
  split; [done|]. unfold run_round. rewrite Hsend. split; [done|].
  exists rs1. split; [done|]. intros n. simpl. rewrite lookup_fmap.
  destruct (store rs1 !! n) as [r|] eqn:Hr; simpl; [|done].
  exists (queue r). split; [done|]. split; [by eapply Hlen|].
  by rewrite set_queue_same.
Qed.

Lemma next_iteration_runs_witness : round_step line_net (run_round line_net).
Proof.
  apply (next_iteration_runs ["A"; "B"; "C"] [("A", "B", 1); ("B", "C", 1)]
           line_net line_net).
  - vm_compute. reflexivity.
  - apply reach_init.
  - intros n r Hr.
    assert (Forall (λ kv : string * Router, queue kv.2 = [])
                   (map_to_list (store line_net))) as Hall.
    { apply (bool_decide_unpack _). vm_compute. exact I. }
    rewrite list.Forall_forall in Hall.
    apply (Hall (n, r)). by apply elem_of_map_to_list.
Defined.

(** ** Iteration counts and change marks *)

Lemma reachable_in_reachable rs0 k rs : reachable_in rs0 k rs → reachable rs0 rs.
Proof.
  induction 1 as [|k rs rs' _ IH Hstep]; [apply reach_init|].
  by eapply reach_step.
Qed.

Lemma reachable_reachable_in rs0 rs : reachable rs0 rs → ∃ k, reachable_in rs0 k rs.
Proof.
  induction 1 as [|rs rs' _ [k IH] Hstep]; [exists 0%nat; apply reach_in_0|].
  exists (S k). by eapply reach_in_S.
Qed.

(** X6: [iterations] counts the iterations of the main loop: after [k] of
    them every router's count is [k], whether its threads ended normally or
    died, and every router is still stored under its own name. *)
Theorem iterations_count routerNames edges rs0 k rs n r :
  input_parser routerNames edges = Ok rs0 →
  reachable_in rs0 k rs →
  store rs !! n = Some r →
  iterations r = k ∧ name r = n.
Proof.
  intros Hp Hreach. revert n r.
  induction Hreach as [|k rs rs' _ IH Hstep]; intros n r Hr.
  - by destruct (parsed_router_spec _ _ _ _ _ Hp Hr) as (-> & _ & -> & _).
  - pose proof (round_step_keeps rs rs' n Hstep) as Hn.
    destruct (store rs !! n) as [r0|] eqn:Hr0; [|congruence].
    destruct Hn as (r' & Hr' & Hname & _ & Hit).
    assert (r' = r) as -> by congruence.
    destruct (IH n r0 Hr0) as [<- <-]. done.
Qed.

Lemma iterations_count_witness :
  iterations (router_of (run_round (run_round line_net)) "B") = 2%nat.
Proof.
  apply (iterations_count ["A"; "B"; "C"] [("A", "B", 1); ("B", "C", 1)]
           line_net 2 (run_round (run_round line_net)) "B").
  - vm_compute. reflexivity.
  - apply (reach_in_S _ 1 (run_round line_net)).
    + apply (reach_in_S _ 0 line_net); [apply reach_in_0|].
      apply run_round_step. vm_compute. reflexivity.
    + apply run_round_step. vm_compute. reflexivity.
  - vm_compute. reflexivity.
Defined.

Lemma threaded_marks universe r :
  marks_ok r →
  marks_ok (final (threaded universe r)) ∧
  ∀ d, changed_mark (final (threaded universe r)) d = true ↔
       view (rtable (final (threaded universe r))) d ≠ view (rtable r) d.
Proof.
  intros Hok. pose proof (threaded_cases universe r) as Hc.
  unfold changed_mark.
  destruct (blocked_queue _ _ _ _).
  - destruct Hc as [e ->]. simpl. split.
    + intros d i Hi. simpl. apply Hok in Hi. lia.
    + intros d. rewrite bool_decide_eq_true. split; [|done].
      intros Hi. apply Hok in Hi. lia.
  - destruct Hc as (tc & r' & _ & -> & Hf & _ & _ & _ & _ & Hit & Ht).
    simpl. split.
    + intros d i. destruct (Ht d) as [_ ->]. rewrite Hit.
      case_decide; [|intros [= <-]; lia]. intros Hi. apply Hok in Hi. lia.
    + intros d. rewrite bool_decide_eq_true.
      destruct (Ht d) as [Htd ->]. rewrite Hit. unfold view. rewrite Htd.
      destruct (Hf d) as [Hk _].
      destruct (decide (tget (rtable r) d = tget tc d)) as [Heq|Hne].
      * rewrite Heq. split; [|done]. intros Hi. apply Hok in Hi. lia.
      * split; [|done]. intros _ Heq. apply Hne.
        destruct (tget (rtable r) d), (tget tc d). simpl in *. congruence.
Qed.

Lemma marks_ok_reachable routerNames edges rs0 rs n r :
  input_parser routerNames edges = Ok rs0 → reachable rs0 rs →
  store rs !! n = Some r → marks_ok r.
Proof.
  intros Hp Hreach. revert n r.
  induction Hreach as [|rs rs' _ IH Hstep]; intros n r Hr.
  - destruct (parsed_router_spec _ _ _ _ _ Hp Hr) as (_ & _ & _ & Ha & _).
    intros d i. by rewrite Ha.
  - pose proof (round_step_router rs rs' n Hstep) as Hn.
    destruct (store rs !! n) as [r0|] eqn:Hr0; [|congruence].
    destruct Hn as (q & _ & Hr'). assert (r = final (threaded (keys rs) (set_queue r0 q)))
      as -> by congruence.
    apply threaded_marks. intros d i. simpl. by apply (IH n r0).
Qed.

(** X7: the '*' of [__str__] marks what the last iteration changed.  Right
    after [input_parser] no destination satisfies the condition of line 55;
    after an iteration a destination satisfies it exactly when the router's
    cost or next hop for it differs from the one before the iteration. *)
Theorem change_mark_is_last_change routerNames edges rs0 :
  input_parser routerNames edges = Ok rs0 →
  (∀ n r d, store rs0 !! n = Some r → changed_mark r d = false) ∧
  ∀ rs rs' n r r',
    reachable rs0 rs → round_step rs rs' →
    store rs !! n = Some r → store rs' !! n = Some r' →
    ∀ d, changed_mark r' d = true ↔ view (rtable r') d ≠ view (rtable r) d.
Proof.
  intros Hp. split.
  - intros n r d Hr.
    destruct (parsed_router_spec _ _ _ _ _ Hp Hr) as (_ & _ & _ & Ha & _).
    unfold changed_mark. by rewrite Ha.
  - intros rs rs' n r r' Hreach Hstep Hr Hr' d.
    pose proof (round_step_router rs rs' n Hstep) as Hn. rewrite Hr in Hn.
    destruct Hn as (q & _ & Hr'').
    assert (r' = final (threaded (keys rs) (set_queue r q))) as -> by congruence.
    apply (threaded_marks (keys rs) (set_queue r q)).
    intros d' i. simpl. by apply (marks_ok_reachable _ _ _ _ _ _ Hp Hreach Hr).
Qed.

Lemma change_mark_is_last_change_witness :
  changed_mark (router_of (run_round line_net) "A") "C" = true ∧
  changed_mark (router_of (run_round line_net) "A") "B" = false ∧
  changed_mark (router_of (run_round (run_round line_net)) "A") "C" = false.
Proof.
  destruct (change_mark_is_last_change ["A"; "B"; "C"]
              [("A", "B", 1); ("B", "C", 1)] line_net) as [_ H].
  { vm_compute. reflexivity. }
  assert (round_step line_net (run_round line_net)) as H1.
  { apply run_round_step. vm_compute. reflexivity. }
  assert (round_step (run_round line_net) (run_round (run_round line_net))) as H2.
  { apply run_round_step. vm_compute. reflexivity. }
  assert (store line_net !! "A" = Some (router_of line_net "A")) as L0
    by (vm_compute; reflexivity).
  assert (store (run_round line_net) !! "A" =
          Some (router_of (run_round line_net) "A")) as L1
    by (vm_compute; reflexivity).
  assert (store (run_round (run_round line_net)) !! "A" =
          Some (router_of (run_round (run_round line_net)) "A")) as L2
    by (vm_compute; reflexivity).
  pose proof (H _ _ _ _ _ (reach_init line_net) H1 L0 L1) as Ha.
  pose proof (H _ _ _ _ _ (reach_step _ _ _ (reach_init line_net) H1) H2 L1 L2) as Hb.
  split; [|split].
  - apply Ha. vm_compute. discriminate.
  - apply not_true_is_false. intros Hm. apply Ha in Hm. apply Hm.
    vm_compute. reflexivity.
  - apply not_true_is_false. intros Hm. apply Hb in Hm. apply Hm.
    vm_compute. reflexivity.
Defined.

(** ** Routes are walks *)

Lemma lwalk_app edges j1 j2 a b d x y :
  lwalk edges j1 a b x → lwalk edges j2 b d y → lwalk edges (j1 + j2) a d (x + y).
Proof.
  induction 1 as [a|j a b' b c z Hne Hc _ IH]; intros Hw; simpl.
  - done.
  - rewrite <-Z.add_assoc. eapply lwalk_link; [done..|]. by apply IH.
Qed.

Lemma routes_ok_ext edges n (t t' : table) :
  (∀ k, tget t' k = tget t k) → routes_ok edges n t → routes_ok edges n t'.
Proof. intros Heq H d. rewrite Heq. apply H. Qed.

Lemma num_add_int a b v :
  num_add a b = Ok (Int v) → ∃ x y, a = Int x ∧ b = Int y ∧ v = x + y.
Proof.
  destruct a as [x|], b as [y|]; simpl.
  - intros [= <-]. by exists x, y.
  - by destruct (fits_double x).
  - by destruct (fits_double y).
  - done.
Qed.

Lemma relax_entry_routes edges n own tbl nm tc d tc' :
  routes_ok edges n own → routes_ok edges nm tbl → routes_ok edges n tc →
  relax_entry own tbl nm tc d = Ok tc' → routes_ok edges n tc'.
Proof.
  intros Hown Htbl Htc Hrun.
  apply relax_entry_ok in Hrun as (_ & _ & _ & Hoth & _ & Hd).
  intros k. destruct (decide (k = d)) as [->|Hne]; [|rewrite Hoth by done; apply Htc].
  destruct Hd as [->|(val & Hcand & Hlt & ->)]; [apply Htc|]. simpl.
  destruct (num_lt_int _ _ Hlt) as [v ->].
  apply num_add_int in Hcand as (x & y & Hx & Hy & ->). simpl in Hx, Hy.
  split; [|done]. intros z [= <-].
  destruct (proj1 (Htbl d) x Hx) as [j1 H1].
  destruct (proj1 (Hown nm) y Hy) as [j2 H2].
  exists (j2 + j1)%nat. rewrite Z.add_comm. by eapply lwalk_app.
Qed.

Lemma relax_queue_routes edges n own universe q tc tc' :
  routes_ok edges n own → routes_ok edges n tc →
  Forall (λ m, routes_ok edges m.2 m.1) q →
  relax_queue own universe q tc = Ok tc' → routes_ok edges n tc'.
Proof.
  intros Hown Htc Hall. unfold relax_queue.
  apply (foldM_inv (routes_ok edges n)); [|done].
  intros b m b' Hm Hb. unfold relax_msg.
  apply (foldM_inv (routes_ok edges n)); [|done].
  intros b0 d b0' _ Hb0. apply relax_entry_routes; [done| |done].
  by apply (proj1 (list.Forall_forall _ _) Hall).
Qed.

Lemma threaded_routes edges n universe r q :
  routes_ok edges n (rtable r) →
  Forall (λ m, routes_ok edges m.2 m.1) q →
  routes_ok edges n (rtable (final (threaded universe (set_queue r q)))).
Proof.
  intros Hok Hall.
  pose proof (threaded_cases universe (set_queue r q)) as Hc. simpl in Hc.
  destruct (blocked_queue _ _ _ _).
  - destruct Hc as [e ->]. by simpl.
  - destruct Hc as (tc & r' & Hrun & -> & _ & _ & _ & _ & _ & _ & Ht).
    simpl. apply (routes_ok_ext edges n tc); [intros k; apply Ht|].
    by apply (relax_queue_routes edges n (rtable r) universe q (rtable r)).
Qed.

Lemma routes_ok_parsed routerNames edges rs n r :
  input_parser routerNames edges = Ok rs → store rs !! n = Some r →
  routes_ok edges n (rtable r).
Proof.
  intros Hp Hr. destruct (parsed_router_spec _ _ _ _ _ Hp Hr) as (_ & _ & _ & _ & _ & Ht).
  intros d. rewrite Ht. unfold parsed_entry.
  destruct (decide (d = n)) as [->|Hne]; simpl.
  - split; [|done]. intros z [= <-]. exists 0%nat. apply lwalk_here.
  - destruct (last_cost n d edges) as [c|] eqn:Hc; simpl; [|done].
    split; [|done]. intros z [= <-]. exists 1%nat.
    rewrite <-(Z.add_0_r c). apply (lwalk_link edges 0 n d d c 0); [done..|].
    apply lwalk_here.
Qed.

Lemma routes_ok_reachable routerNames edges rs0 rs n r :
  input_parser routerNames edges = Ok rs0 → reachable rs0 rs →
  store rs !! n = Some r → routes_ok edges n (rtable r).
Proof.
  intros Hp Hreach. revert n r.
  induction Hreach as [|rs rs' _ IH Hstep]; intros n r Hr.
  - by eapply routes_ok_parsed.
  - pose proof (round_step_router rs rs' n Hstep) as Hn.
    destruct (store rs !! n) as [r0|] eqn:Hr0; [|congruence].
    destruct Hn as (q & Hq & Hr').
    assert (r = final (threaded (keys rs) (set_queue r0 q))) as -> by congruence.
    apply threaded_routes; [by apply IH|].
    eapply Forall_impl; [|exact Hq]. intros m (rS & HrS & -> & _). by apply IH.
Qed.

(** X8: the simulation never invents a route.  After [input_parser] and
    after any number of iterations, every finite cost in a router's table
    is the total cost of a walk from the router to the destination along
    links of the topology, each link costed by the last edge line that joins
    its ends; a destination no walk leads to keeps the default value
    (inf, '[no path]'). *)
Theorem finite_cost_is_walk routerNames edges rs0 rs n r d :
  input_parser routerNames edges = Ok rs0 →
  reachable rs0 rs →
  store rs !! n = Some r →
  (∀ z, cost (tget (rtable r) d) = Int z → ∃ j, lwalk edges j n d z) ∧
  ((∀ j z, ¬ lwalk edges j n d z) → view (rtable r) d = (Inf, "[no path]")).
Proof.
  intros Hp Hreach Hr.
  pose proof (routes_ok_reachable _ _ _ _ _ _ Hp Hreach Hr d) as [Hfin Hinf].
  split; [done|]. intros Hno. unfold view.
  destruct (cost (tget (rtable r) d)) as [z|] eqn:Hc.
  - destruct (Hfin z eq_refl) as [j Hj]. by destruct (Hno j z).
  - by rewrite (Hinf eq_refl).
Qed.

Lemma finite_cost_is_walk_witness :
  ∃ j, lwalk [("A", "B", 1); ("B", "C", 1)] j "A" "C" 2.
Proof.
  apply (finite_cost_is_walk ["A"; "B"; "C"] [("A", "B", 1); ("B", "C", 1)]
           line_net (run_round line_net) "A"
           (router_of (run_round line_net) "A") "C").
  - vm_compute. reflexivity.
  - apply (reach_step _ line_net); [apply reach_init|].
    apply run_round_step. vm_compute. reflexivity.
  - vm_compute. reflexivity.
  - vm_compute. reflexivity.
Defined.

(** ** Non-negative costs *)

(** When a loop raises, its body raised on a state the invariant holds
    for. *)
Lemma foldM_raise_inv {A B : Type} (P : B → Prop) (f : B → A → result B)
    (l : list A) :
  (∀ b x b', x ∈ l → P b → f b x = Ok b' → P b') →
  ∀ b e, P b → foldM f l b = Raise e →
         ∃ b0 x, x ∈ l ∧ P b0 ∧ f b0 x = Raise e.
Proof.
  induction l as [|x l IH]; intros Hstep b e Hb Hrun; simpl in Hrun; [done|].
  destruct (f b x) as [b1|e1] eqn:Hf; simpl in Hrun.
  - destruct (IH (λ b0 y b0' Hy, Hstep b0 y b0' (list_elem_of_further _ _ _ Hy))
                 b1 e) as (b0 & y & Hy & Hb0 & Hraise); [|done|].
    + eapply Hstep; [apply list_elem_of_here|done..].
    + exists b0, y. split; [by apply list_elem_of_further|done].
  - injection Hrun as ->. exists b, x. split; [apply list_elem_of_here|done].
Qed.

Lemma num_add_raise a b e : num_add a b = Raise e → e = OverflowError.
Proof.
  destruct a as [x|], b as [y|]; simpl; try done.
  - destruct (fits_double x); [done|]. by intros [= <-].
  - destruct (fits_double y); [done|]. by intros [= <-].
Qed.

Lemma num_add_nonneg a b v :
  num_nonneg a → num_nonneg b → num_add a b = Ok v → num_nonneg v.
Proof.
  destruct a as [x|], b as [y|]; simpl; intros Ha Hb.
  - intros [= <-]. simpl. lia.
  - destruct (fits_double x); [by intros [= <-]|done].
  - destruct (fits_double y); [by intros [= <-]|done].
  - by intros [= <-].
Qed.

Lemma costs_nonneg_ext (t t' : table) :
  (∀ k, tget t' k = tget t k) → costs_nonneg t → costs_nonneg t'.
Proof. intros Heq H d. rewrite Heq. apply H. Qed.

Lemma relax_entry_nonneg own tbl nm tc d tc' :
  costs_nonneg own → costs_nonneg tbl → costs_nonneg tc →
  relax_entry own tbl nm tc d = Ok tc' → costs_nonneg tc'.
Proof.
  intros Hown Htbl Htc Hrun.
  apply relax_entry_ok in Hrun as (_ & _ & _ & Hoth & _ & Hd).
  intros k. destruct (decide (k = d)) as [->|Hne]; [|rewrite Hoth by done; apply Htc].
  destruct Hd as [->|(val & Hcand & _ & ->)]; [apply Htc|]. simpl.
  eapply num_add_nonneg; [| |exact Hcand]; [apply Htbl|apply Hown].
Qed.

(** With non-negative costs a step of the relaxation can only raise
    OverflowError: the one tuple of the table holds cost 0, and no
    candidate is below it. *)
Lemma relax_entry_raise_nonneg n nb own tbl nm tc d e :
  table_ok n nb tc → costs_nonneg own → costs_nonneg tbl →
  relax_entry own tbl nm tc d = Raise e → e = OverflowError.
Proof.
  intros (Hself & Hkind & _) Hown Htbl. rewrite relax_entry_unfold.
  destruct (cand own (tbl, nm) d) as [val|e'] eqn:Hcand.
  - destruct (num_lt val (cost (tget tc d))) eqn:Hlt; [|done].
    destruct (kind (tget tc d)) eqn:Hk; [|done]. intros _. exfalso.
    destruct (decide (d = n)) as [->|Hne]; [|by rewrite Hkind in Hk].
    rewrite Hself in Hlt. simpl in Hlt.
    assert (num_nonneg val) as Hnn.
    { eapply num_add_nonneg; [| |exact Hcand]; [apply Htbl|apply Hown]. }
    destruct val as [v|]; simpl in *; [lia|done].
  - intros [= <-]. by apply num_add_raise in Hcand.
Qed.

Lemma relax_queue_nonneg n nb own universe q tc :
  table_ok n nb tc → costs_nonneg own → costs_nonneg tc →
  Forall (λ m, m.2 ∈ nb ∧ costs_nonneg m.1) q →
  match relax_queue own universe q tc with
  | Ok tc' => costs_nonneg tc'
  | Raise e => e = OverflowError
  end.
Proof.
  intros Hok Hown Htc Hall. rewrite list.Forall_forall in Hall.
  assert (∀ m b d b', m ∈ q → table_ok n nb b ∧ costs_nonneg b →
            relax_entry own m.1 m.2 b d = Ok b' →
            table_ok n nb b' ∧ costs_nonneg b') as Hentry.
  { intros m b d b' Hm [Hb1 Hb2] Hrun. destruct (Hall m Hm) as [Hnb Hnn]. split.
    - by eapply relax_entry_table_ok.
    - by apply (relax_entry_nonneg own m.1 m.2 b d b'). }
  assert (∀ m b b', m ∈ q → table_ok n nb b ∧ costs_nonneg b →
            relax_msg own universe b m = Ok b' →
            table_ok n nb b' ∧ costs_nonneg b') as Hmsg.
  { intros m b b' Hm Hb. unfold relax_msg.
    apply (foldM_inv (λ t, table_ok n nb t ∧ costs_nonneg t)); [|done].
    intros b0 d b0' _. by apply Hentry. }
  destruct (relax_queue own universe q tc) as [tc'|e] eqn:Hrun; unfold relax_queue in Hrun.
  - assert (table_ok n nb tc' ∧ costs_nonneg tc') as [_ Hfin]; [|done].
    apply (foldM_inv (λ t, table_ok n nb t ∧ costs_nonneg t)
             (relax_msg own universe) q) with (b := tc); [|by split|done].
    intros b m b' Hm. by apply Hmsg.
  - apply (foldM_raise_inv (λ t, table_ok n nb t ∧ costs_nonneg t)) in Hrun
      as (b0 & m & Hm & Hb0 & Hraise); [| |by split].
    + unfold relax_msg in Hraise.
      apply (foldM_raise_inv (λ t, table_ok n nb t ∧ costs_nonneg t)) in Hraise
        as (b1 & d & _ & [Hb1 _] & Hraise); [| |done].
      * destruct (Hall m Hm) as [_ Hnn].
        by apply (relax_entry_raise_nonneg n nb own m.1 m.2 b1 d e).
      * intros b d b' _. by apply Hentry.
    + intros b m' b' Hm'. by apply Hmsg.
Qed.

Lemma costs_nonneg_parsed routerNames edges rs n r :
  input_parser routerNames edges = Ok rs → Forall (λ e : edge, 0 ≤ e.2) edges →
  store rs !! n = Some r → costs_nonneg (rtable r).
Proof.
  intros Hp Hall Hr.
  destruct (parsed_router_spec _ _ _ _ _ Hp Hr) as (_ & _ & _ & _ & _ & Ht).
  intros d. rewrite Ht. unfold parsed_entry. case_decide; [simpl; lia|].
  destruct (last_cost n d edges) as [c|] eqn:Hc; [|done]. simpl.
  apply last_cost_elem in Hc as (e & Hin & _ & <-).
  rewrite list.Forall_forall in Hall. by apply Hall.
Qed.

Lemma msg_from_neighbour routerNames rs n r m :
  net_ok routerNames rs → store rs !! n = Some r → msg_from rs n m →
  m.2 ∈ neighbours r.
Proof.
  intros (_ & _ & Hsym) Hr (rS & HrS & _ & Hin).
  destruct (Hsym _ _ _ HrS Hin) as (r0 & Hr0 & Hm). congruence.
Qed.

Lemma costs_nonneg_reachable routerNames edges rs0 rs n r :
  input_parser routerNames edges = Ok rs0 → Forall (λ e : edge, 0 ≤ e.2) edges →
  reachable rs0 rs → store rs !! n = Some r → costs_nonneg (rtable r).
Proof.
  intros Hp Hall Hreach. revert n r.
  induction Hreach as [|rs rs' Hreach IH Hstep]; intros n r Hr.
  - by eapply costs_nonneg_parsed.
  - pose proof (net_ok_reachable routerNames rs0 rs
                  (net_ok_input_parser _ _ _ Hp) Hreach) as Hok.
    pose proof (round_step_router rs rs' n Hstep) as Hn.
    destruct (store rs !! n) as [r0|] eqn:Hr0; [|congruence].
    destruct Hn as (q & Hq & Hr').
    assert (r = final (threaded (keys rs) (set_queue r0 q))) as -> by congruence.
    pose proof (threaded_cases (keys rs) (set_queue r0 q)) as Hc. simpl in Hc.
    destruct (blocked_queue _ _ _ _).
    + destruct Hc as [e ->]. simpl. apply (IH _ _ Hr0).
    + destruct Hc as (tc & r' & Hrun & -> & _ & _ & _ & _ & _ & _ & Ht). simpl.
      apply (costs_nonneg_ext tc); [intros k; apply Ht|].
      pose proof (relax_queue_nonneg n (neighbours r0) (rtable r0) (keys rs) q
                    (rtable r0)) as Hnn.
      rewrite Hrun in Hnn.
      apply Hnn; [by apply Hok|apply (IH _ _ Hr0)|apply (IH _ _ Hr0)|].
      eapply Forall_impl; [|exact Hq]. intros m Hm. split.
      * by eapply msg_from_neighbour.
      * destruct Hm as (rS & HrS & -> & _). apply (IH _ _ HrS).
Qed.

(** X9: non-negative edge costs keep every table non-negative, and a
    thread then never dies of the TypeError of line 136: after
    [input_parser] and any number of iterations, every cost is the sentinel
    or at least 0, and on whatever messages its neighbours send a thread
    ends normally or with OverflowError. *)
Theorem nonneg_costs_stay routerNames edges rs0 rs n r :
  input_parser routerNames edges = Ok rs0 →
  Forall (λ e : edge, 0 ≤ e.2) edges →
  reachable rs0 rs →
  store rs !! n = Some r →
  (∀ d, num_nonneg (cost (tget (rtable r) d))) ∧
  ∀ q e r', Forall (msg_from rs n) q →
            threaded (keys rs) (set_queue r q) = Died e r' → e = OverflowError.
Proof.
  intros Hp Hall Hreach Hr.
  pose proof (costs_nonneg_reachable _ _ _ _ _ _ Hp Hall Hreach Hr) as Hnn.
  split; [done|]. intros q e r' Hq Hdied.
  pose proof (net_ok_reachable routerNames rs0 rs
                (net_ok_input_parser _ _ _ Hp) Hreach) as Hok.
  pose proof (relax_queue_nonneg n (neighbours r) (rtable r) (keys rs) q
                (rtable r)) as Hrq.
  unfold threaded in Hdied. simpl in Hdied.
  destruct (relax_queue (rtable r) (keys rs) q (rtable r)) as [tc|e0].
  - by destruct (commit _ _ _ _).
  - injection Hdied as <- _. apply Hrq; [by apply Hok|done..|].
    eapply Forall_impl; [|exact Hq]. intros m Hm. split.
    + by eapply msg_from_neighbour.
    + destruct Hm as (rS & HrS & -> & _).
      by apply (costs_nonneg_reachable _ _ _ _ _ _ Hp Hall Hreach HrS).
Qed.

Lemma nonneg_costs_stay_witness :
  num_nonneg (cost (tget (rtable (router_of (run_round line_net) "A")) "C")).
Proof.
  apply (nonneg_costs_stay ["A"; "B"; "C"] [("A", "B", 1); ("B", "C", 1)]
           line_net (run_round line_net) "A"
           (router_of (run_round line_net) "A")).
  - vm_compute. reflexivity.
  - apply (bool_decide_unpack _). vm_compute. exact I.
  - apply (reach_step _ line_net); [apply reach_init|].
    apply run_round_step. vm_compute. reflexivity.
  - vm_compute. reflexivity.
Defined.

(** ** The relaxation computes a minimum *)

Lemma nmin_le_r a b : num_le (nmin a b) b.
Proof.
  unfold nmin. destruct (num_lt b a) eqn:H; [apply num_le_refl|].
  destruct a as [x|], b as [y|]; simpl in *; try done. lia.
Qed.

Lemma best_le_cand own q k c m v :
  m ∈ q → cand own m k = Ok v → num_le (best own q k c) v.
Proof.
  unfold best. revert c. induction q as [|m' q IH]; intros c Hm Hv.
  - by apply elem_of_nil in Hm.
  - simpl. apply elem_of_cons in Hm as [->|Hm]; [|by apply IH].
    rewrite Hv. simpl. eapply num_le_trans; [apply best_le|apply nmin_le_r].
Qed.

Lemma best_attained own q k c :
  best own q k c = c ∨ ∃ m, m ∈ q ∧ cand own m k = Ok (best own q k c).
Proof.
  unfold best. revert c. induction q as [|m q IH]; intros c; simpl; [by left|].
  destruct (IH (cmin c (cand own m k))) as [Heq|(m' & Hm' & Hc)].
  - rewrite Heq. destruct (cand own m k) as [v|e] eqn:Hv; simpl; [|by left].
    unfold nmin. destruct (num_lt v c); [|by left].
    right. exists m. split; [apply list_elem_of_here|done].
  - right. exists m'. split; [by apply list_elem_of_further|done].
Qed.

Lemma blocked_queue_false own universe tc q m d :
  blocked_queue own universe tc q = false → m ∈ q → d ∈ universe →
  ∃ v, cand own m d = Ok v.
Proof.
  unfold blocked_queue, blocked_msg. intros Hb Hm Hd.
  destruct (cand own m d) as [v|e] eqn:Hc; [by eexists|]. exfalso.
  assert (existsb (λ m0, existsb (blocked own tc m0) universe) q = true) as Ht;
    [|congruence].
  apply existsb_exists. exists m. split; [by apply list_elem_of_In|].
  apply existsb_exists. exists d. split; [by apply list_elem_of_In|].
  unfold blocked. by rewrite Hc.
Qed.

Lemma relax_queue_outside own universe q tc tc' k :
  relax_queue own universe q tc = Ok tc' → k ∉ universe → tget tc' k = tget tc k.
Proof.
  intros Hrun Hk. revert Hrun. unfold relax_queue.
  apply (foldM_inv (λ t, tget t k = tget tc k)); [|done].
  intros b m b' _ Hb. unfold relax_msg.
  apply (foldM_inv (λ t, tget t k = tget tc k)); [|done].
  intros b0 d b0' Hd Hb0 Hstep.
  apply relax_entry_ok in Hstep as (_ & _ & _ & Hoth & _).
  rewrite Hoth; [done|]. by intros ->.
Qed.

Lemma threaded_minimum universe r r' d :
  threaded universe r = Done r' →
  (d ∉ universe → tget (rtable r') d = tget (rtable r) d) ∧
  (d ∈ universe →
   num_le (cost (tget (rtable r') d)) (cost (tget (rtable r) d)) ∧
   (∀ m, m ∈ queue r →
         ∃ v, num_add (cost (tget m.1 d)) (cost (tget (rtable r) m.2)) = Ok v ∧
              num_le (cost (tget (rtable r') d)) v) ∧
   (cost (tget (rtable r') d) = cost (tget (rtable r) d) ∨
    ∃ m, m ∈ queue r ∧
         num_add (cost (tget m.1 d)) (cost (tget (rtable r) m.2)) =
           Ok (cost (tget (rtable r') d)))).
Proof.
  intros Hdone. pose proof (threaded_cases universe r) as Hc.
  destruct (blocked_queue (rtable r) universe (rtable r) (queue r)) eqn:Hb.
  { destruct Hc as [e He]. congruence. }
  destruct Hc as (tc & r0 & Hrun & Hth & _ & Hcost & _ & _ & _ & _ & Ht).
  assert (r0 = r') as -> by congruence. split.
  - intros Hd. destruct (Ht d) as [-> _]. by eapply relax_queue_outside.
  - intros Hd. destruct (Ht d) as [-> _]. rewrite Hcost, decide_True by done.
    split; [apply best_le|]. split.
    + intros m Hm.
      destruct (blocked_queue_false _ _ _ _ m d Hb Hm Hd) as [v Hv].
      exists v. split; [done|]. by apply best_le_cand with (m := m).
    + apply best_attained.
Qed.

(** X10: what a thread that ends normally leaves is the Bellman-Ford
    minimum.  For a router of the universe, the new cost is at most the old
    cost and at most every candidate (the sender's cost for the destination
    plus the router's old cost for the sender), no candidate raised, and the
    new cost is the old cost or one of the candidates; a destination outside
    the universe keeps its value. *)
Theorem relaxation_is_minimum universe r r' d :
  threaded universe r = Done r' →
  (d ∉ universe → tget (rtable r') d = tget (rtable r) d) ∧
  (d ∈ universe →
   num_le (cost (tget (rtable r') d)) (cost (tget (rtable r) d)) ∧
   (∀ m, m ∈ queue r →
         ∃ v, num_add (cost (tget m.1 d)) (cost (tget (rtable r) m.2)) = Ok v ∧
              num_le (cost (tget (rtable r') d)) v) ∧
   (cost (tget (rtable r') d) = cost (tget (rtable r) d) ∨
    ∃ m, m ∈ queue r ∧
         num_add (cost (tget m.1 d)) (cost (tget (rtable r) m.2)) =
           Ok (cost (tget (rtable r') d)))).
Proof.
  intros Hdone. destruct (threaded_minimum _ _ _ d Hdone) as [Hout Hin]. split.
  - done.
  - intros Hd. destruct (Hin Hd) as (Hle & Hcand & Hatt). by repeat split.
Qed.

Lemma relaxation_is_minimum_witness :
  ∃ v, num_add (cost (tget (msg_of line_net "B").1 "C"))
               (cost (tget (rtable (router_of line_net "A")) "B")) = Ok v ∧
       num_le (cost (tget (rtable (router_of (run_round line_net) "A")) "C")) v.
Proof.
  destruct (relaxation_is_minimum (keys line_net)
              (set_queue (router_of line_net "A") [msg_of line_net "B"])
              (router_of (run_round line_net) "A") "C") as [_ H].
  { vm_compute. reflexivity. }
  destruct H as (_ & H & _).
  { apply (bool_decide_unpack _). vm_compute. exact I. }
  apply (H (msg_of line_net "B")). apply list_elem_of_here.
Defined.

(** ** After k iterations: walks of k+1 links *)

Lemma input_parser_edges_ok routerNames edges rs :
  input_parser routerNames edges = Ok rs → Forall (edge_ok routerNames) edges.
Proof.
  intros Hp. destruct (decide (Forall (edge_ok routerNames) edges)) as [|Hn]; [done|].
  apply (not_Forall_Exists (edge_ok routerNames)) in Hn.
  destruct (parse_edges_reject routerNames edges (make_routers routerNames))
    as [e He]; [apply net_ok_make_routers| |].
  - eapply Exists_impl; [|exact Hn]. by simpl.
  - unfold input_parser in Hp. by rewrite He in Hp.
Qed.

Lemma last_cost_routers routerNames edges rs a b c :
  input_parser routerNames edges = Ok rs → last_cost a b edges = Some c →
  is_Some (store rs !! a) ∧ is_Some (store rs !! b).
Proof.
  intros Hp (e & Hin & Hj & _)%last_cost_elem.
  pose proof (input_parser_edges_ok _ _ _ Hp) as Hall.
  rewrite list.Forall_forall in Hall. destruct (Hall e Hin) as (_ & Hs & Hd).
  pose proof (net_ok_input_parser _ _ _ Hp) as (Hdom & _).
  destruct Hj as [[<- <-]|[<- <-]]; split; by apply Hdom.
Qed.

Lemma lwalk_end_router routerNames edges rs j a d z :
  input_parser routerNames edges = Ok rs → lwalk edges j a d z →
  is_Some (store rs !! a) → is_Some (store rs !! d).
Proof.
  intros Hp. induction 1 as [a|j a b d c z Hne Hc _ IH]; [done|].
  intros _. apply IH. by destruct (last_cost_routers _ _ _ _ _ _ Hp Hc).
Qed.

(** Along the iterations a router keeps its neighbours, and its costs stay
    at or below those [input_parser] left. *)
Lemma reachable_below routerNames edges rs0 rs n r :
  input_parser routerNames edges = Ok rs0 → reachable rs0 rs →
  store rs !! n = Some r →
  ∃ r0, store rs0 !! n = Some r0 ∧ neighbours r = neighbours r0 ∧
        ∀ d, num_le (cost (tget (rtable r) d)) (cost (tget (rtable r0) d)).
Proof.
  intros Hp Hreach. revert n r.
  induction Hreach as [|rs rs' _ IH Hstep]; intros n r Hr.
  - exists r. split; [done|]. split; [done|]. intros d. apply num_le_refl.
  - pose proof (round_step_router rs rs' n Hstep) as Hn.
    destruct (store rs !! n) as [r1|] eqn:Hr1; [|congruence].
    destruct Hn as (q & _ & Hr').
    assert (r = final (threaded (keys rs) (set_queue r1 q))) as -> by congruence.
    destruct (IH n r1 Hr1) as (r0 & Hr0 & Hnb & Hle).
    exists r0. split; [done|]. split.
    + rewrite <-Hnb. apply (threaded_keeps (keys rs) (set_queue r1 q)).
    + intros d. eapply num_le_trans; [|apply Hle].
      apply (threaded_cost_le (keys rs) (set_queue r1 q) d).
Qed.

(** A link of the topology, seen from a router of a reachable state: the
    other end is a neighbour and the cost for it is at most the link's. *)
Lemma reachable_link routerNames edges rs0 rs n r b c :
  input_parser routerNames edges = Ok rs0 → reachable rs0 rs →
  store rs !! n = Some r → n ≠ b → last_cost n b edges = Some c →
  b ∈ neighbours r ∧ ∃ y, cost (tget (rtable r) b) = Int y ∧ y ≤ c.
Proof.
  intros Hp Hreach Hr Hne Hc.
  destruct (reachable_below _ _ _ _ _ _ Hp Hreach Hr) as (r0 & Hr0 & Hnb & Hle).
  destruct (last_cost_routers _ _ _ _ _ _ Hp Hc) as [_ [rb Hrb]].
  destruct (parsed_router_spec _ _ _ _ _ Hp Hr0) as (_ & _ & _ & _ & _ & Ht).
  destruct (parsed_symmetric _ _ _ n b r0 rb Hp Hr0 Hrb Hne)
    as (_ & _ & _ & Hfin).
  specialize (Hle b). rewrite Ht in Hle, Hfin. unfold parsed_entry in Hle, Hfin.
  rewrite decide_False, Hc in Hle, Hfin by (by intros ->). simpl in Hle, Hfin.
  split; [rewrite Hnb; by apply Hfin|].
  destruct (cost (tget (rtable r) b)) as [y|]; [|done]. by exists y.
Qed.

(** With the wiring of [input_parser], an iteration gives every router a
    queue that is a permutation of its inbox. *)
Lemma round_step_exact rs rs' n r :
  wired rs → round_step rs rs' → store rs !! n = Some r →
  ∃ q, q ≡ₚ inbox rs n ∧
       store rs' !! n = Some (final (threaded (keys rs) (set_queue r q))).
Proof.
  intros Hw (Hempty & _ & rs1 & Hsend & Hrun) Hr.
  destruct (proj1 (send_all_exact rs) (wired_closed rs Hw))
    as (rs1' & Hsend' & _ & Hq).
  assert (rs1' = rs1) as -> by congruence.
  specialize (Hrun n). rewrite Hq, Hr in Hrun. simpl in Hrun.
  destruct Hrun as (q & Hperm & _ & Hr'). simpl in Hperm.
  rewrite (Hempty n r Hr) in Hperm. by exists q.
Qed.

Lemma inbox_has_neighbour rs n r b rb :
  wired rs → store rs !! n = Some r → store rs !! b = Some rb →
  b ∈ neighbours r → (rtable rb, b) ∈ inbox rs n.
Proof.
  intros (_ & Hdom & _ & Hsym) Hr Hrb Hb. unfold inbox.
  apply list_elem_of_In, in_flat_map. exists b. split.
  - apply list_elem_of_In, Hdom. by eexists.
  - apply list_elem_of_In. unfold sent_by. rewrite Hrb.
    assert (0 < occurrences n (neighbours rb))%nat as Hpos.
    { rewrite (Hsym b n rb r Hrb Hr). unfold occurrences.
      assert (b ∈ filter (λ y, y = b) (neighbours r)) as Hf
        by by apply list_elem_of_filter.
      destruct (filter (λ y, y = b) (neighbours r)); [by apply elem_of_nil in Hf|].
      simpl. lia. }
    unfold occurrences in Hpos.
    destruct (filter (λ y, y = n) (neighbours rb)) as [|y l]; [simpl in Hpos; lia|].
    simpl. apply list_elem_of_here.
Qed.

Lemma threaded_done_of_empty universe r :
  queue r ≠ [] → queue (final (threaded universe r)) = [] →
  ∃ r', threaded universe r = Done r'.
Proof.
  intros Hq Hfin. pose proof (threaded_cases universe r) as Hc.
  destruct (blocked_queue _ _ _ _).
  - destruct Hc as [e He]. rewrite He in Hfin. simpl in Hfin. done.
  - destruct Hc as (tc & r' & _ & -> & _). by eexists.
Qed.

Lemma bound_aux routerNames edges rs0 :
  input_parser routerNames edges = Ok rs0 →
  ∀ k rs, reachable_in rs0 k rs →
    (∀ m rm, store rs !! m = Some rm → queue rm = []) →
    ∀ j n r d w, (j ≤ S k)%nat → store rs !! n = Some r →
                 lwalk edges j n d w →
                 num_le (cost (tget (rtable r) d)) (Int w).
Proof.
  intros Hp k rs Hreach.
  induction Hreach as [|k rs rs' Hreach IH Hstep]; intros Hempty j n r d w Hj Hr Hw.
  - destruct (parsed_router_spec _ _ _ _ _ Hp Hr) as (_ & _ & _ & _ & _ & Ht).
    rewrite Ht. unfold parsed_entry.
    inversion Hw as [a|j' a b d' c z Hne Hc Hsub]; subst.
    + rewrite decide_True by done. simpl. lia.
    + assert (j' = 0%nat) as -> by lia.
      inversion Hsub; subst.
      rewrite decide_False by done. rewrite Hc. simpl. lia.
  - pose proof (reachable_in_reachable _ _ _ Hreach) as Hreach'.
    pose proof (net_ok_reachable routerNames rs0 rs
                  (net_ok_input_parser _ _ _ Hp) Hreach') as Hok.
    pose proof (wired_reachable _ _ _ _ Hp Hreach') as Hwired.
    pose proof Hstep as (Hempty0 & _).
    inversion Hw as [a|j' a b d' c z Hne Hc Hsub]; subst.
    + assert (reachable rs0 rs') as Hreach'' by by eapply reach_step.
      pose proof (net_ok_reachable routerNames rs0 rs'
                    (net_ok_input_parser _ _ _ Hp) Hreach'') as (_ & Htab & _).
      destruct (Htab d r Hr) as [-> _]. simpl. lia.
    + pose proof (round_step_router rs rs' n Hstep) as Hn.
      destruct (store rs !! n) as [r1|] eqn:Hr1; [|congruence]. clear Hn.
      destruct (round_step_exact rs rs' n r1 Hwired Hstep Hr1) as (q & Hperm & Hr').
      assert (r = final (threaded (keys rs) (set_queue r1 q))) as Heq by congruence.
      destruct (reachable_link _ _ _ _ _ _ _ _ Hp Hreach' Hr1 Hne Hc)
        as (Hnb & y & Hy & Hyc).
      assert (is_Some (store rs0 !! n)) as Hn0.
      { destruct (reachable_below _ _ _ _ _ _ Hp Hreach' Hr1) as (r0 & -> & _).
        by eexists. }
      destruct (last_cost_routers _ _ _ _ _ _ Hp Hc) as [_ Hb0].
      pose proof (lwalk_end_router _ _ _ _ _ _ _ Hp Hsub Hb0) as Hd0.
      destruct Hwired as (Hnd & Hdom & Hnbdom & Hsym).
      destruct (Hnbdom n r1 b Hr1 Hnb) as [rb Hrb].
      assert (num_le (cost (tget (rtable rb) d)) (Int z)) as Hbd.
      { apply (IH Hempty0 j' b rb d z); [lia|done..]. }
      assert ((rtable rb, b) ∈ q) as Hin.
      { rewrite Hperm. by apply (inbox_has_neighbour rs n r1 b rb). }
      assert (d ∈ keys rs) as Hdk.
      { apply Hdom.
        pose proof (wired_input_parser _ _ _ Hp) as (_ & Hdom0 & _).
        pose proof (net_ok_input_parser _ _ _ Hp) as (Hnames0 & _).
        destruct Hok as (Hnames & _). by apply Hnames, Hnames0. }
      destruct (threaded_done_of_empty (keys rs) (set_queue r1 q)) as [r2 Hdone].
      { simpl. intros ->. by apply elem_of_nil in Hin. }
      { rewrite <-Heq. by eapply Hempty. }
      assert (r = r2) as -> by (rewrite Heq, Hdone; done).
      destruct (proj2 (threaded_minimum (keys rs) (set_queue r1 q) r2 d Hdone) Hdk)
        as (_ & Hcand & _).
      destruct (Hcand (rtable rb, b) Hin) as (v & Hv & Hle).
      simpl in Hv. eapply num_le_trans; [exact Hle|].
      rewrite Hy in Hv.
      destruct (cost (tget (rtable rb) d)) as [x|]; [|done]. simpl in Hbd, Hv.
      injection Hv as <-. simpl. lia.
Qed.

(** X11: after [k] iterations whose threads all ended normally, a router's
    cost for a destination is at most the cost of every walk of at most
    [k + 1] links from the router to the destination: what is [k + 1] links
    away has been learnt. *)
Theorem cost_within_walks routerNames edges rs0 k rs n r j d w :
  input_parser routerNames edges = Ok rs0 →
  reachable_in rs0 k rs →
  (∀ m rm, store rs !! m = Some rm → queue rm = []) →
  store rs !! n = Some r →
  lwalk edges j n d w → (j ≤ k + 1)%nat →
  num_le (cost (tget (rtable r) d)) (Int w).
Proof.
  intros Hp Hreach Hempty Hr Hw Hj.
  apply (bound_aux routerNames edges rs0 Hp k rs Hreach Hempty j n r d w);
    [lia|done..].
Qed.

Lemma queues_empty_check rs :
  bool_decide (Forall (λ kv : string * Router, queue kv.2 = [])
                      (map_to_list (store rs))) = true →
  ∀ m rm, store rs !! m = Some rm → queue rm = [].
Proof.
  intros Hb%bool_decide_eq_true m rm Hm.
  rewrite list.Forall_forall in Hb. apply (Hb (m, rm)).
  by apply elem_of_map_to_list.
Qed.

Lemma line_walk_A_C : lwalk [("A", "B", 1); ("B", "C", 1)] 2 "A" "C" 2.
Proof.
  apply (lwalk_link _ 1 "A" "B" "C" 1 1); [done|reflexivity|].
  apply (lwalk_link _ 0 "B" "C" "C" 1 0); [done|reflexivity|].
  apply lwalk_here.
Qed.

Lemma cost_within_walks_witness :
  num_le (cost (tget (rtable (router_of (run_round line_net) "A")) "C")) (Int 2).
Proof.
  apply (cost_within_walks ["A"; "B"; "C"] [("A", "B", 1); ("B", "C", 1)]
           line_net 1 (run_round line_net) "A"
           (router_of (run_round line_net) "A") 2 "C" 2).
  - vm_compute. reflexivity.
  - apply (reach_in_S _ 0 line_net); [apply reach_in_0|].
    apply run_round_step. vm_compute. reflexivity.
  - apply queues_empty_check. vm_compute. reflexivity.
  - vm_compute. reflexivity.
  - apply line_walk_A_C.
  - simpl. lia.
Defined.

(** X12: shortest paths.  If [w] is the least cost of all walks from a
    router to a destination and a walk of at most [k + 1] links has that
    cost, then after [k] iterations whose threads all ended normally the
    router's cost for the destination is exactly [w]. *)
Theorem cost_is_shortest routerNames edges rs0 k rs n r j d w :
  input_parser routerNames edges = Ok rs0 →
  reachable_in rs0 k rs →
  (∀ m rm, store rs !! m = Some rm → queue rm = []) →
  store rs !! n = Some r →
  lwalk edges j n d w → (j ≤ k + 1)%nat →
  (∀ j' z, lwalk edges j' n d z → w ≤ z) →
  cost (tget (rtable r) d) = Int w.
Proof.
  intros Hp Hreach Hempty Hr Hw Hj Hleast.
  pose proof (bound_aux routerNames edges rs0 Hp k rs Hreach Hempty j n r d w)
    as Hle.
  pose proof (routes_ok_reachable _ _ _ _ _ _ Hp
                (reachable_in_reachable _ _ _ Hreach) Hr d) as [Hfin _].
  destruct (cost (tget (rtable r) d)) as [z|].
  - destruct (Hfin z eq_refl) as [j' Hj'].
    assert (z ≤ w) by (apply Hle; [lia|done..]).
    assert (w ≤ z) by by eapply Hleast.
    f_equal. lia.
  - exfalso. apply Hle; [lia|done..].
Qed.

(** When every edge costs at least 1, a walk costs at least its number of
    links. *)
Lemma lwalk_cost_links edges j a d z :
  Forall (λ e : edge, 1 ≤ e.2) edges → lwalk edges j a d z → Z.of_nat j ≤ z.
Proof.
  intros Hall. induction 1 as [a|j a b d c z Hne Hc _ IH]; [simpl; lia|].
  apply last_cost_elem in Hc as (e & Hin & _ & <-).
  rewrite list.Forall_forall in Hall. specialize (Hall e Hin). lia.
Qed.

Lemma cost_is_shortest_witness :
  cost (tget (rtable (router_of (run_round line_net) "A")) "C") = Int 2.
Proof.
  apply (cost_is_shortest ["A"; "B"; "C"] [("A", "B", 1); ("B", "C", 1)]
           line_net 1 (run_round line_net) "A"
           (router_of (run_round line_net) "A") 2 "C" 2).
  - vm_compute. reflexivity.
  - apply (reach_in_S _ 0 line_net); [apply reach_in_0|].
    apply run_round_step. vm_compute. reflexivity.
  - apply queues_empty_check. vm_compute. reflexivity.
  - vm_compute. reflexivity.
  - apply line_walk_A_C.
  - simpl. lia.
  - intros j' z Hw.
    assert (Z.of_nat j' ≤ z) as Hlen.
    { eapply lwalk_cost_links; [|exact Hw].
      apply (bool_decide_unpack _). vm_compute. exact I. }
    inversion Hw as [a|j0 a b d' c z0 Hne Hc Hsub]; subst.
    inversion Hsub as [a|j1 a b' d' c' z1 Hne' Hc' Hsub']; subst.
    + vm_compute in Hc. discriminate Hc.
    + lia.
Defined.

(** ** Threads that die *)

Lemma blocked_iff own tc m d :
  blocked own tc m d = true ↔
  num_add (cost (tget m.1 d)) (cost (tget own m.2)) = Raise OverflowError ∨
  ∃ v, num_add (cost (tget m.1 d)) (cost (tget own m.2)) = Ok v ∧
       num_lt v (cost (tget tc d)) = true ∧ kind (tget tc d) = PyTuple.
Proof.
  unfold blocked, cand.
  destruct (num_add _ _) as [v|e] eqn:Hadd.
  - rewrite andb_true_iff, bool_decide_eq_true. split.
    + intros [Hlt Hk]. right. by exists v.
    + intros [?|(v' & [= <-] & Hlt & Hk)]; done.
  - apply num_add_raise in Hadd as ->. split; [by left|done].
Qed.

Lemma blocked_queue_iff own universe tc q :
  blocked_queue own universe tc q = true ↔
  ∃ m d, m ∈ q ∧ d ∈ universe ∧ blocked own tc m d = true.
Proof.
  unfold blocked_queue, blocked_msg. rewrite existsb_exists. split.
  - intros (m & Hm & (d & Hd & Hb)%existsb_exists).
    exists m, d. by rewrite !list_elem_of_In.
  - intros (m & d & Hm & Hd & Hb). exists m. split; [by apply list_elem_of_In|].
    apply existsb_exists. exists d. split; [by apply list_elem_of_In|done].
Qed.

Lemma relax_queue_exn own universe q tc e :
  relax_queue own universe q tc = Raise e → e = TypeError ∨ e = OverflowError.
Proof.
  unfold relax_queue. intros Hrun.
  apply (foldM_raise_inv (λ _, True)) in Hrun as (b0 & m & _ & _ & Hraise);
    [|done..].
  unfold relax_msg in Hraise.
  apply (foldM_raise_inv (λ _, True)) in Hraise as (b1 & d & _ & _ & Hraise);
    [|done..].
  rewrite relax_entry_unfold in Hraise. unfold cand in Hraise.
  destruct (num_add _ _) as [v|e'] eqn:Hadd.
  - destruct (num_lt _ _); [|done]. destruct (kind _); [|done].
    injection Hraise as <-. by left.
  - injection Hraise as <-. right. by eapply num_add_raise.
Qed.

(** X13: an iteration of a router is all or nothing.  A thread dies
    exactly when, for some message of its queue and some router of the
    universe, the candidate addition overflows or the candidate is below
    the cost of a tuple value; the exception is then TypeError or
    OverflowError, and the router is left as it was with its queue still
    filled and only the iteration count raised: no entry and no change mark
    was written. *)
Theorem thread_dies_without_trace universe r :
  ((∃ e r', threaded universe r = Died e r') ↔
   ∃ m d, m ∈ queue r ∧ d ∈ universe ∧
     (num_add (cost (tget m.1 d)) (cost (tget (rtable r) m.2)) = Raise OverflowError ∨
      ∃ v, num_add (cost (tget m.1 d)) (cost (tget (rtable r) m.2)) = Ok v ∧
           num_lt v (cost (tget (rtable r) d)) = true ∧
           kind (tget (rtable r) d) = PyTuple)) ∧
  ∀ e r', threaded universe r = Died e r' →
          (e = TypeError ∨ e = OverflowError) ∧
          rtable r' = rtable r ∧ appended_at r' = appended_at r ∧
          queue r' = queue r ∧ neighbours r' = neighbours r ∧
          iterations r' = S (iterations r).
Proof.
  pose proof (threaded_cases universe r) as Hc.
  pose proof (blocked_queue_iff (rtable r) universe (rtable r) (queue r)) as Hb.
  split.
  - destruct (blocked_queue _ _ _ _).
    + destruct Hc as [e He]. split.
      * intros _. destruct (proj1 Hb eq_refl) as (m & d & Hm & Hd & Hbl).
        exists m, d. split; [done|]. split; [done|]. by apply blocked_iff.
      * intros _. by exists e, (set_iterations r (S (iterations r))).
    + destruct Hc as (tc & r0 & _ & Hdone & _). split.
      * intros (e & r' & Hdied). congruence.
      * intros (m & d & Hm & Hd & Hbl). apply blocked_iff in Hbl.
        assert (false = true); [|done]. apply Hb. by exists m, d.
  - intros e r' Hdied. unfold threaded in Hdied. simpl in Hdied.
    destruct (relax_queue (rtable r) universe (queue r) (rtable r)) as [tc|e0] eqn:Hrun.
    + by destruct (commit _ _ _ _).
    + injection Hdied as <- <-. split; [by eapply relax_queue_exn|done].
Qed.

Lemma thread_dies_without_trace_witness :
  ∃ e r', threaded (keys negative_net)
            (set_queue (router_of negative_net "A") [msg_of negative_net "B"]) =
          Died e r'.
Proof.
  apply (proj1 (thread_dies_without_trace (keys negative_net)
                  (set_queue (router_of negative_net "A")
                             [msg_of negative_net "B"]))).
  exists (msg_of negative_net "B"), "A".
  split; [apply list_elem_of_here|]. split; [apply (bool_decide_unpack _); by vm_compute|].
  right. exists (Int (-4)). vm_compute. done.
Defined.

(** X14: a negative edge cost stops the simulation in its first
    iteration.  If the last line that joins two routers carries a negative
    cost, the thread of either router dies in the first iteration (the
    candidate for the router itself is below the 0 of its tuple): its table
    is the one [input_parser] left, no change mark is written, and its
    queue stays filled. *)
Theorem negative_cost_kills_thread routerNames edges rs0 rs1 a b c ra :
  input_parser routerNames edges = Ok rs0 →
  a ≠ b → last_cost a b edges = Some c → c < 0 →
  store rs0 !! a = Some ra →
  round_step rs0 rs1 →
  ∃ ra', store rs1 !! a = Some ra' ∧
         rtable ra' = rtable ra ∧ appended_at ra' = ∅ ∧
         iterations ra' = 1%nat ∧ queue ra' ≠ [].
Proof.
  intros Hp Hne Hc Hneg Ha Hstep.
  pose proof (wired_input_parser _ _ _ Hp) as Hw.
  destruct (last_cost_routers _ _ _ _ _ _ Hp Hc) as [_ [rb Hb]].
  destruct (parsed_router_spec _ _ _ _ _ Hp Ha) as (_ & _ & Hita & Happ & _ & Hta).
  destruct (parsed_router_spec _ _ _ _ _ Hp Hb) as (_ & _ & _ & _ & _ & Htb).
  destruct (reachable_link _ _ _ _ _ _ _ _ Hp (reach_init rs0) Ha Hne Hc)
    as (Hnb & _).
  destruct (round_step_exact rs0 rs1 a ra Hw Hstep Ha) as (q & Hperm & Hr').
  assert ((rtable rb, b) ∈ q) as Hin.
  { rewrite Hperm. by apply (inbox_has_neighbour rs0 a ra b rb). }
  assert (blocked_queue (rtable ra) (keys rs0) (rtable ra) q = true) as Hbl.
  { apply blocked_queue_iff. exists (rtable rb, b), a. split; [done|]. split.
    - destruct Hw as (_ & Hdom & _). apply Hdom. by eexists.
    - unfold blocked, cand. simpl. rewrite Htb, !Hta. unfold parsed_entry.
      destruct (decide (a = a)) as [_|]; [|done].
      destruct (decide (a = b)) as [|_]; [done|].
      destruct (decide (b = a)) as [|_]; [done|].
      rewrite (last_cost_sym b a), Hc.
      simpl. apply andb_true_iff. split; [|done]. apply Z.ltb_lt. lia. }
  pose proof (threaded_cases (keys rs0) (set_queue ra q)) as Hcase.
  simpl in Hcase. rewrite Hbl in Hcase. destruct Hcase as [e He].
  rewrite He in Hr'. simpl in Hr'.
  eexists. split; [exact Hr'|]. simpl. rewrite Hita. repeat split; try done.
  intros ->. by apply elem_of_nil in Hin.
Qed.

Lemma negative_cost_kills_thread_witness :
  ∃ ra', store (run_round negative_net) !! "A" = Some ra' ∧
         rtable ra' = rtable (router_of negative_net "A") ∧ appended_at ra' = ∅ ∧
         iterations ra' = 1%nat ∧ queue ra' ≠ [].
Proof.
  apply (negative_cost_kills_thread ["A"; "B"] [("A", "B", -2)] negative_net
           (run_round negative_net) "A" "B" (-2) (router_of negative_net "A")).
  - vm_compute. reflexivity.
  - discriminate.
  - reflexivity.
  - lia.
  - vm_compute. reflexivity.
  - apply run_round_step. vm_compute. reflexivity.
Defined.

(** X15: the direct link bounds the cost to a neighbour.  After
    [input_parser] and after any number of iterations, a router joined to
    another by an edge line still lists it as a neighbour, as it did after
    parsing, and its cost for it is finite and at most the cost of the last
    line that joins them. *)
Theorem neighbour_cost_within_link routerNames edges rs0 rs n r b c :
  input_parser routerNames edges = Ok rs0 →
  reachable rs0 rs →
  store rs !! n = Some r →
  n ≠ b → last_cost n b edges = Some c →
  neighbours r = flat_map (other_end n) edges ∧
  b ∈ neighbours r ∧
  ∃ y, cost (tget (rtable r) b) = Int y ∧ y ≤ c.
Proof.
  intros Hp Hreach Hr Hne Hc.
  destruct (reachable_below _ _ _ _ _ _ Hp Hreach Hr) as (r0 & Hr0 & Hnb & _).
  destruct (parsed_router_spec _ _ _ _ _ Hp Hr0) as (_ & _ & _ & _ & Hnb0 & _).
  split; [by rewrite Hnb|].
  by apply (reachable_link routerNames edges rs0 rs n r b c).
Qed.

Lemma neighbour_cost_within_link_witness :
  ∃ y, cost (tget (rtable (router_of (run_round line_net) "B")) "C") = Int y ∧ y ≤ 1.
Proof.
  apply (neighbour_cost_within_link ["A"; "B"; "C"] [("A", "B", 1); ("B", "C", 1)]
           line_net (run_round line_net) "B"
           (router_of (run_round line_net) "B") "C" 1).
  - vm_compute. reflexivity.
  - apply (reach_step _ line_net); [apply reach_init|].
    apply run_round_step. vm_compute. reflexivity.
  - vm_compute. reflexivity.
  - discriminate.
  - reflexivity.
Defined.

(** ** The keys a table stores *)

Lemma touch_lookup (t : table) k k' :
  is_Some (touch t k !! k') ↔ k' = k ∨ is_Some (t !! k').
Proof.
  unfold touch. destruct (t !! k) as [e|] eqn:Hk.
  - split; [by right|]. intros [->|?]; [by eexists|done].
  - rewrite lookup_insert. case_decide as Hd.
    + subst. split; [by left|]. intros _. by eexists.
    + split; [by right|]. intros [?|?]; [by subst|done].
Qed.

Lemma touch_all_lookup universe (t : table) k :
  is_Some (fold_left touch universe t !! k) ↔ k ∈ universe ∨ is_Some (t !! k).
Proof.
  revert t. induction universe as [|x l IH]; intros t; simpl.
  - split; [by right|]. intros [Hk|?]; [by apply elem_of_nil in Hk|done].
  - rewrite IH, touch_lookup, elem_of_cons. naive_solver.
Qed.

Lemma relax_entry_stores own tbl nm tc d tc' k :
  relax_entry own tbl nm tc d = Ok tc' →
  is_Some (tc' !! k) → k = d ∨ is_Some (tc !! k).
Proof.
  rewrite relax_entry_unfold. destruct (cand own (tbl, nm) d) as [v|e]; [|done].
  destruct (num_lt _ _); [|intros [= <-]; by right].
  destruct (kind _); [done|]. intros [= <-]. rewrite lookup_insert.
  case_decide; [by left|by right].
Qed.

Lemma relax_queue_stores own universe q tc tc' k :
  relax_queue own universe q tc = Ok tc' →
  is_Some (tc' !! k) → k ∈ universe ∨ is_Some (tc !! k).
Proof.
  unfold relax_queue.
  apply (foldM_inv (λ t, is_Some (t !! k) → k ∈ universe ∨ is_Some (tc !! k)));
    [|by right].
  intros b m b' _ Hb. unfold relax_msg.
  apply (foldM_inv (λ t, is_Some (t !! k) → k ∈ universe ∨ is_Some (tc !! k)));
    [|done].
  intros b0 d b0' Hd Hb0 Hstep Hk.
  destruct (relax_entry_stores _ _ _ _ _ _ k Hstep Hk) as [->|?]; [by left|auto].
Qed.

Lemma commit_stores its (own : table) (app : gmap string nat) (tc : table) k :
  is_Some ((commit its own app tc).1 !! k) → is_Some (own !! k) ∨ is_Some (tc !! k).
Proof.
  unfold commit.
  assert (∀ l st, (∀ kv, kv ∈ l → is_Some (tc !! kv.1)) →
            is_Some ((fold_left (commit_item its) l st).1 !! k) →
            is_Some (st.1 !! k) ∨ is_Some (tc !! k)) as Hgen.
  { induction l as [|[k0 v0] l IH]; intros st Hl; simpl; [by left|].
    intros Hk. apply IH in Hk.
    - destruct Hk as [Hk|?]; [|by right].
      unfold commit_item in Hk. simpl in Hk. destruct (entry_ne _ _); [|by left].
      simpl in Hk. destruct (decide (k = k0)) as [->|Hne].
      + right. apply (Hl (k0, v0)), list_elem_of_here.
      + rewrite lookup_insert_ne in Hk by done. by left.
    - intros kv Hkv. by apply Hl, list_elem_of_further. }
  intros Hk. apply (Hgen (map_to_list tc) (own, app)); [|done].
  intros [k0 v0] Hin%elem_of_map_to_list. by eexists.
Qed.

Lemma threaded_stores universe r k :
  is_Some (rtable (final (threaded universe r)) !! k) →
  k ∈ universe ∨ is_Some (rtable r !! k).
Proof.
  unfold threaded. simpl.
  destruct (relax_queue (rtable r) universe (queue r) (rtable r)) as [tc|e] eqn:Hrun.
  - destruct (commit _ _ _ _) as [t a] eqn:Hcommit. simpl. intros Hk.
    assert (t = (commit (S (iterations r)) (rtable r) (appended_at r) tc).1) as ->
      by by rewrite Hcommit.
    apply commit_stores in Hk as [?|Hk]; [by right|].
    by eapply relax_queue_stores.
  - simpl. by right.
Qed.

Lemma stores_routers_parsed routerNames edges rs :
  input_parser routerNames edges = Ok rs → stores_routers rs.
Proof.
  unfold input_parser.
  destruct (foldM parse_edge edges (make_routers routerNames)) as [rs'|e] eqn:Hrun;
    [|done].
  intros [= <-]. revert Hrun.
  assert (∀ rs1 rs2, net_ok routerNames rs1 ∧ stores_routers rs1 →
            foldM parse_edge edges rs1 = Ok rs2 →
            net_ok routerNames rs2 ∧ stores_routers rs2) as Hgen.
  { intros rs1 rs2 H1 Hrun.
    apply (foldM_inv (λ rs0, net_ok routerNames rs0 ∧ stores_routers rs0)
             parse_edge edges) with (b := rs1); [|done..].
    intros b [[src dest] c] b' _ [Hok Hst] Hstep.
    split; [by eapply net_ok_parse_edge|].
    destruct (parse_edge_ok _ _ _ _ _ _ Hok Hstep)
      as (r1 & r2 & Hne & Hs & Hd & ->).
    assert (∀ k, is_Some (store b !! k) →
              is_Some ((<[dest := linked r2 src c]>
                          (<[src := linked r1 dest c]> (store b))) !! k)) as Hmono.
    { intros k Hk. rewrite !lookup_insert. by repeat case_decide. }
    intros n r k Hr Hk. simpl in *.
    assert (∃ r0 x, store b !! n = Some r0 ∧
              (r = r0 ∨ (r = linked r0 x c ∧ is_Some (store b !! x))))
      as (r0 & x & Hr0 & Hcase).
    { destruct (decide (n = dest)) as [->|Hnd].
      { rewrite lookup_insert_eq in Hr. injection Hr as <-.
        exists r2, src. split; [done|]. right. split; [done|by eexists]. }
      rewrite lookup_insert_ne in Hr by done.
      destruct (decide (n = src)) as [->|Hns].
      { rewrite lookup_insert_eq in Hr. injection Hr as <-.
        exists r1, dest. split; [done|]. right. split; [done|by eexists]. }
      rewrite lookup_insert_ne in Hr by done. exists r, n. split; [done|by left]. }
    apply Hmono. destruct Hcase as [->|[-> Hx]]; [by eapply Hst|].
    simpl in Hk. destruct (decide (k = x)) as [->|Hkx]; [done|].
    rewrite lookup_insert_ne in Hk by done. by eapply Hst. }
  intros Hrun. apply (Hgen (make_routers routerNames) rs' ); [|done].
  split; [apply net_ok_make_routers|].
  intros n r k. rewrite !make_routers_lookup. case_decide; [|done].
  intros [= <-]. simpl. destruct (decide (k = n)) as [->|Hkn].
  - intros _. rewrite decide_True by done. by eexists.
  - rewrite lookup_insert_ne by done. rewrite lookup_empty. by intros [? ?].
Qed.

Lemma stores_routers_reachable routerNames edges rs0 rs :
  input_parser routerNames edges = Ok rs0 → reachable rs0 rs → stores_routers rs.
Proof.
  intros Hp. induction 1 as [|rs rs' Hreach IH Hstep].
  - by eapply stores_routers_parsed.
  - pose proof (wired_reachable _ _ _ _ Hp Hreach) as (_ & Hdom & _).
    intros n r k Hr Hk.
    pose proof (round_step_router rs rs' n Hstep) as Hn.
    destruct (store rs !! n) as [r0|] eqn:Hr0; [|congruence].
    destruct Hn as (q & _ & Hr').
    assert (r = final (threaded (keys rs) (set_queue r0 q))) as -> by congruence.
    assert (is_Some (store rs !! k)) as [rk Hrk].
    { apply threaded_stores in Hk as [Hk|Hk]; [by apply Hdom|].
      by apply (IH n r0 k). }
    pose proof (round_step_keeps rs rs' k Hstep) as Hkk. rewrite Hrk in Hkk.
    destruct Hkk as (rk' & -> & _). by eexists.
Qed.

(** * The input file, the script and the threads together *)

(** ** input_parser, from the lines of the file *)

Lemma edge_of_read line e : edge_of line = Some e ↔ read_edge line = Ok e.
Proof.
  unfold edge_of. destruct (read_edge line); split; congruence.
Qed.

(** Lines that can all be read are parsed like their edges. *)
Lemma parse_lines_edges ls rs :
  Forall (λ l, is_Some (edge_of l)) ls →
  foldM parse_line ls rs = foldM parse_edge (omap edge_of ls) rs.
Proof.
  intros Hall. revert rs. induction Hall as [|l ls [e He] _ IH]; intros rs; [done|].
  cbn [foldM omap list_omap]. rewrite He. cbn [foldM].
  apply edge_of_read in He.
  replace (parse_line rs l) with (parse_edge rs e)
    by (unfold parse_line; by rewrite He).
  destruct (parse_edge rs e) as [rs1|x]; [|done]. cbn. apply IH.
Qed.

(** A line that cannot be read ends the loop. *)
Lemma parse_lines_unread ls rs :
  ¬ Forall (λ l, is_Some (edge_of l)) ls → ∃ x, foldM parse_line ls rs = Raise x.
Proof.
  revert rs. induction ls as [|l ls IH]; intros rs Hnot.
  - destruct Hnot. constructor.
  - cbn [foldM].
    destruct (read_edge l) as [e|x] eqn:He.
    2:{ exists x. unfold parse_line. by rewrite He. }
    replace (parse_line rs l) with (parse_edge rs e)
      by (unfold parse_line; by rewrite He).
    destruct (parse_edge rs e) as [rs1|x]; [|by exists x].
    cbn. apply IH. intros Hall. apply Hnot. constructor; [|done].
    exists e. by apply edge_of_read.
Qed.

Lemma line_ok_edge routerNames l :
  line_ok routerNames l ↔ ∃ e, edge_of l = Some e ∧ edge_ok routerNames e.
Proof.
  unfold line_ok, edge_of. destruct (read_edge l) as [e|x].
  - split; [intros H; by exists e|]. by intros (e' & [= <-] & H).
  - split; [done|]. by intros (e' & [=] & _).
Qed.

Lemma lines_ok_edges routerNames ls :
  Forall (line_ok routerNames) ls ↔
  Forall (λ l, is_Some (edge_of l)) ls ∧ Forall (edge_ok routerNames) (omap edge_of ls).
Proof.
  induction ls as [|l ls IH].
  - split; [by split; constructor|by constructor].
  - rewrite !list.Forall_cons, IH, line_ok_edge. cbn [omap list_omap].
    split.
    + intros ((e & He & Hok) & Hall & Hoks). rewrite He.
      split; [split; [by exists e|done]|]. by constructor.
    + intros ((He & Hall) & Hoks). destruct He as [e He]. rewrite He in Hoks.
      apply list.Forall_cons in Hoks as [Hok Hoks]. split; [by exists e|done].
Qed.

(** Lines 74-83 on a file of three lines or more whose first line is an
    integer. *)
Lemma parse_lines_unfold l0 l1 l2 rest z :
  py_int l0 = Ok z →
  parse_lines (l0 :: l1 :: l2 :: rest) =
    foldM parse_line (edge_lines (l0 :: l1 :: l2 :: rest))
          (make_routers (file_names (l0 :: l1 :: l2 :: rest))).
Proof.
  intros Hz. unfold parse_lines, line_at, last_line, edge_lines, file_names.
  cbn [lookup list_lookup mbind result_bind drop default]. rewrite Hz.
  cbn [mbind result_bind].
  destruct (list.last (l2 :: rest)) as [l|] eqn:Hl; [done|].
  by apply last_None in Hl.
Qed.

Lemma parse_lines_short lines :
  (length lines < 3)%nat → ∃ x, parse_lines lines = Raise x.
Proof.
  intros Hlen. unfold parse_lines, line_at, last_line.
  destruct lines as [|l0 [|l1 [|l2 rest]]]; cbn in *; [by eexists| | |lia].
  - destruct (py_int l0); by eexists.
  - destruct (py_int l0); by eexists.
Qed.

(** When [input_parser] gets through a file. *)
Lemma parse_lines_spec lines :
  (file_ok lines →
   ∃ rs, parse_lines lines = Ok rs ∧
         foldM parse_edge (file_edges lines) (make_routers (file_names lines)) = Ok rs) ∧
  (¬ file_ok lines → ∃ x, parse_lines lines = Raise x).
Proof.
  destruct lines as [|l0 [|l1 [|l2 rest]]];
    try (split; [done|intros _; apply parse_lines_short; simpl; lia]).
  set (lines := l0 :: l1 :: l2 :: rest).
  split.
  - intros [Hz Hall]. fold lines in Hall.
    unfold reads_int in Hz. destruct (py_int l0) as [z|] eqn:Hz'; [clear Hz|done].
    rename Hz' into Hz.
    apply lines_ok_edges in Hall as [Hread Hok].
    unfold lines at 1. rewrite (parse_lines_unfold _ _ _ _ z Hz). fold lines.
    rewrite (parse_lines_edges _ _ Hread).
    destruct (parse_edges_accept (file_names lines) (omap edge_of (edge_lines lines))
                (make_routers (file_names lines))) as [rs Hrs];
      [apply net_ok_make_routers|done|].
    exists rs. by split.
  - intros Hnot.
    destruct (py_int l0) as [z|x] eqn:Hz.
    + unfold lines at 1. rewrite (parse_lines_unfold _ _ _ _ z Hz). fold lines.
      destruct (decide (Forall (λ l, is_Some (edge_of l)) (edge_lines lines)))
        as [Hread|Hread]; [|by apply parse_lines_unread].
      rewrite (parse_lines_edges _ _ Hread).
      apply (parse_edges_reject (file_names lines)); [apply net_ok_make_routers|].
      apply not_Forall_Exists; [apply _|]. intros Hok. apply Hnot.
      split; [unfold reads_int; by rewrite Hz|]. fold lines.
      apply lines_ok_edges. by split.
    + exists x. unfold parse_lines, line_at. cbn. by rewrite Hz.
Qed.

(** An accepted file gives what the two loops give on its names and its
    edges. *)
Lemma input_parser_file_loops lines rs :
  input_parser_file lines = Ok rs →
  file_ok lines ∧ input_parser (file_names lines) (file_edges lines) = Ok rs.
Proof.
  unfold input_parser_file. intros Hp.
  destruct (decide (file_ok lines)) as [Hok|Hbad].
  - split; [done|].
    destruct (proj1 (parse_lines_spec lines) Hok) as (rs' & Hrun & Hloops).
    rewrite Hrun in Hp. injection Hp as <-.
    unfold input_parser. by rewrite Hloops.
  - destruct (proj2 (parse_lines_spec lines) Hbad) as [x Hx]. by rewrite Hx in Hp.
Qed.







Lemma file_edges_read lines :
  Forall (λ l, is_Some (edge_of l)) (edge_lines lines) →
  Forall2 (λ l e, read_edge l = Ok e) (edge_lines lines) (file_edges lines).
Proof.
  unfold file_edges. induction 1 as [|l ls [e He] _ IH]; [constructor|].
  cbn [omap list_omap]. rewrite He. constructor; [|done]. by apply edge_of_read.
Qed.

(** X2: every router [input_parser] builds from a file has its own name,
    an empty queue, iteration count 0 and no change mark.  Every line the
    loop of line 86 iterates (the lines after the second, without the last
    when it contains "EOF") is read as one edge; the router's neighbour
    list holds, in the order of these lines, the other end of every edge
    that touches it, once per line; and its table holds (0, 'None') for
    itself, the cost of the last line that joins it to a router with that
    router as next hop, and the default (inf, '[no path]') for every other
    router. *)
Theorem input_parser_builds lines rs a r :
  input_parser_file lines = Ok rs →
  store rs !! a = Some r →
  Forall2 (λ l e, read_edge l = Ok e) (edge_lines lines) (file_edges lines) ∧
  name r = a ∧ queue r = [] ∧ iterations r = 0%nat ∧ appended_at r = ∅ ∧
  neighbours r = flat_map (other_end a) (file_edges lines) ∧
  ∀ b, tget (rtable r) b = parsed_entry a b (file_edges lines).
Proof.
  intros Hp Hr. destruct (input_parser_file_loops lines rs Hp) as [Hok Hloops].
  split; [|by apply (parsed_router_spec (file_names lines) (file_edges lines) rs)].
  apply file_edges_read.
  destruct lines as [|l0 [|l1 [|l2 rest]]]; try done.
  destruct Hok as [_ Hall]. by apply lines_ok_edges in Hall as [Hread _].
Qed.

Lemma input_parser_builds_witness :
  ∃ rs r, input_parser_file
            ["2" +:+ nl; "A GEOFF" +:+ nl; "A GEOFF 1" +:+ nl; "A GEOFF 3" +:+ nl] =
            Ok rs ∧
          store rs !! "A" = Some r ∧
          neighbours r = ["GEOFF"] ∧ view (rtable r) "GEOFF" = (Int 1, "GEOFF").
Proof.
  assert (∃ rs, input_parser_file
            ["2" +:+ nl; "A GEOFF" +:+ nl; "A GEOFF 1" +:+ nl; "A GEOFF 3" +:+ nl] =
            Ok rs) as [rs Hp] by (eexists; vm_compute; reflexivity).
  assert (∃ r, store rs !! "A" = Some r) as [r Hr].
  { revert Hp. vm_compute. intros [= <-]. by eexists. }
  exists rs, r. split; [done|]. split; [done|].
  destruct (input_parser_builds _ rs "A" r Hp Hr) as (_ & _ & _ & _ & _ & Hnb & Htab).
  split; [rewrite Hnb; vm_compute; reflexivity|].
  unfold view. rewrite (Htab "GEOFF"). vm_compute. reflexivity.
Defined.

(** ** What int() returns *)

Lemma digit_of_range c d : digit_of c = Some d → 0 ≤ d ≤ 9.
Proof.
  unfold digit_of, chr_in. destruct (_ && _) eqn:Hc; [|done].
  intros [= <-]. apply andb_true_iff in Hc as [H1 H2].
  apply N.leb_le in H1, H2. lia.
Qed.

Lemma int_digits_range s sep acc count z n :
  0 ≤ acc < 10 ^ Z.of_nat count →
  int_digits sep acc count s = Some (z, n) →
  0 ≤ z < 10 ^ Z.of_nat n.
Proof.
  revert sep acc count. induction s as [|c s IH]; intros sep acc count Hacc; cbn.
  - destruct sep; [done|]. by intros [= <- <-].
  - destruct (digit_of c) as [d|] eqn:Hd.
    + apply digit_of_range in Hd. apply IH.
      rewrite Nat2Z.inj_succ, Z.pow_succ_r by lia. lia.
    + destruct (chr_in 95 95 c && negb sep); [by apply IH|done].
Qed.

Lemma py_int_range s z : py_int s = Ok z → Z.abs z < 10 ^ Z.of_nat max_str_digits.
Proof.
  unfold py_int. destruct (signed (rstrip (lstrip s))) as [neg body].
  destruct (int_digits true 0 0 body) as [[v n]|] eqn:Hd; [|done].
  destruct (n <=? max_str_digits)%nat eqn:Hn; [|done].
  intros [= <-]. apply Nat.leb_le in Hn.
  apply int_digits_range in Hd; [|simpl; lia].
  assert (10 ^ Z.of_nat n ≤ 10 ^ Z.of_nat max_str_digits)
    by (apply Z.pow_le_mono_r; lia).
  destruct neg; lia.
Qed.

Lemma read_edge_range l e : read_edge l = Ok e → printable (Int e.2).
Proof.
  unfold read_edge. destruct (split l) as [|src [|dest [|c [|? ?]]]]; try done.
  destruct (py_int c) as [z|] eqn:Hz; [|done]. cbn. intros [= <-]. simpl.
  by apply (py_int_range c).
Qed.

(** The costs of a file that was just read can all be written. *)
Lemma parsed_printable lines rs a r b :
  input_parser_file lines = Ok rs → store rs !! a = Some r →
  printable (cost (tget (rtable r) b)).
Proof.
  intros Hp Hr. destruct (input_parser_file_loops lines rs Hp) as [Hok Hloops].
  destruct (parsed_router_spec _ _ _ _ _ Hloops Hr) as (_ & _ & _ & _ & _ & Htab).
  rewrite (Htab b). unfold parsed_entry.
  destruct (decide (b = a)); [simpl; unfold max_str_digits; lia|].
  destruct (last_cost a b (file_edges lines)) as [c|] eqn:Hc; [|done].
  apply last_cost_elem in Hc as (e & He & _ & <-). simpl.
  unfold file_edges in He. apply list_elem_of_omap in He as (l & _ & Hl).
  apply edge_of_read in Hl. by apply (read_edge_range l).
Qed.

(** ** The rows of __str__ *)

Lemma str_row_printable r k :
  (printable (cost (tget (rtable r) k)) → ∃ row, str_row r k = Ok row) ∧
  (¬ printable (cost (tget (rtable r) k)) → str_row r k = Raise ValueError).
Proof.
  unfold str_row, str_num, printable.
  destruct (cost (tget (rtable r) k)) as [z|]; [|split; [by eexists|tauto]].
  destruct (Z.ltb_spec (Z.abs z) (10 ^ Z.of_nat max_str_digits)); cbn.
  - split; [by eexists|]. intros Hn. by destruct Hn.
  - split; [lia|done].
Qed.

Lemma forM_rows r l :
  (Forall (λ k, printable (cost (tget (rtable r) k))) l →
   ∃ rows, forM (str_row r) l = Ok rows ∧
           Forall2 (λ k row, str_row r k = Ok row) l rows) ∧
  (¬ Forall (λ k, printable (cost (tget (rtable r) k))) l →
   forM (str_row r) l = Raise ValueError).
Proof.
  induction l as [|k l [IHok IHbad]].
  - split; [intros _; exists []; by split; [|constructor]|]. intros H. destruct H. constructor.
  - split.
    + intros [Hk Hl]%list.Forall_cons.
      destruct (proj1 (str_row_printable r k) Hk) as [row Hrow].
      destruct (IHok Hl) as (rows & Hrows & Hall).
      exists (row :: rows). cbn [forM]. rewrite Hrow, Hrows.
      split; [done|by constructor].
    + intros Hnot. cbn [forM].
      destruct (decide (printable (cost (tget (rtable r) k)))) as [Hk|Hk].
      * destruct (proj1 (str_row_printable r k) Hk) as [row ->].
        rewrite IHbad; [done|]. intros Hl. apply Hnot. by constructor.
      * by rewrite (proj2 (str_row_printable r k) Hk).
Qed.

Lemma str_rows_sorted_keys routerNames edges rs0 rs n r :
  input_parser routerNames edges = Ok rs0 →
  reachable rs0 rs →
  store rs !! n = Some r →
  str_rows (keys rs) r = forM (str_row r) (sorting.merge_sort String.le (keys rs)).
Proof.
  intros Hp Hreach Hr.
  pose proof (wired_reachable _ _ _ _ Hp Hreach) as (Hnd & Hdom & _).
  pose proof (stores_routers_reachable _ _ _ _ Hp Hreach) as Hst.
  assert ((map_to_list (fold_left touch (keys rs) (rtable r))).*1 ≡ₚ keys rs) as Hperm.
  { apply NoDup_Permutation; [apply NoDup_fst_map_to_list|done|].
    intros k. rewrite list_elem_of_fmap. split.
    - intros ([k' v] & -> & Hin%elem_of_map_to_list). simpl.
      assert (is_Some (fold_left touch (keys rs) (rtable r) !! k')) as Hk
        by by eexists.
      apply touch_all_lookup in Hk as [?|Hk]; [done|].
      apply Hdom. by eapply Hst.
    - intros Hk.
      assert (is_Some (fold_left touch (keys rs) (rtable r) !! k)) as [v Hv].
      { apply touch_all_lookup. by left. }
      exists (k, v). split; [done|]. by apply elem_of_map_to_list. }
  assert (sorting.merge_sort String.le (map_to_list (fold_left touch (keys rs) (rtable r))).*1 =
          sorting.merge_sort String.le (keys rs)) as Heq.
  { apply (sorting.Sorted_unique String.le); [apply sorting.Sorted_merge_sort; apply _..|].
    by rewrite !sorting.merge_sort_Permutation. }
  unfold str_rows. simpl. by rewrite Heq.
Qed.

(** X16: the table that [__str__] prints.  After [input_parser] and after
    any number of iterations, lines 46-57 go through the routers of the
    network, unreachable ones included, in ascending order of the names.
    When every cost of the router has at most 4300 digits they produce one
    line per router, the line of [str_row]; when one has more, line 57
    raises ValueError.  Right after [input_parser] every cost can be
    written, since [int()] reads no more than 4300 digits. *)
Theorem str_rows_one_per_router lines rs0 rs n r :
  input_parser_file lines = Ok rs0 →
  reachable rs0 rs →
  store rs !! n = Some r →
  Sorted.Sorted String.le (sorting.merge_sort String.le (keys rs)) ∧
  sorting.merge_sort String.le (keys rs) ≡ₚ keys rs ∧
  (Forall (λ k, printable (cost (tget (rtable r) k))) (keys rs) →
   ∃ rows, str_rows (keys rs) r = Ok rows ∧
           Forall2 (λ k row, str_row r k = Ok row)
                   (sorting.merge_sort String.le (keys rs)) rows) ∧
  (¬ Forall (λ k, printable (cost (tget (rtable r) k))) (keys rs) →
   str_rows (keys rs) r = Raise ValueError) ∧
  (rs = rs0 → Forall (λ k, printable (cost (tget (rtable r) k))) (keys rs)).
Proof.
  intros Hp Hreach Hr.
  destruct (input_parser_file_loops lines rs0 Hp) as [_ Hloops].
  rewrite (str_rows_sorted_keys _ _ _ _ _ _ Hloops Hreach Hr).
  split; [apply sorting.Sorted_merge_sort; apply _|].
  split; [apply sorting.merge_sort_Permutation|].
  split; [|split].
  - intros Hall. apply forM_rows. by rewrite sorting.merge_sort_Permutation.
  - intros Hnot. apply forM_rows. by rewrite sorting.merge_sort_Permutation.
  - intros ->. apply list.Forall_forall. intros k _.
    by apply (parsed_printable lines rs0 n).
Qed.

Lemma str_rows_one_per_router_witness :
  str_rows (keys (run_round line_net)) (router_of (run_round line_net) "A") =
  Ok ["    A: 0          via: None"; "    B: 1          via: B";
      "   *C: 2          via: B"].
Proof.
  destruct (str_rows_one_per_router line_file
              line_net (run_round line_net) "A"
              (router_of (run_round line_net) "A")) as (_ & _ & H & _).
  - vm_compute. reflexivity.
  - apply (reach_step _ line_net); [apply reach_init|].
    apply run_round_step. vm_compute. reflexivity.
  - vm_compute. reflexivity.
  - destruct H as (rows & Hrows & _).
    + apply (bool_decide_unpack _). vm_compute. exact I.
    + rewrite Hrows. revert Hrows. vm_compute. by intros [= <-].
Defined.

(** ** The script up to its first iteration *)





(** ** Sending, in any interleaving *)

Lemma pending_app rs n p1 p2 :
  pending rs n (p1 ++ p2) = pending rs n p1 ++ pending rs n p2.
Proof. unfold pending. by rewrite flat_map_app. Qed.

Lemma pending_cons rs n s l pool :
  pending rs n ((s, l) :: pool) =
  ((λ _, msg_of rs s) <$> filter (λ y, y = n) l) ++ pending rs n pool.
Proof. done. Qed.

Lemma pending_done rs n pool :
  Forall (λ t : sender, t.2 = []) pool → pending rs n pool = [].
Proof.
  induction 1 as [|[s l] pool Hl _ IH]; [done|].
  simpl in Hl. subst l. by rewrite pending_cons, IH.
Qed.

(** Before any thread has sent, what is pending for a router is its
    inbox. *)
Lemma pending_senders rs n : pending rs n (senders rs) = inbox rs n.
Proof.
  unfold pending, senders, inbox. induction (keys rs) as [|s ks IH]; [done|].
  cbn [fmap list_fmap flat_map]. f_equal; [|exact IH].
  unfold sent_by, msg_of, router_of. simpl.
  by destruct (store rs !! s).
Qed.

Lemma runnable_step rs p1 s nhbr rest p2 :
  runnable rs (p1 ++ (s, nhbr :: rest) :: p2) →
  is_Some (store rs !! s) ∧ is_Some (store rs !! nhbr) ∧
  runnable rs (p1 ++ (s, rest) :: p2).
Proof.
  unfold runnable. intros Hall.
  apply list.Forall_app in Hall as [H1 Hall].
  apply list.Forall_cons in Hall as [(Hs & Hl) H2]. simpl in Hs, Hl.
  apply list.Forall_cons in Hl as [Hn Hrest].
  split; [done|]. split; [done|].
  apply list.Forall_app. split; [done|]. by constructor.
Qed.

(** However the appends interleave, every queue gets what was pending for
    it, and no thread raises. *)
Lemma sending_grows rs0 rs pool rs' died E :
  sending rs pool rs' died →
  queues_grown rs0 E rs →
  runnable rs0 pool →
  died = [] ∧
  ∃ E', queues_grown rs0 E' rs' ∧ ∀ n, E' n ≡ₚ E n ++ pending rs0 n pool.
Proof.
  intros Hrun. revert E.
  induction Hrun as [rs pool Hdone|rs p1 s nhbr rest p2 rs1 rs' died Hsend _ IH
                    |rs p1 s nhbr rest p2 e rs' died Hsend _ _]; intros E Hg Hcan.
  - split; [done|]. exists E. split; [done|]. intros n.
    by rewrite (pending_done _ _ _ Hdone), app_nil_r.
  - apply runnable_step in Hcan as ([rS Hs] & [rN HN] & Hcan).
    pose proof (send_grows rs0 E rs s rS nhbr Hg Hs) as Hsg. rewrite HN in Hsg.
    destruct Hsg as (rs2 & Hsend2 & Hg2).
    assert (rs2 = rs1) as -> by congruence.
    destruct (IH _ Hg2 Hcan) as (-> & E' & Hg' & Hperm).
    split; [done|]. exists E'. split; [done|]. intros n. rewrite (Hperm n).
    rewrite !pending_app, !pending_cons, list.filter_cons.
    assert (msg_of rs0 s = (rtable rS, s)) as ->
      by (unfold msg_of, router_of; by rewrite Hs).
    destruct (decide (nhbr = n)) as [->|Hne].
    + cbn [fmap list_fmap].
      rewrite <-!app_assoc. apply Permutation_app_head. simpl.
      by rewrite <-Permutation_middle.
    + by rewrite app_nil_r.
  - apply runnable_step in Hcan as ([rS Hs] & [rN HN] & Hcan).
    pose proof (send_grows rs0 E rs s rS nhbr Hg Hs) as Hsg. rewrite HN in Hsg.
    destruct Hsg as (rs2 & Hsend2 & _). congruence.
Qed.

(** The threads can always go on to the end. *)
Lemma sending_runs rs0 pool :
  runnable rs0 pool →
  ∀ finished E rs, queues_grown rs0 E rs →
    Forall (λ t : sender, t.2 = []) finished →
    ∃ rs', sending rs (finished ++ pool) rs' [].
Proof.
  induction 1 as [|[s l] pool [Hs Hl] Hpool IH]; intros finished E rs Hg Hfin.
  - exists rs. rewrite app_nil_r. by apply sending_done.
  - simpl in Hs, Hl. destruct Hs as [rS Hs]. revert E rs Hg.
    induction Hl as [|nhbr rest [rN HN] _ IHl]; intros E rs Hg.
    + destruct (IH (finished ++ [(s, [])]) E rs Hg) as [rs' Hrun].
      * apply Forall_app. split; [done|]. by apply Forall_singleton.
      * exists rs'. by rewrite <-app_assoc in Hrun.
    + pose proof (send_grows rs0 E rs s rS nhbr Hg Hs) as Hsg. rewrite HN in Hsg.
      destruct Hsg as (rs1 & Hsend & Hg1).
      destruct (IHl _ rs1 Hg1) as [rs' Hrun].
      exists rs'. by eapply sending_append.
Qed.

Lemma send_keeps s rs nhbr rs1 :
  send s rs nhbr = Ok rs1 →
  is_Some (store rs !! nhbr) ∧ ∀ k, store rs1 !! k = None ↔ store rs !! k = None.
Proof.
  unfold send, dict_get. destruct (store rs !! s) as [r|]; [|done]. simpl.
  destruct (store rs !! nhbr) as [n|] eqn:Hn; [|done]. simpl.
  intros [= <-]. split; [by eexists|]. intros k. simpl.
  destruct (decide (k = nhbr)) as [->|Hne].
  - rewrite lookup_insert_eq, Hn. done.
  - by rewrite lookup_insert_ne.
Qed.

Lemma send_raises s rs nhbr e : send s rs nhbr = Raise e → e = KeyError.
Proof.
  unfold send, dict_get. destruct (store rs !! s) as [r|]; simpl; [|congruence].
  destruct (store rs !! nhbr) as [n|]; simpl; congruence.
Qed.

(** A thread that has to send to a name without a router dies. *)
Lemma sending_dies rs pool rs' died s l m :
  sending rs pool rs' died →
  (s, l) ∈ pool → m ∈ l → store rs !! m = None → died ≠ [].
Proof.
  intros Hrun. revert s l.
  induction Hrun as [rs pool Hdone|rs p1 s' nhbr rest p2 rs1 rs' died Hsend _ IH
                    |rs p1 s' nhbr rest p2 e rs' died Hsend _ _];
    intros s l Hin Hm Hnone.
  - rewrite list.Forall_forall in Hdone. specialize (Hdone _ Hin). simpl in Hdone.
    subst l. by apply elem_of_nil in Hm.
  - destruct (send_keeps _ _ _ _ Hsend) as [[rN HN] Hdom].
    apply Hdom in Hnone.
    apply elem_of_app in Hin as [Hin|Hin].
    { apply (IH s l); [apply elem_of_app; by left|done..]. }
    apply elem_of_cons in Hin as [[= -> ->]|Hin].
    + apply elem_of_cons in Hm as [->|Hm]; [apply Hdom in Hnone; congruence|].
      apply (IH s' rest); [|done..].
      apply elem_of_app. right. apply list_elem_of_here.
    + apply (IH s l); [|done..].
      apply elem_of_app. right. by apply list_elem_of_further.
  - done.
Qed.

Lemma sending_key_errors rs pool rs' died :
  sending rs pool rs' died → Forall (λ d : string * exn, d.2 = KeyError) died.
Proof.
  induction 1 as [| |rs p1 s nhbr rest p2 e rs' died Hsend _ IH]; [constructor|done|].
  constructor; [|done]. simpl. by eapply send_raises.
Qed.

Lemma closed_runnable rs : closed rs → runnable rs (senders rs).
Proof.
  unfold closed, runnable, senders. intros Hall.
  apply Forall_fmap. eapply Forall_impl; [|exact Hall].
  intros s Hs. unfold can_send in Hs. simpl. unfold router_of.
  destruct (store rs !! s) as [r|]; [|done]. split; [by eexists|done].
Qed.

(** One thread's sends in a row are steps of the interleaving. *)
Lemma sends_in_a_row s l finished pool rs' died :
  ∀ rs rs1, foldM (send s) l rs = Ok rs1 →
    sending rs1 (finished ++ (s, []) :: pool) rs' died →
    sending rs (finished ++ (s, l) :: pool) rs' died.
Proof.
  induction l as [|nhbr rest IH]; intros rs rs1 Hfold Hrun; cbn [foldM] in Hfold.
  - by injection Hfold as ->.
  - destruct (send s rs nhbr) as [rs2|] eqn:Hsend; [|done]. cbn in Hfold.
    eapply sending_append; [exact Hsend|]. by eapply IH.
Qed.

(** The threads run one after the other are one interleaving. *)
Lemma send_all_sending rs0 ks :
  ∀ finished E rs rs1, queues_grown rs0 E rs →
    Forall (λ t : sender, t.2 = []) finished →
    foldM add_to_queue ks rs = Ok rs1 →
    sending rs (finished ++ ((λ s, (s, neighbours (router_of rs0 s))) <$> ks)) rs1 [].
Proof.
  induction ks as [|s ks IH]; intros finished E rs rs1 Hg Hfin Hfold;
    cbn [foldM] in Hfold.
  - injection Hfold as ->. simpl. rewrite app_nil_r. by apply sending_done.
  - destruct (add_to_queue rs s) as [rs2|] eqn:Hadd; [|done]. cbn in Hfold.
    pose proof (add_to_queue_grows rs0 E rs s Hg) as Hag.
    destruct (decide (can_send rs0 s)) as [Hcan|Hcan]; [|congruence].
    destruct Hag as (rs3 & Hadd3 & Hg3). assert (rs3 = rs2) as -> by congruence.
    cbn [fmap list_fmap].
    unfold add_to_queue, dict_get in Hadd. destruct Hg as [Hk Hq].
    rewrite (Hq s) in Hadd. unfold can_send in Hcan.
    destruct (store rs0 !! s) as [rS|] eqn:Hs; [|done]. simpl in Hadd.
    assert (router_of rs0 s = rS) as -> by (unfold router_of; by rewrite Hs).
    eapply sends_in_a_row; [exact Hadd|].
    specialize (IH (finished ++ [(s, [])]) _ rs2 rs1 Hg3).
    rewrite <-app_assoc in IH. apply IH; [|done].
    apply Forall_app. split; [done|]. by apply Forall_singleton.
Qed.

(** X4: the send phase.  When every key of [routers] has a router and
    every neighbour is a key, the calls of [add_to_queue] change nothing
    but the queues, in whatever order the appends of the threads interleave
    (line 156 makes each append one step): no thread raises, and every
    router's queue gets, after what it held, one copy of the table of each
    router that lists it as neighbour, once per listing, tagged with that
    router's name, in some order; run one thread after the other
    ([send_all]), the senders come in the order of the keys.  When a router
    lists a neighbour that is no key, a thread ends with KeyError in every
    interleaving, and with no other exception. *)
Theorem sending_delivers rs :
  (closed rs →
     (∃ rs1, send_all rs = Ok rs1 ∧ sending rs (senders rs) rs1 [] ∧
             ∀ n, store rs1 !! n =
                  (λ r, set_queue r (queue r ++ inbox rs n)) <$> store rs !! n) ∧
     ∀ rs1 died, sending rs (senders rs) rs1 died →
       died = [] ∧ keys rs1 = keys rs ∧
       ∀ n, ∃ q, q ≡ₚ inbox rs n ∧
                 store rs1 !! n =
                   (λ r, set_queue r (queue r ++ q)) <$> store rs !! n) ∧
  (∀ s r m, s ∈ keys rs → store rs !! s = Some r → m ∈ neighbours r →
            store rs !! m = None →
     ∀ rs1 died, sending rs (senders rs) rs1 died →
       died ≠ [] ∧ Forall (λ d : string * exn, d.2 = KeyError) died).
Proof.
  split.
  - intros Hcl. split.
    + destruct (proj1 (send_all_exact rs) Hcl) as (rs1 & Hsend & _ & Hq).
      exists rs1. split; [done|]. split; [|done].
      apply (send_all_sending rs (keys rs) [] (λ _, []) rs rs1);
        [apply queues_grown_refl|constructor|done].
    + intros rs1 died Hrun.
      destruct (sending_grows rs rs (senders rs) rs1 died (λ _, []) Hrun)
        as (-> & E' & [Hk Hq] & Hperm);
        [apply queues_grown_refl|by apply closed_runnable|].
      split; [done|]. split; [done|]. intros n. exists (E' n).
      split; [|done]. rewrite (Hperm n). simpl. by rewrite pending_senders.
  - intros s r m Hs Hr Hm Hnone rs1 died Hrun.
    split; [|by eapply sending_key_errors].
    apply (sending_dies rs (senders rs) rs1 died s (neighbours r) m Hrun); [|done..].
    unfold senders. apply list_elem_of_fmap. exists s. split; [|done].
    unfold router_of. by rewrite Hr.
Qed.

Lemma sending_delivers_witness :
  (∃ rs1, send_all line_net = Ok rs1 ∧
          queue (router_of rs1 "B") = [msg_of line_net "A"; msg_of line_net "C"]) ∧
  (∀ rs1 died, sending line_net (senders line_net) rs1 died →
     died = [] ∧
     ∃ q, q ≡ₚ [msg_of line_net "A"; msg_of line_net "C"] ∧
          queue (router_of rs1 "B") = q) ∧
  ∀ rs1 died, sending dangling_net (senders dangling_net) rs1 died →
    died ≠ [] ∧ Forall (λ d : string * exn, d.2 = KeyError) died.
Proof.
  split; [|split].
  - destruct (proj1 (sending_delivers line_net)) as [(rs1 & Hsend & _ & Hq) _].
    { apply (bool_decide_unpack _). vm_compute. exact I. }
    exists rs1. split; [done|]. unfold router_of. rewrite (Hq "B").
    vm_compute. reflexivity.
  - intros rs1 died Hrun.
    destruct (proj1 (sending_delivers line_net)) as [_ Hall].
    { apply (bool_decide_unpack _). vm_compute. exact I. }
    destruct (Hall rs1 died Hrun) as (-> & _ & Hq).
    split; [done|]. destruct (Hq "B") as (q & Hperm & Hst).
    exists q. split.
    + rewrite Hperm. vm_compute. reflexivity.
    + unfold router_of. rewrite Hst. vm_compute. reflexivity.
  - apply (proj2 (sending_delivers dangling_net) "A"
             (linked (new_router "A") "B" 1) "B").
    + set_solver.
    + vm_compute. reflexivity.
    + set_solver.
    + vm_compute. reflexivity.
Defined.

(** ** The sweep of one thread and the specification's relaxation *)

Lemma threaded_refines universe r r' d :
  threaded universe r = Done r' →
  view (rtable r') d =
    Spec.relax (view (rtable r)) universe (view_msg <$> queue r) d.
Proof.
  intros Hdone.
  pose proof (threaded_cases universe r) as Hc.
  destruct (blocked_queue (rtable r) universe (rtable r) (queue r)).
  - destruct Hc as [e He]. congruence.
  - destruct Hc as (tc & r2 & Hrun & Hd & _ & _ & _ & _ & _ & _ & Hget).
    assert (r2 = r') as -> by congruence.
    unfold view at 1. rewrite (proj1 (Hget d)).
    by apply (relax_queue_refines (rtable r) universe (queue r) (rtable r) tc
                (view (rtable r))).
Qed.

(** X17: a thread that ends normally has made one sweep over its queue and
    over all routers: its table then holds, under every destination, the
    cost and next hop of the relaxation as section 4.2 of the specification
    words it, each candidate being the sender's cost plus the router's cost
    for the sender before the iteration and replacing an entry only when
    strictly less, with the next hop the new table holds for the sender.  A
    thread ends normally when every cost of its table and of its messages is
    the sentinel or a non-negative int that fits a double. *)
Theorem threaded_is_spec_relax universe r :
  (∀ r', threaded universe r = Done r' →
         ∀ d, view (rtable r') d =
              Spec.relax (view (rtable r)) universe (view_msg <$> queue r) d) ∧
  (table_safe (rtable r) = true → queue_safe (queue r) = true →
   ∃ r', threaded universe r = Done r').
Proof.
  split.
  - intros r' Hdone d. by apply threaded_refines.
  - intros Ho Hq.
    pose proof (threaded_cases universe r) as Hc.
    rewrite (safe_not_blocked_queue _ universe _ Ho Hq) in Hc.
    destruct Hc as (tc & r' & _ & Hd & _). by exists r'.
Qed.

Lemma threaded_is_spec_relax_witness :
  ∃ r', threaded (keys line_net)
          (set_queue (router_of line_net "A") [msg_of line_net "B"]) = Done r' ∧
        view (rtable r') "C" = (Int 2, "B").
Proof.
  destruct (threaded_is_spec_relax (keys line_net)
              (set_queue (router_of line_net "A") [msg_of line_net "B"]))
    as [Hspec Hruns].
  destruct Hruns as (r' & Hrun).
  { vm_compute. reflexivity. }
  { vm_compute. reflexivity. }
  exists r'. split; [done|]. rewrite (Hspec r' Hrun "C"). vm_compute. reflexivity.
Defined.

Lemma overflow_net_wired : wired overflow_net.
Proof.
  apply (wired_input_parser ["X"; "Y"; "Z"; "W"]
           [("X", "Y", 2 ^ 1024); ("X", "Z", 1); ("Z", "W", 1)]).
  vm_compute. reflexivity.
Qed.

(** C1: the sweep is not made on a cost a double cannot hold.  In the
    network X-Y 2^1024, X-Z 1, Z-W 1 every thread gets its messages, and the
    relaxation of the specification gives X the entry (2, Z) for W whatever
    the order of its two messages; the thread of X dies with OverflowError
    at line 133 on the message of Y (inf + 2^1024), in either order, and
    the first iteration leaves X's entry for W at (inf, '[no path]'). *)
Theorem sweep_dies_on_overflow :
  input_parser_file overflow_file = Ok overflow_net ∧
  round_ready overflow_net = true ∧
  (∀ q, q ≡ₚ [msg_of overflow_net "Y"; msg_of overflow_net "Z"] →
     Spec.relax (view (rtable (router_of overflow_net "X"))) (keys overflow_net)
                (view_msg <$> q) "W" = (Int 2, "Z") ∧
     ∃ r, threaded (keys overflow_net) (set_queue (router_of overflow_net "X") q) =
            Died OverflowError r ∧
          view (rtable r) "W" = (Inf, "[no path]")) ∧
  ∀ rs', round_step overflow_net rs' →
         entry_of rs' "X" "W" = (Inf, "[no path]").
Proof.
  assert (∀ q, q ≡ₚ [msg_of overflow_net "Y"; msg_of overflow_net "Z"] →
     Spec.relax (view (rtable (router_of overflow_net "X"))) (keys overflow_net)
                (view_msg <$> q) "W" = (Int 2, "Z") ∧
     ∃ r, threaded (keys overflow_net) (set_queue (router_of overflow_net "X") q) =
            Died OverflowError r ∧
          view (rtable r) "W" = (Inf, "[no path]")) as Hall.
  { intros q Hq. symmetry in Hq. apply permutations_Permutation in Hq.
    cbn in Hq.
    repeat (apply elem_of_cons in Hq as [->|Hq]);
      [| |by apply elem_of_nil in Hq].
    - split; [vm_compute; reflexivity|]. eexists. split; vm_compute; reflexivity.
    - split; [vm_compute; reflexivity|]. eexists. split; vm_compute; reflexivity. }
  split; [vm_compute; reflexivity|]. split; [vm_compute; reflexivity|].
  split; [exact Hall|].
  intros rs' Hstep.
  destruct (round_step_exact overflow_net rs' "X" (router_of overflow_net "X")
              overflow_net_wired Hstep) as (q & Hq & Hr); [vm_compute; reflexivity|].
  destruct (Hall q) as (_ & r & Hdied & Hview).
  { rewrite Hq. vm_compute. reflexivity. }
  unfold entry_of, router_of. rewrite Hr. simpl. by rewrite Hdied.
Qed.

(** C8: the addition of line 133 does not saturate for every cost.  The
    file [huge_file] gives the edge A-B the cost 2^1024; B has no route to
    C, and the candidate of A for C is inf + 2^1024, which raises
    OverflowError ("int too large to convert to float"): the thread of A
    dies in the first iteration, leaving its table as it was and its queue
    filled. *)
Theorem infinity_addition_overflows :
  input_parser_file huge_file = Ok huge_net ∧
  cost (tget (rtable (router_of huge_net "B")) "C") = Inf ∧
  cost (tget (rtable (router_of huge_net "A")) "B") = Int (2 ^ 1024) ∧
  num_add Inf (Int (2 ^ 1024)) = Raise OverflowError ∧
  ∃ r, threaded (keys huge_net)
         (set_queue (router_of huge_net "A") [msg_of huge_net "B"]) =
       Died OverflowError r ∧
       ∀ rs', round_step huge_net rs' →
              store rs' !! "A" = Some r ∧
              rtable r = rtable (router_of huge_net "A") ∧
              queue r = [msg_of huge_net "B"].
Proof.
  split; [vm_compute; reflexivity|]. split; [reflexivity|].
  split; [reflexivity|]. split; [reflexivity|].
  eexists. split; [vm_compute; reflexivity|].
  intros rs' Hstep.
  rewrite (round_step_unique huge_net rs'); [|vm_compute; reflexivity|done].
  split; [vm_compute; reflexivity|]. split; vm_compute; reflexivity.
Qed.
